(** * BugTree: phylogenetic tree layout and drawing

    A shallow embedding of the two scripts of the repository,
    [trees.py] (rectangular layout) and [circTrees.py] (polar layout),
    together with the part of Bio.Phylo's tree interface they call.

    Conventions of the embedding.
    - A Python [Clade] object is hashed by identity.  In a tree every clade
      is reached from the root by exactly one sequence of child indices, so
      the identity of a clade is modelled by that sequence (a [path]); the
      dictionaries [{clade: coordinate}] become [gmap path Q].
    - Python floats are modelled by rationals [Q].  The rows of the leaves
      in the polar script, [2*np.pi*(1 - i/n)], are computed with the
      rounding of binary64 (module [F64]), and an axis limit beyond the
      range of binary64 is not finite ([Py.isfinite]); sums of branch
      lengths and midpoints are exact.  [np.pi] is the rational value of the
      double it denotes.
    - What the interpreter and the libraries decide is a parameter: which
      plotting library imports and which functions pyplot offers ([env]),
      what [Phylo.read] and [savefig] do ([Trees.world]).
    - Python exceptions are values of [Py.exn]; code that can raise returns
      a [Py.result].
    - Calls into matplotlib are recorded, in order, as [event]s. *)

From Stdlib Require Import QArith Qabs ZArith Lia Lqa Ascii SpecFloat.
From stdpp Require Import base option list gmap strings numbers pretty.

Set Default Proof Using "Type".
#[local] Set Warnings "-register-all".

(** ** Python values, exceptions and loops *)

Module Py.

Inductive exn :=
| KeyError
| IndexError
| ImportError
| FileNotFoundError (file : string)
| ValueError (msg : string)
| TypeError (msg : string)
| NameError (name : string)
| AttributeError (attr : string)
| MissingPythonDependencyError (msg : string).

Inductive result (A : Type) :=
| Ok (a : A)
| Raise (e : exn).
Arguments Ok {A} a.
Arguments Raise {A} e.

Definition bind {A B} (m : result A) (k : A -> result B) : result B :=
  match m with
  | Ok a => k a
  | Raise e => Raise e
  end.

(** [for i, x in enumerate(l, start=i): s = body(i, x, s)] *)
Fixpoint for_enumerate {A St} (body : nat -> A -> St -> result St)
    (l : list A) (i : nat) (s : St) : result St :=
  match l with
  | [] => Ok s
  | x :: r => bind (body i x s) (for_enumerate body r (S i))
  end.

(** The same loop for a body that cannot raise. *)
Fixpoint fold_enumerate {A St} (body : nat -> A -> St -> St)
    (l : list A) (i : nat) (s : St) : St :=
  match l with
  | [] => s
  | x :: r => fold_enumerate body r (S i) (body i x s)
  end.

(** [d[k]] on a dictionary. *)
Definition getitem `{Countable K} {V} (d : gmap K V) (k : K) : result V :=
  match d !! k with
  | Some v => Ok v
  | None => Raise KeyError
  end.

(** The objects a caller can pass as the value of a keyword argument. *)
Inductive value :=
| VNone
| VBool (b : bool)
| VInt (z : Z)
| VStr (s : string)
| VTuple (items : list value)
| VList (items : list value)
| VSet (items : list value)
| VDict (items : list (string * value)).

(** [str(v)] for the objects that have no [__iter__]. *)
Definition str_scalar (v : value) : string :=
  match v with
  | VNone => "None"
  | VBool true => "True"
  | VBool false => "False"
  | VInt z => pretty z
  | _ => ""
  end.

(** [[i for i in v]]: the list of items, or the [TypeError] Python
    raises for an object that is not iterable. *)
Definition iterate (v : value) : result (list value) :=
  match v with
  | VNone => Raise (TypeError "'NoneType' object is not iterable")
  | VBool _ => Raise (TypeError "'bool' object is not iterable")
  | VInt _ => Raise (TypeError "'int' object is not iterable")
  | VStr s => Ok ((fun a => VStr (String a EmptyString)) <$> String.list_ascii_of_string s)
  | VTuple l | VList l | VSet l => Ok l
  | VDict kv => Ok (VStr <$> kv.*1)
  end.

Definition iterable (v : value) : bool :=
  match iterate v with
  | Ok _ => true
  | Raise _ => false
  end.

(** [v[i]] for an integer [i]; the keys of a [VDict] are strings, so an
    integer subscript finds nothing there. *)
Definition subscript (v : value) (i : nat) : result value :=
  match v with
  | VStr s =>
      match String.list_ascii_of_string s !! i with
      | Some a => Ok (VStr (String a EmptyString))
      | None => Raise IndexError
      end
  | VTuple l | VList l =>
      match l !! i with
      | Some x => Ok x
      | None => Raise IndexError
      end
  | VDict _ => Raise KeyError
  | VSet _ => Raise (TypeError "'set' object is not subscriptable")
  | VNone => Raise (TypeError "'NoneType' object is not subscriptable")
  | VBool _ => Raise (TypeError "'bool' object is not subscriptable")
  | VInt _ => Raise (TypeError "'int' object is not subscriptable")
  end.

Definition is_tuple (v : value) : bool :=
  match v with
  | VTuple _ => true
  | _ => false
  end.

(** [max(l)] on numbers: the first largest item; [ValueError] on an
    empty sequence. *)
Definition max (l : list Q) : result Q :=
  match l with
  | [] => Raise (ValueError "max() arg is an empty sequence")
  | v :: vs => Ok (foldl (fun m x => if Qlt_le_dec m x then x else m) v vs)
  end.

(** [int(q)]: truncation towards zero. *)
Definition int (q : Q) : Z := Z.quot (Qnum q) (Zpos (Qden q)).

(** [bool(q)] for a number. *)
Definition truthy (q : Q) : bool := negb (Qeq_bool q 0).

(** The one-character string holding a double quote. *)
Definition dquote : string := String (ascii_of_nat 34) EmptyString.

(** [dict(v)]: a dict is copied; any other iterable must yield items
    that are themselves iterables of length two. *)
Fixpoint dict_items (i : nat) (l : list value) : result (list (value * value)) :=
  match l with
  | [] => Ok []
  | x :: r =>
      match iterate x with
      | Raise _ =>
          Raise (TypeError ("cannot convert dictionary update sequence element #"
                            +:+ pretty i +:+ " to a sequence"))
      | Ok [k; v] => bind (dict_items (S i) r) (fun rest => Ok ((k, v) :: rest))
      | Ok items =>
          Raise (ValueError ("dictionary update sequence element #"
                             +:+ pretty i +:+ " has length "
                             +:+ pretty (length items) +:+ "; 2 is required"))
      end
  end.

Definition dict (v : value) : result (list (value * value)) :=
  match v with
  | VDict kv => Ok (prod_map VStr id <$> kv)
  | _ => bind (iterate v) (dict_items 0)
  end.

(** Passing a dict as [**kwargs]: every key must be a string. *)
Fixpoint as_keywords (kv : list (value * value)) : result (list (string * value)) :=
  match kv with
  | [] => Ok []
  | (VStr k, v) :: r => bind (as_keywords r) (fun rest => Ok ((k, v) :: rest))
  | _ :: _ => Raise (TypeError "keywords must be strings")
  end.

(** Resolving a global name in a [raise Name(...)] statement: a name that
    is neither bound in the module nor a builtin raises [NameError]
    instead of the exception the statement wanted to build. *)
Definition builtins : list string := ["ValueError"; "TypeError"; "KeyError";
  "IndexError"; "ImportError"; "NameError"].

Definition raise_named {A} (globals : list string) (cls : string) (e : exn)
    : result A :=
  if bool_decide (cls ∈ globals ++ builtins) then Raise e
  else Raise (NameError cls).

(** Where double precision ends: a result of this magnitude or more is
    not a finite float ([2**1024 - 2**970], the first value that rounds to
    infinity). *)
Definition float_overflow : Q := inject_Z (2 ^ 1024 - 2 ^ 970).

Definition isfinite (q : Q) : bool := negb (Qle_bool float_overflow (Qabs q)).

End Py.

Export Py (result, Ok, Raise, exn).

(** ** Double precision

    The three operations of [2*np.pi*(1 - i/n)], with the rounding of IEEE
    754 binary64 as the Standard Library specifies it. *)

Module F64.

Definition prec : Z := 53.
Definition emax : Z := 1024.

Definition float := spec_float.

(** [float(z)] for a Python integer. *)
Definition of_Z (z : Z) : float := binary_normalize prec emax z 0 false.

Definition mul : float -> float -> float := SFmul prec emax.
Definition div : float -> float -> float := SFdiv prec emax.
Definition sub : float -> float -> float := SFsub prec emax.

(** The rational a finite float denotes ([0] stands for infinities and
    NaN, which the operands used here never produce). *)
Definition to_Q (f : float) : Q :=
  match f with
  | S754_finite s m e =>
      (inject_Z (if s then Z.neg m else Z.pos m) * 2 ^ e)%Q
  | _ => 0
  end.

(** [np.pi] *)
Definition pi : float := S754_finite false 7074237752028440 (-51).

End F64.

#[global] Instance result_ret : MRet Py.result := @Py.Ok.
#[global] Instance result_bind : MBind Py.result := fun A B k m => Py.bind m k.

(** ** Bio.Phylo: the tree interface the scripts call

    The scripts import [Bio.Phylo], a library outside the repository; the
    definitions of this module follow the methods of [Bio.Phylo.BaseTree]
    ([TreeMixin], [Tree], [Clade], [BranchColor]) that the scripts call:
    [get_terminals], [count_terminals], [depths], [get_path],
    [common_ancestor], [is_terminal] and the [color] attribute. *)

Module BioPhylo.

Record BranchColor := mkBranchColor { red : nat; green : nat; blue : nat }.

(** [BranchColor.color_names['r']] *)
Definition color_r : BranchColor := mkBranchColor 255 0 0.

Definition hex_digit (n : nat) : ascii :=
  match n with
  | 0 => "0" | 1 => "1" | 2 => "2" | 3 => "3" | 4 => "4" | 5 => "5"
  | 6 => "6" | 7 => "7" | 8 => "8" | 9 => "9" | 10 => "a" | 11 => "b"
  | 12 => "c" | 13 => "d" | 14 => "e" | _ => "f"
  end%char.

(** ["%02x" % n] for a colour component (at most 255). *)
Definition hex2 (n : nat) : string :=
  String (hex_digit (n / 16)) (String (hex_digit (n mod 16)) EmptyString).

(** [BranchColor.to_hex]: ["#%02x%02x%02x" % (red, green, blue)] *)
Definition to_hex (c : BranchColor) : string :=
  "#" +:+ hex2 (red c) +:+ hex2 (green c) +:+ hex2 (blue c).

(** A clade.  [confidences] is [None] for a clade that has no such
    attribute (every clade that is not a phyloXML clade). *)
Inductive Clade := mkClade {
  name : option string;
  branch_length : option Q;
  confidence : option Q;
  confidences : option (list Q);
  color : option BranchColor;
  width : option Q;
  clades : list Clade
}.

Record Tree := mkTree { root : Clade; tree_name : option string }.

(** The identity of a clade inside a tree: the child indices from the
    root down to it. *)
Abbreviation path := (list nat).

Definition is_terminal (c : Clade) : bool :=
  match clades c with
  | [] => true
  | _ => false
  end.

(** The clade object a key denotes. *)
Fixpoint clade_at (c : Clade) (p : path) : option Clade :=
  match p with
  | [] => Some c
  | i :: q =>
      match clades c !! i with
      | Some s => clade_at s q
      | None => None
      end
  end.

(** [find_clades(terminal=True, order='preorder')] below clade [c],
    whose own key is [p]. *)
Fixpoint terminals_from (c : Clade) (p : path) {struct c} : list path :=
  match clades c with
  | [] => [p]
  | cs =>
      Py.fold_enumerate
        (fun i sub acc => acc ++ terminals_from sub (p ++ [i])) cs 0 []
  end.

Definition get_terminals (t : Tree) : list path := terminals_from (root t) [].

Definition count_terminals (t : Tree) : nat := length (get_terminals t).

(** [c.branch_length or 0] *)
Definition branch_length_or_0 (c : Clade) : Q :=
  match branch_length c with
  | Some b => if Qeq_bool b 0 then 0 else b
  | None => 0
  end.

Definition depth_of (unit_branch_lengths : bool) (c : Clade) : Q :=
  if unit_branch_lengths then 1 else branch_length_or_0 c.

(** The local function [update_depths] of [TreeMixin.depths]. *)
Fixpoint update_depths (unit_branch_lengths : bool) (node : Clade) (p : path)
    (curr_depth : Q) (depths : gmap path Q) {struct node} : gmap path Q :=
  Py.fold_enumerate
    (fun i child depths =>
       update_depths unit_branch_lengths child (p ++ [i])
         (curr_depth + depth_of unit_branch_lengths child) depths)
    (clades node) 0 (<[p := curr_depth]> depths).

(** [tree.depths(unit_branch_lengths=...)] *)
Definition depths (unit_branch_lengths : bool) (t : Tree) : gmap path Q :=
  update_depths unit_branch_lengths (root t) [] (branch_length_or_0 (root t)) ∅.

(** The local function [check_in_path] of [TreeMixin.get_path]; [here]
    is the key of [v].  The result is the index sequence from [v] down
    to the first match. *)
Fixpoint check_in_path (matches : path -> Clade -> bool) (v : Clade)
    (here : path) {struct v} : option path :=
  if matches here v then Some []
  else
    Py.fold_enumerate
      (fun i child found =>
         match found with
         | Some q => Some q
         | None => cons i <$> check_in_path matches child (here ++ [i])
         end)
      (clades v) 0 None.

(** [tree.get_path(target)]: the clades from the root (excluded) to the
    target (included), here as the key of the target; [None] when nothing
    matches. *)
Definition get_path (matches : path -> Clade -> bool) (t : Tree) : option path :=
  check_in_path matches (root t) [].

(** Matching a [Clade] object: identity. *)
Definition identity_matcher (target : path) : path -> Clade -> bool :=
  fun here _ => bool_decide (here = target).

(** Matching a string: the name of the clade. *)
Definition string_matcher (target : string) : path -> Clade -> bool :=
  fun _ c => bool_decide (name c = Some target).

(** The loop of [common_ancestor] over the zipped paths: the longest
    common prefix. *)
Fixpoint mrca_of (p1 p2 : path) : path :=
  match p1, p2 with
  | i :: q1, j :: q2 => if bool_decide (i = j) then i :: mrca_of q1 q2 else []
  | _, _ => []
  end.

(** [tree.common_ancestor(target1, target2)] for two strings.  A target
    without a path raises [ValueError]; its message, which quotes part of
    the target, is abridged here. *)
Definition common_ancestor (t : Tree) (target1 target2 : string) : result path :=
  match get_path (string_matcher target1) t, get_path (string_matcher target2) t with
  | Some p1, Some p2 => Ok (mrca_of p1 p2)
  | _, _ => Raise (Py.ValueError "target is not in this tree")
  end.

(** In-place update of the clade with key [p]. *)
Fixpoint update_at (f : Clade -> Clade) (c : Clade) (p : path) : Clade :=
  match p with
  | [] => f c
  | i :: q =>
      match clades c !! i with
      | Some s =>
          mkClade (name c) (branch_length c) (confidence c) (confidences c)
            (color c) (width c) (<[i := update_at f s q]> (clades c))
      | None => c
      end
  end.

Definition set_color (col : option BranchColor) (c : Clade) : Clade :=
  mkClade (name c) (branch_length c) (confidence c) (confidences c)
    col (width c) (clades c).

End BioPhylo.

(** ** matplotlib: the calls the scripts make, as a trace *)

Module Mpl.

Record text_kw := mkTextKw {
  verticalalignment : option string;
  text_color : option string;
  fontweight : option string;
  fontsize : option string;
  horizontalalignment : option string
}.

(** [LineCollection([[(x0, y0), (x1, y1)]], color=color, lw=lw)] *)
Record segment := mkSegment {
  seg_x0 : Q; seg_y0 : Q; seg_x1 : Q; seg_y1 : Q;
  seg_color : string; seg_lw : Q
}.

Inductive event :=
| figure
| add_subplot (projection : option string)
| hlines (y xmin xmax : Q) (color : string) (lw : Q)
| vlines (x ymin ymax : Q) (color : string)
| plot (xs ys : list Q) (color : string) (lw : Q)
| text (x y : Q) (s : string) (kw : text_kw)
| add_collection (c : segment)
| set_title (s : string)
| set_xlabel (s : string)
| set_ylabel (s : string)
| set_xlim (lo hi : Q)
| set_ylim (lo hi : Q)
| set_rmax (r : Q)
| call (fname : string) (args : list Py.value) (kwargs : list (string * Py.value))
| show
| rc_font (size : Q)
| rc_lines (lw : Q) (color : string)
| rc_figure (width height : Q)
| phylo_read (file format : string)
| axis (arg : string)
| savefig (fname format : string) (bbox_inches : option string)
    (pad_inches : option Q) (dpi : Q).

(** What [draw_clade] writes to: the calls made on [axes] so far and the
    two lists of line collections of [drawMark]. *)
Record canvas := mkCanvas {
  events : list event;
  horizontal_linecollections : list segment;
  vertical_linecollections : list segment
}.

Definition emit (e : event) (cv : canvas) : canvas :=
  mkCanvas (events cv ++ [e]) (horizontal_linecollections cv)
    (vertical_linecollections cv).

(** [np.linspace(a, b, num)] *)
Definition linspace (a b : Q) (num : nat) : list Q :=
  (fun k => a + inject_Z (Z.of_nat k) * ((b - a) / inject_Z (Z.of_nat (num - 1))))%Q
    <$> seq 0 num.

End Mpl.

(** ** The arguments of [drawMark] and the interpreter state it runs in *)

Module Args.
Import BioPhylo.

(** [axes]: [None], an [Axes] instance, a tuple (given by the [str] of
    its items), or any other object (given by its [str]). *)
Inductive axes_arg :=
| AxesNone
| AxesObject
| AxesInvalid (shown : string)
| AxesTuple (items : list string).

(** [branch_labels]: [None] (or anything falsy), a non-empty dict keyed
    by clade, a callable, or some other truthy object. *)
Inductive branch_labels_arg :=
| BranchLabelsNone
| BranchLabelsDict (d : gmap path string)
| BranchLabelsCallable (f : Clade -> option string)
| BranchLabelsOther.

Inductive label_colors_arg :=
| LabelColorsNone
| LabelColorsCallable (f : string -> string)
| LabelColorsDict (d : gmap string string).

Record args := mkArgs {
  label_func : Clade -> option string;
  do_show : bool;
  show_confidence : bool;
  axes : axes_arg;
  branch_labels : branch_labels_arg;
  label_colors : label_colors_arg;
  mark : list string;
  markColor : string;
  markWeight : string;
  kwargs : list (string * Py.value)
}.


(** The interpreter state [drawMark] depends on. *)
Record env := mkEnv {
  pyplot_importable : bool;
  pylab_importable : bool;
  (** [plt.rcParams['lines.linewidth']] *)
  rc_linewidth : Q;
  (** [str] of a float that is not a whole number *)
  float_str : Q -> string;
  (** [getattr(plt, name)]: [None] when the plotting module has no such
      attribute; otherwise what calling it with the given positional and
      keyword arguments does: return ([None]) or raise. *)
  pyplot_attr :
    string -> option (list Py.value -> list (string * Py.value) -> option exn)
}.

(** The interpreter with another [rcParams['lines.linewidth']]. *)
Definition with_linewidth (E : env) (lw : Q) : env :=
  mkEnv (pyplot_importable E) (pylab_importable E) lw (float_str E)
    (pyplot_attr E).

End Args.

(** ** trees.py: the rectangular script *)

Module Trees.
Import BioPhylo Mpl Args.

(** The names bound at module level when [drawMark] runs: the imports
    ([Phylo], [matplotlib as plt], [pylab]), the two functions and
    [toMark]. *)
Definition module_globals : list string :=
  ["Phylo"; "plt"; "pylab"; "drawMark"; "drawTree"; "toMark"].

Definition toMark : list string :=
  ["NP_001278.1 Homo sapiens (human)"; "NP_001278.1 H/Cl-exchange transporter 7"].

Section drawMark.
Context (E : env) (a : args) (tree : Tree).

(** Lines 10-17: the nested [try: import ... except ImportError]. *)
Definition import_plt : result unit :=
  if pyplot_importable E then Ok ()
  else if pylab_importable E then Ok ()
  else Py.raise_named module_globals "MissingPythonDependencyError"
         (Py.MissingPythonDependencyError
            "Install matplotlib or pylab if you want to use draw.").

Definition conf2str (conf : Q) : string :=
  if Qeq_bool (inject_Z (Py.int conf)) conf then pretty (Py.int conf)
  else float_str E conf.

(** Lines 30-50.  The function chosen takes the clade and its key. *)
Definition format_branch_label : result (Clade -> path -> option string) :=
  match branch_labels a with
  | BranchLabelsNone =>
      if show_confidence a then
        Ok (fun clade _ =>
              match confidences clade with
              | Some cnfs => Some (String.concat "/" (conf2str <$> cnfs))
              | None => conf2str <$> confidence clade
              end)
      else Ok (fun _ _ => None)
  | BranchLabelsDict d => Ok (fun _ p => d !! p)
  | BranchLabelsCallable f => Ok (fun clade _ => f clade)
  | BranchLabelsOther =>
      Raise (Py.TypeError
               "branch_labels must be either a dict or a callable (function)")
  end.

(** Lines 53-64. *)
Definition get_label_color (label : string) : string :=
  match label_colors a with
  | LabelColorsNone => "black"
  | LabelColorsCallable f => f label
  | LabelColorsDict d => default "black" (d !! label)
  end.

(** Lines 68-77. *)
Definition get_x_positions : result (gmap path Q) :=
  let depths := BioPhylo.depths false tree in
  m ← Py.max (map_to_list depths).*2;
  if negb (Py.truthy m) then Ok (BioPhylo.depths true tree) else Ok depths.

(** Lines 91-97. *)
Fixpoint calc_row (clade : Clade) (p : path) (heights : gmap path Q)
    {struct clade} : result (gmap path Q) :=
  heights ← Py.for_enumerate
    (fun i subclade heights =>
       match heights !! (p ++ [i]) with
       | None => calc_row subclade (p ++ [i]) heights
       | Some _ => Ok heights
       end)
    (clades clade) 0 heights;
  first ← Py.getitem heights (p ++ [0]);
  last ← Py.getitem heights (p ++ [length (clades clade) - 1]);
  Ok (<[p := ((first + last) / 2)%Q]> heights).

(** Lines 79-101. *)
Definition get_y_positions : result (gmap path Q) :=
  let maxheight := count_terminals tree in
  let heights :=
    Py.fold_enumerate
      (fun i tip heights =>
         <[tip := inject_Z (Z.of_nat maxheight - Z.of_nat i)]> heights)
      (reverse (get_terminals tree)) 0 ∅ in
  if is_terminal (root tree) then Ok heights
  else calc_row (root tree) [] heights.

(** Lines 112-129. *)
Definition draw_clade_lines (use_linecollection : bool) (orientation : string)
    (y_here x_start x_here y_bot y_top : Q) (color : string) (lw : Q)
    (cv : canvas) : canvas :=
  if negb use_linecollection && String.eqb orientation "horizontal" then
    emit (hlines y_here x_start x_here color lw) cv
  else if use_linecollection && String.eqb orientation "horizontal" then
    mkCanvas (events cv)
      (horizontal_linecollections cv
         ++ [mkSegment x_start y_here x_here y_here color lw])
      (vertical_linecollections cv)
  else if negb use_linecollection && String.eqb orientation "vertical" then
    emit (vlines x_here y_bot y_top color) cv
  else if use_linecollection && String.eqb orientation "vertical" then
    mkCanvas (events cv) (horizontal_linecollections cv)
      (vertical_linecollections cv
         ++ [mkSegment x_here y_bot x_here y_top color lw])
  else cv.

Section draw.
Context (x_posns y_posns : gmap path Q)
        (format_label : Clade -> path -> option string).

(** Lines 144-153: the taxon label. *)
Definition draw_label (clade : Clade) (x_here y_here : Q) (cv : canvas)
    : canvas :=
  match label_func a clade with
  | None => cv
  | Some label =>
      if bool_decide (label = "Clade") then cv
      else if bool_decide (label ∈ mark a) then
        emit (text x_here y_here (" " +:+ label)
                (mkTextKw (Some "center") (Some (markColor a))
                   (Some (markWeight a)) None None)) cv
      else
        emit (text x_here y_here (" " +:+ label)
                (mkTextKw (Some "center") (Some (get_label_color label))
                   None None None)) cv
  end.

(** Lines 155-158: the label above the branch. *)
Definition draw_conf_label (clade : Clade) (p : path)
    (x_start x_here y_here : Q) (cv : canvas) : canvas :=
  match format_label clade p with
  | Some conf_label =>
      if bool_decide (conf_label = "") then cv
      else emit (text (0.5 * (x_start + x_here)) y_here conf_label
                   (mkTextKw None None None (Some "small") (Some "center"))) cv
  | None => cv
  end.

(** Lines 131-168. *)
Fixpoint draw_clade (clade : Clade) (p : path) (x_start : Q)
    (color : string) (lw : Q) (cv : canvas) {struct clade} : result canvas :=
  x_here ← Py.getitem x_posns p;
  y_here ← Py.getitem y_posns p;
  let color := match BioPhylo.color clade with
               | Some c => to_hex c
               | None => color
               end in
  let lw := match width clade with
            | Some w => (w * rc_linewidth E)%Q
            | None => lw
            end in
  let cv := draw_clade_lines true "horizontal" y_here x_start x_here 0 0
              color lw cv in
  let cv := draw_label clade x_here y_here cv in
  let cv := draw_conf_label clade p x_start x_here y_here cv in
  if is_terminal clade then Ok cv
  else
    y_top ← Py.getitem y_posns (p ++ [0]);
    y_bot ← Py.getitem y_posns (p ++ [length (clades clade) - 1]);
    let cv := draw_clade_lines true "vertical" 0 0 x_here y_bot y_top
                color lw cv in
    Py.for_enumerate
      (fun i child cv => draw_clade child (p ++ [i]) x_here color lw cv)
      (clades clade) 0 cv.
End draw.

(** The message of the [ValueError] of lines 198-201. *)
Definition kwarg_message (key : string) (value : Py.value) : string :=
  "Keyword argument " +:+ Py.dquote +:+ key +:+ "=" +:+ Py.str_scalar value
    +:+ Py.dquote +:+ " is not in the format "
    +:+ "pyplot_option_name=(tuple), pyplot_option_name=(tuple, dict),"
    +:+ " or pyplot_option_name=(dict) ".

(** [getattr(plt, str(key))]; the message of the [AttributeError], which
    names the module, is abridged to the attribute. *)
Definition getattr_plt (key : string)
    : result (list Py.value -> list (string * Py.value) -> option exn) :=
  match pyplot_attr E key with
  | Some f => Ok f
  | None => Raise (Py.AttributeError key)
  end.

(** Calling the function found: the call is recorded with the positional
    and keyword arguments it receives, unless it raises. *)
Definition call_plt
    (f : list Py.value -> list (string * Py.value) -> option exn)
    (key : string) (args : list Py.value) (kw : list (string * Py.value))
    : result event :=
  match f args kw with
  | None => Ok (call key args kw)
  | Some e => Raise e
  end.

(** Lines 194-207: the body of the loop over [kwargs.items()].  In each
    call expression Python evaluates [getattr(plt, str(key))] first, then
    the arguments from left to right, then makes the call. *)
Definition process_kwarg (key : string) (value : Py.value) : result event :=
  match Py.iterate value with
  | Raise (Py.TypeError _) => Raise (Py.ValueError (kwarg_message key value))
  | Raise e => Raise e
  | Ok _ =>
      match value with
      | Py.VDict kv =>
          f ← getattr_plt key;
          call_plt f key [] kv
      | _ =>
          v0 ← Py.subscript value 0;
          if negb (Py.is_tuple v0) then
            f ← getattr_plt key;
            args ← Py.iterate value;
            call_plt f key args []
          else
            f ← getattr_plt key;
            args ← Py.iterate v0;
            v1 ← Py.subscript value 1;
            d ← Py.dict v1;
            kw ← Py.as_keywords d;
            call_plt f key args kw
      end
  end.

Definition process_kwargs (kws : list (string * Py.value)) (evs : list event)
    : result (list event) :=
  Py.for_enumerate
    (fun _ kv evs => e ← process_kwarg kv.1 kv.2; Ok (evs ++ [e]))
    kws 0 evs.

(** ["Invalid argument for axes: %s" % axes]: a tuple on the right of
    [%] is the argument list of the format, so only a tuple of one item
    fills the single [%s], with that item. *)
Definition invalid_axes : result (list event) :=
  match axes a with
  | AxesTuple [] =>
      Raise (Py.TypeError "not enough arguments for format string")
  | AxesTuple [item] =>
      Raise (Py.ValueError ("Invalid argument for axes: " +:+ item))
  | AxesTuple _ =>
      Raise (Py.TypeError
               "not all arguments converted during string formatting")
  | AxesInvalid shown =>
      Raise (Py.ValueError ("Invalid argument for axes: " +:+ shown))
  | _ => Ok []
  end.

(** Lines 106-110. *)
Definition make_axes : result (list event) :=
  match axes a with
  | AxesNone => Ok [figure; add_subplot None]
  | AxesObject => Ok []
  | _ => invalid_axes
  end.

(** [axes.set_xlim] and [axes.set_ylim] refuse a limit that is not a
    finite number. *)
Definition check_limits (lo hi : Q) : result unit :=
  if Py.isfinite lo && Py.isfinite hi then Ok ()
  else Raise (Py.ValueError "Axis limits cannot be NaN or Inf").

(** Lines 181-190. *)
Definition aesthetics (x_posns y_posns : gmap path Q) : result (list event) :=
  let title := match tree_name tree with
               | Some n => if bool_decide (n = "") then [] else [set_title n]
               | None => []
               end in
  xmax ← Py.max (map_to_list x_posns).*2;
  _ ← check_limits (-0.05 * xmax) (1.25 * xmax);
  ymax ← Py.max (map_to_list y_posns).*2;
  _ ← check_limits (ymax + 0.8) 0.2;
  Ok (title ++ [set_xlabel "branch length"; set_ylabel "taxa";
                set_xlim (-0.05 * xmax) (1.25 * xmax);
                set_ylim (ymax + 0.8) 0.2]).

(** The body of [drawMark]; the result is the sequence of plotting
    calls it made. *)
Definition drawMark : result (list event) :=
  _ ← import_plt;
  format_label ← format_branch_label;
  x_posns ← get_x_positions;
  y_posns ← get_y_positions;
  ax ← make_axes;
  cv ← draw_clade x_posns y_posns format_label (root tree) [] 0 "k"
         (rc_linewidth E) (mkCanvas ax [] []);
  let evs := events cv
             ++ (add_collection <$> horizontal_linecollections cv)
             ++ (add_collection <$> vertical_linecollections cv) in
  aes ← aesthetics x_posns y_posns;
  evs ← process_kwargs (kwargs a) (evs ++ aes);
  Ok (if do_show a then evs ++ [show] else evs).

End drawMark.

(** What [drawTree] needs from outside: [Phylo.read] (the file system and
    the Newick parser), [Tree.ladderize], and what [pylab.savefig] raises
    when it renders the figure made by the calls so far and writes it (a
    format the backend does not offer, a path that cannot be written);
    [None] when it returns. *)
Record world := mkWorld {
  Phylo_read : string -> string -> result Tree;
  ladderize_tree : Tree -> Tree;
  savefig_error : list event -> event -> option exn
}.

(** Lines 212-242.  [outY] is accepted and not used. *)
Definition drawTree (E : env) (W : world) (treeName : string) (outX outY : Q)
    (outFormat : string) (outDPI : Q) (ladderize : bool)
    (fontSize lineWidth : Q) (mark : list string) : result (list event) :=
  let rc := [rc_font fontSize; rc_lines lineWidth "k"; rc_figure outX 10] in
  let E := with_linewidth E lineWidth in
  tree ← Phylo_read W (treeName +:+ ".nwk") "newick";
  let tree := if ladderize then ladderize_tree W tree else tree in
  let a := mkArgs name false true AxesNone BranchLabelsNone LabelColorsNone
             mark "r" "bold" [] in
  evs ← drawMark E a tree;
  let out := savefig (treeName +:+ "." +:+ outFormat) outFormat (Some "tight")
               (Some 0%Q) outDPI in
  match savefig_error W (rc ++ [phylo_read (treeName +:+ ".nwk") "newick"]
                            ++ evs ++ [axis "off"]) out with
  | Some e => Raise e
  | None => Ok (rc ++ [phylo_read (treeName +:+ ".nwk") "newick"] ++ evs
                  ++ [axis "off"; out])
  end.

End Trees.

(** ** circTrees.py: the polar script *)

Module CircTrees.
Import BioPhylo Mpl Args.

(** [np.pi]: the double nearest to pi, as a rational. *)
Definition np_pi : Q := 884279719003555 # 281474976710656.

(** The names bound at module level when [drawMark] runs. *)
Definition module_globals : list string :=
  ["Phylo"; "np"; "plt"; "pylab"; "drawMark"; "drawTree"; "toMark"].

Definition toMark : list string :=
  ["XP_021076601.1_H(+)/Cl(-)_exchange_transporter_7_isoform_X3_Mus_pahari";
   "XP_012063553.1_PREDICTED:_H(+)/Cl(-)_exchange_transporter_7_Atta_cephalotes"].

Section drawMark.
(** [lineColor] only sets the default colour of [draw_clade_lines],
    which every call overrides. *)
Context (E : env) (a : args) (tree : Tree).

(** Lines 12-19. *)
Definition import_plt : result unit :=
  if pyplot_importable E then Ok ()
  else if pylab_importable E then Ok ()
  else Py.raise_named module_globals "MissingPythonDependencyError"
         (Py.MissingPythonDependencyError
            "Install matplotlib or pylab if you want to use draw.").

(** Lines 28-66 are those of the rectangular script. *)
Definition format_branch_label : result (Clade -> path -> option string) :=
  Trees.format_branch_label E a.

(** Lines 78-81: the largest [len(tree.get_path(terminal))]. *)
Definition tree_depth : result nat :=
  Py.for_enumerate
    (fun _ terminal treeDepth =>
       match get_path (identity_matcher terminal) tree with
       | Some q =>
           let candidate := length q in
           Ok (if bool_decide (treeDepth < candidate) then candidate
               else treeDepth)
       | None =>
           Raise (Py.TypeError "object of type 'NoneType' has no len()")
       end)
    (get_terminals tree) 0 0.

(** Lines 70-91.  The result is the mapping together with the global
    [treeDepth], which [drawMark] reads again at line 204.  The branch for
    [cladogram=False] does not assign the global; [0] stands for it there.
    [drawMark] only ever calls [get_x_positions(tree)], the first branch. *)
Definition get_x_positions (cladogram : bool) : result (gmap path Q * nat) :=
  if cladogram then
    treeDepth ← tree_depth;
    let depths := BioPhylo.depths true tree in
    Ok (map_imap
          (fun p x =>
             match clade_at (root tree) p with
             | Some clade =>
                 if is_terminal clade then Some (inject_Z (Z.of_nat treeDepth))
                 else Some x
             | None => Some x
             end) depths, treeDepth)
  else
    let depths := BioPhylo.depths false tree in
    m ← Py.max (map_to_list depths).*2;
    if negb (Py.truthy m) then Ok (BioPhylo.depths true tree, 0)
    else Ok (depths, 0).

(** Line 102: [maxheight*(1 - (i/tree.count_terminals()))] with
    [maxheight = 2*np.pi], in double precision: the quotient of the two
    integers, the difference and the product are each rounded. *)
Definition row (n i : nat) : Q :=
  F64.to_Q
    (F64.mul (F64.mul (F64.of_Z 2) F64.pi)
       (F64.sub (F64.of_Z 1)
          (F64.div (F64.of_Z (Z.of_nat i)) (F64.of_Z (Z.of_nat n))))).

(** Lines 93-116; [calc_row] is that of the rectangular script. *)
Definition get_y_positions : result (gmap path Q) :=
  let heights :=
    Py.fold_enumerate
      (fun i tip heights => <[tip := row (count_terminals tree) i]> heights)
      (reverse (get_terminals tree)) 0 ∅ in
  if is_terminal (root tree) then Ok heights
  else Trees.calc_row (root tree) [] heights.

(** Lines 127-145. *)
Definition draw_clade_lines (orientation : string)
    (y_here x_start x_here y_bot y_top : Q) (color : string) (lw : Q)
    (resolution : nat) (cv : canvas) : canvas :=
  if String.eqb orientation "horizontal" then
    if Qeq_bool y_here (np_pi / 2) then
      emit (plot [y_here + 0.00018; y_here + 0.00018]%Q
              [x_start + 0.012; x_here + 0.012]%Q color lw) cv
    else
      emit (plot [y_here; y_here] [x_start; x_here] color lw) cv
  else if String.eqb orientation "vertical" then
    emit (plot (linspace y_bot y_top resolution) (replicate resolution x_here)
            color lw) cv
  else cv.

Section draw.
Context (x_posns y_posns : gmap path Q)
        (format_label : Clade -> path -> option string).

(** Lines 147-189.  Lines 160-173, the taxon label, are inside a
    string literal: no label is drawn. *)
Fixpoint draw_clade (clade : Clade) (p : path) (x_start : Q)
    (color : string) (lw : Q) (cv : canvas) {struct clade} : result canvas :=
  x_here ← Py.getitem x_posns p;
  y_here ← Py.getitem y_posns p;
  let color := match BioPhylo.color clade with
               | Some c => to_hex c
               | None => color
               end in
  let lw := match width clade with
            | Some w => (w * rc_linewidth E)%Q
            | None => lw
            end in
  let cv := draw_clade_lines "horizontal" y_here x_start x_here 0 0
              color lw 100 cv in
  let cv := Trees.draw_conf_label format_label clade p x_start x_here
              y_here cv in
  if is_terminal clade then Ok cv
  else
    y_top ← Py.getitem y_posns (p ++ [0]);
    y_bot ← Py.getitem y_posns (p ++ [length (clades clade) - 1]);
    let cv := draw_clade_lines "vertical" 0 0 x_here y_bot y_top
                color lw 100 cv in
    Py.for_enumerate
      (fun i child cv => draw_clade child (p ++ [i]) x_here color lw cv)
      (clades clade) 0 cv.
End draw.

(** Lines 121-125. *)
Definition make_axes : result (list event) :=
  match axes a with
  | AxesNone => Ok [figure; add_subplot (Some "polar")]
  | AxesObject => Ok []
  | _ => Trees.invalid_axes a
  end.

Definition drawMark : result (list event) :=
  _ ← import_plt;
  format_label ← format_branch_label;
  '(x_posns, treeDepth) ← get_x_positions true;
  y_posns ← get_y_positions;
  ax ← make_axes;
  cv ← draw_clade x_posns y_posns format_label (root tree) [] 0 "k"
         (rc_linewidth E) (mkCanvas ax [] []);
  let evs := events cv
             ++ (add_collection <$> horizontal_linecollections cv)
             ++ (add_collection <$> vertical_linecollections cv)
             ++ [set_rmax (inject_Z (Z.of_nat treeDepth + 1))] in
  evs ← Trees.process_kwargs E (kwargs a) evs;
  Ok (if do_show a then evs ++ [show] else evs).

End drawMark.

(** Lines 246-276.  [outY] and [mark] are accepted and not used. *)
Definition drawTree (E : env) (W : Trees.world) (treeName : string)
    (outX outY : Q) (outFormat : string) (outDPI : Q) (ladderize : bool)
    (fontSize lineWidth : Q) (mark : list string) : result (list event) :=
  let rc := [rc_font fontSize; rc_lines lineWidth "k"; rc_figure outX 10] in
  let E := with_linewidth E lineWidth in
  tree ← Trees.Phylo_read W (treeName +:+ ".nwk") "newick";
  let tree := if ladderize then Trees.ladderize_tree W tree else tree in
  protein7 ← common_ancestor tree
               (default "" (toMark !! 0)) (default "" (toMark !! 1));
  let tree := mkTree (update_at (set_color (Some color_r)) (root tree) protein7)
                (tree_name tree) in
  let a := mkArgs name false true AxesNone BranchLabelsNone LabelColorsNone
             [] "r" "bold" [] in
  evs ← drawMark E a tree;
  let out := savefig (treeName +:+ "." +:+ outFormat) outFormat None None
               outDPI in
  match Trees.savefig_error W
          (rc ++ [phylo_read (treeName +:+ ".nwk") "newick"] ++ evs
              ++ [axis "off"]) out with
  | Some e => Raise e
  | None => Ok (rc ++ [phylo_read (treeName +:+ ".nwk") "newick"] ++ evs
                  ++ [axis "off"; out])
  end.

End CircTrees.

(** ** Vocabulary of the statements *)

Module Spec.
Import BioPhylo Mpl Args.

(** [q] is the key, relative to [c], of a clade with children. *)
Definition internal_key (c : Clade) (q : path) : Prop :=
  exists d, clade_at c q = Some d /\ is_terminal d = false.

(** [q] is the key, relative to [c], of a clade without children. *)
Definition terminal_key (c : Clade) (q : path) : Prop :=
  exists d, clade_at c q = Some d /\ is_terminal d = true.

(** In [heights], the clade [d] with key [k] sits at the midpoint of its
    first and its last child. *)
Definition midpoint_at (heights : gmap path Q) (k : path) (d : Clade) : Prop :=
  exists y0 y1,
    heights !! (k ++ [0]) = Some y0 /\
    heights !! (k ++ [length (clades d) - 1]) = Some y1 /\
    heights !! k = Some ((y0 + y1) / 2)%Q.

(** What one call of [calc_row] does to [heights], provided the terminals
    below the clade are present and the clades with children are not. *)
Definition calc_row_ok (c : Clade) : Prop :=
  forall p h,
    is_terminal c = false ->
    (forall q, terminal_key c q -> is_Some (h !! (p ++ q))) ->
    (forall q, internal_key c q -> h !! (p ++ q) = None) ->
    exists h', Trees.calc_row c p h = Ok h' /\
      (forall k, (forall q, internal_key c q -> k <> p ++ q) -> h' !! k = h !! k) /\
      (forall q d, clade_at c q = Some d -> is_terminal d = false ->
         midpoint_at h' (p ++ q) d).

(** Sample trees: [((A:2,B:1):1,C:0.5);], a single leaf, and clade
    constructors for them. *)
Definition leaf (n : string) (bl : option Q) : Clade :=
  mkClade (Some n) bl None None None None [].

Definition inner (bl : option Q) (cs : list Clade) : Clade :=
  mkClade None bl None None None None cs.

Definition sample_tree : Tree :=
  mkTree (inner None [inner (Some 1%Q) [leaf "A" (Some 2%Q); leaf "B" (Some 1%Q)];
                      leaf "C" (Some 0.5%Q)]) None.

Definition single_leaf_tree : Tree := mkTree (leaf "A" None) None.

(** The depth [TreeMixin.depths] reaches at the clade with key [q] below
    [c], when [c] itself is at [curr]; [None] when [q] is no key. *)
Fixpoint depth_along (unit_branch_lengths : bool) (c : Clade) (q : path)
    (curr : Q) : option Q :=
  match q with
  | [] => Some curr
  | i :: q' =>
      match clades c !! i with
      | Some s =>
          depth_along unit_branch_lengths s q'
            (curr + depth_of unit_branch_lengths s)
      | None => None
      end
  end.

(** No clade has a negative branch length. *)
Fixpoint nonneg_lengths (c : Clade) : bool :=
  match branch_length c with
  | Some b => Qle_bool 0 b
  | None => true
  end && forallb nonneg_lengths (clades c).

(** No clade has a branch length other than zero. *)
Fixpoint zero_lengths (c : Clade) : bool :=
  match branch_length c with
  | Some b => Qeq_bool b 0
  | None => true
  end && forallb zero_lengths (clades c).

(** Positions never decrease from a clade to one of its children. *)
Definition non_decreasing (t : Tree) (x : gmap path Q) : Prop :=
  forall q d i s,
    clade_at (root t) q = Some d -> clades d !! i = Some s ->
    exists a b, x !! q = Some a /\ x !! (q ++ [i]) = Some b /\ (a <= b)%Q.

(** Every clade is at its number of edges from the root. *)
Definition equals_depth (t : Tree) (x : gmap path Q) : Prop :=
  forall q, is_Some (clade_at (root t) q) ->
    exists a, x !! q = Some a /\ (a == inject_Z (Z.of_nat (length q)))%Q.

(** The sentence on horizontal positions as the specification has it:
    non-decreasing from the root to any leaf when the cumulative branch
    lengths are used, equal to the depth from the root when unit lengths
    are used, in both scripts (the polar script always uses unit
    lengths). *)
Definition claimed_x_positions (t : Tree) : Prop :=
  (exists x, Trees.get_x_positions t = Ok x /\
     (x = depths false t -> non_decreasing t x) /\
     (x = depths true t -> equals_depth t x)) /\
  (exists x treeDepth,
     CircTrees.get_x_positions t true = Ok (x, treeDepth) /\
     equals_depth t x).

(** [(A:-1,B:2);], [(A:1):-1;] and [(A,B):0.5;] *)
Definition negative_tree : Tree :=
  mkTree (inner None [leaf "A" (Some (-1)%Q); leaf "B" (Some 2%Q)]) None.

Definition negative_root_tree : Tree :=
  mkTree (inner (Some (-1)%Q) [leaf "A" (Some 1%Q)]) None.

Definition root_length_tree : Tree :=
  mkTree (inner (Some 0.5%Q) [leaf "A" None; leaf "B" None]) None.

(** [((A,B),C);], a tree without branch lengths. *)
Definition unit_tree : Tree :=
  mkTree (inner None [inner None [leaf "A" None; leaf "B" None];
                      leaf "C" None]) None.

(** Lines 136-139 of [draw_clade]: the colour and the line width a clade
    is drawn with, given the ones passed in. *)
Definition own_color (clade : Clade) (color : string) : string :=
  match BioPhylo.color clade with
  | Some c => to_hex c
  | None => color
  end.

Definition own_lw (E : env) (clade : Clade) (lw : Q) : Q :=
  match width clade with
  | Some w => (w * rc_linewidth E)%Q
  | None => lw
  end.

(** The colour passed to the call of [draw_clade] on the clade with key
    [q] below [c], when [c] is called with [color]. *)
Fixpoint incoming_color (c : Clade) (q : path) (color : string) : string :=
  match q with
  | [] => color
  | i :: q' =>
      match clades c !! i with
      | Some s => incoming_color s q' (own_color c color)
      | None => color
      end
  end.

(** No clade strictly below [c] on the way to [q] carries a colour
    (the clade at [q] included, [c] excluded). *)
Fixpoint uncolored_below (c : Clade) (q : path) : Prop :=
  match q with
  | [] => True
  | i :: q' =>
      match clades c !! i with
      | Some s => BioPhylo.color s = None /\ uncolored_below s q'
      | None => False
      end
  end.

(** The shape both [draw_clade] functions share: what a clade draws for
    itself ([own]), the line joining its children ([joint]), then the
    children in order. *)
Section generic.
Context (E : env)
        (own : Clade -> path -> Q -> Q -> Q -> string -> Q -> canvas -> canvas)
        (joint : Q -> Q -> Q -> string -> Q -> canvas -> canvas)
        (x_posns y_posns : gmap path Q).

Fixpoint draw_generic (clade : Clade) (p : path) (x_start : Q)
    (color : string) (lw : Q) (cv : canvas) {struct clade} : result canvas :=
  x_here ← Py.getitem x_posns p;
  y_here ← Py.getitem y_posns p;
  let color := own_color clade color in
  let lw := own_lw E clade lw in
  let cv := own clade p x_start x_here y_here color lw cv in
  if is_terminal clade then Ok cv
  else
    y_top ← Py.getitem y_posns (p ++ [0]);
    y_bot ← Py.getitem y_posns (p ++ [length (clades clade) - 1]);
    let cv := joint x_here y_bot y_top color lw cv in
    Py.for_enumerate
      (fun i child cv => draw_generic child (p ++ [i]) x_here color lw cv)
      (clades clade) 0 cv.
End generic.

Definition rect_own (a : args) (format_label : Clade -> path -> option string)
    (clade : Clade) (p : path) (x_start x_here y_here : Q) (color : string)
    (lw : Q) (cv : canvas) : canvas :=
  Trees.draw_conf_label format_label clade p x_start x_here y_here
    (Trees.draw_label a clade x_here y_here
       (Trees.draw_clade_lines true "horizontal" y_here x_start x_here 0 0
          color lw cv)).

Definition rect_joint (x_here y_bot y_top : Q) (color : string) (lw : Q)
    (cv : canvas) : canvas :=
  Trees.draw_clade_lines true "vertical" 0 0 x_here y_bot y_top color lw cv.

Definition polar_own (format_label : Clade -> path -> option string)
    (clade : Clade) (p : path) (x_start x_here y_here : Q) (color : string)
    (lw : Q) (cv : canvas) : canvas :=
  Trees.draw_conf_label format_label clade p x_start x_here y_here
    (CircTrees.draw_clade_lines "horizontal" y_here x_start x_here 0 0
       color lw 100 cv).

Definition polar_joint (x_here y_bot y_top : Q) (color : string) (lw : Q)
    (cv : canvas) : canvas :=
  CircTrees.draw_clade_lines "vertical" 0 0 x_here y_bot y_top color lw 100 cv.

(** [cv'] is [cv] with more plotting calls and more line collections,
    the calls all satisfying [Pe] and the collections [Ps]. *)
Definition extends_with (Pe : event -> Prop) (Ps : segment -> Prop)
    (cv cv' : canvas) : Prop :=
  exists es hs vs,
    events cv' = events cv ++ es /\
    horizontal_linecollections cv' = horizontal_linecollections cv ++ hs /\
    vertical_linecollections cv' = vertical_linecollections cv ++ vs /\
    Forall Pe es /\ Forall Ps hs /\ Forall Ps vs.

Definition extends : canvas -> canvas -> Prop :=
  extends_with (fun _ => True) (fun _ => True).

(** The keyword arguments of the three [axes.text] calls of
    [draw_clade]: a highlighted taxon label, a plain one, and the label
    above a branch. *)
Definition marked_kw (a : args) : text_kw :=
  mkTextKw (Some "center") (Some (markColor a)) (Some (markWeight a)) None None.

Definition plain_kw (a : args) (label : string) : text_kw :=
  mkTextKw (Some "center") (Some (Trees.get_label_color a label)) None None None.

Definition branch_kw : text_kw :=
  mkTextKw None None None (Some "small") (Some "center").

(** The taxon label of a clade at [(x, y)]: in the highlight colour and
    weight when the label is in [mark], in the colour [get_label_color]
    gives otherwise. *)
Definition taxon_label (a : args) (x y : Q) (label : string) : event :=
  text x y (" " +:+ label)
    (if bool_decide (label ∈ mark a) then marked_kw a else plain_kw a label).

(** Every [text] call is a taxon label drawn by that rule, or a branch
    label. *)
Definition text_rule (a : args) (e : event) : Prop :=
  match e with
  | text x y s kw =>
      (exists label, e = taxon_label a x y label) \/ kw = branch_kw
  | _ => True
  end.

(** No [text] call other than a branch label. *)
Definition no_taxon_label (e : event) : Prop :=
  match e with
  | text _ _ _ kw => kw = branch_kw
  | _ => True
  end.

(** The sentence on highlighted labels as the specification has it, for
    one run of each [drawMark]: every terminal with a label is drawn with
    a [text] call coloured by the rule. *)
Definition claimed_label_highlight (E : env) (a : args) (t : Tree) : Prop :=
  forall q d label,
    clade_at (root t) q = Some d -> is_terminal d = true ->
    label_func a d = Some label ->
    (exists evs x y, Trees.drawMark E a t = Ok evs /\
                     taxon_label a x y label ∈ evs) /\
    (exists evs x y, CircTrees.drawMark E a t = Ok evs /\
                     taxon_label a x y label ∈ evs).

(** A call of [drawMark] that passes its own argument checks: a plotting
    library can be imported, [branch_labels] and [axes] are of an accepted
    kind, and every extra keyword argument can be dispatched. *)
Definition valid_call (E : env) (a : args) : Prop :=
  (pyplot_importable E = true \/ pylab_importable E = true) /\
  branch_labels a <> BranchLabelsOther /\
  (axes a = AxesNone \/ axes a = AxesObject) /\
  Forall (fun kv => exists e, Trees.process_kwarg E kv.1 kv.2 = Ok e) (kwargs a).

(** The calls that create or configure the figure without drawing the
    tree. *)
Definition is_setup (e : event) : Prop :=
  match e with
  | figure | add_subplot _ | set_title _ | set_xlabel _ | set_ylabel _
  | set_xlim _ _ | set_ylim _ _ | set_rmax _ | call _ _ _ | show => True
  | _ => False
  end.

(** An interpreter in which the imports succeed, and a call that
    highlights the label [A]. *)
Definition sample_pyplot (name : string)
    : option (list Py.value -> list (string * Py.value) -> option exn) :=
  if bool_decide (name ∈ ["xlim"; "ylim"; "title"; "xlabel"; "ylabel"; "plot";
                          "text"; "axis"; "savefig"])
  then Some (fun _ _ => None)
  else None.

Definition sample_env : env := mkEnv true true 1 (fun _ => "") sample_pyplot.

Definition mark_A : args :=
  mkArgs name false true AxesNone BranchLabelsNone LabelColorsNone
    ["A"] "r" "bold" [].

Definition clade_named_Clade : Tree := mkTree (leaf "Clade" None) None.

(** [drawMark] gets as far as its loop over the extra keyword arguments. *)
Definition reaches_kwargs (E : env) (a : args) : Prop :=
  (pyplot_importable E = true \/ pylab_importable E = true) /\
  branch_labels a <> BranchLabelsOther /\
  (axes a = AxesNone \/ axes a = AxesObject).

(** [a] with other extra keyword arguments. *)
Definition with_kwargs (a : args) (kws : list (string * Py.value)) : args :=
  mkArgs (label_func a) (do_show a) (show_confidence a) (axes a)
    (branch_labels a) (label_colors a) (mark a) (markColor a) (markWeight a)
    kws.

(** The message names the argument: it contains [key=value]. *)
Definition names_argument (msg key : string) (value : Py.value) : Prop :=
  exists before after,
    msg = before +:+ key +:+ "=" +:+ Py.str_scalar value +:+ after.

(** Reading the tree and writing the figure. *)
Definition is_file_io (e : event) : Prop :=
  match e with
  | phylo_read _ _ | savefig _ _ _ _ _ => True
  | _ => False
  end.

(** [x] is among the items appended to [before] to give [after]. *)
Definition added {A} (before after : list A) (x : A) : Prop :=
  exists l1 l2, after = before ++ l1 ++ x :: l2.

(** The line collection the rectangular [draw_clade] makes for the branch
    of a clade, and the one joining its children. *)
Definition branch_segment (x_start x_here y_here : Q) (color : string) (lw : Q)
    : segment :=
  mkSegment x_start y_here x_here y_here color lw.

Definition joint_segment (x_here y_bot y_top : Q) (color : string) (lw : Q)
    : segment :=
  mkSegment x_here y_bot x_here y_top color lw.

(** The [axes.plot] call the polar [draw_clade] makes for the branch of a
    clade, and the one for the arc joining its children. *)
Definition radial_line (x_start x_here y_here : Q) (color : string) (lw : Q)
    : event :=
  if Qeq_bool y_here (CircTrees.np_pi / 2)
  then plot [y_here + 0.00018; y_here + 0.00018]%Q
         [x_start + 0.012; x_here + 0.012]%Q color lw
  else plot [y_here; y_here] [x_start; x_here] color lw.

Definition arc_line (x_here y_bot y_top : Q) (color : string) (lw : Q) : event :=
  plot (linspace y_bot y_top 100) (replicate 100 x_here) color lw.

(** No clade of the subtree carries a colour. *)
Fixpoint uncolored (c : Clade) : bool :=
  match BioPhylo.color c with
  | None => true
  | Some _ => false
  end && forallb uncolored (clades c).

(** Every [plot] call and every line collection has colour [col]. *)
Definition plot_in (col : string) (e : event) : Prop :=
  match e with
  | plot _ _ c _ => c = col
  | _ => True
  end.

(** The sentence on inherited colours as the specification has it, for the
    rectangular [draw_clade] called on a clade of [t] that carries a
    colour: the branch of every clade below it that carries no colour of
    its own is drawn in that colour. *)
Definition claimed_color_inheritance (E : env) (a : args)
    (fl : Clade -> path -> option string) (t : Tree) : Prop :=
  forall x y q c col r d cv',
    Trees.get_x_positions t = Ok x ->
    Trees.get_y_positions t = Ok y ->
    clade_at (root t) q = Some c ->
    BioPhylo.color c = Some col ->
    Trees.draw_clade E a x y fl c q 0 "k" 1 (mkCanvas [] [] []) = Ok cv' ->
    clade_at c r = Some d ->
    r = [] \/ BioPhylo.color d = None ->
    exists xq yq x0 lw',
      x !! (q ++ r) = Some xq /\ y !! (q ++ r) = Some yq /\
      branch_segment x0 xq yq (to_hex col) lw' ∈ horizontal_linecollections cv'.

(** A red clade whose only child is blue and has one child without a
    colour: [((D:1):1);] with the colours set. *)
Definition nested_colors : Tree :=
  mkTree
    (mkClade None None None None (Some color_r) None
       [mkClade None (Some 1%Q) None None (Some (mkBranchColor 0 0 255)) None
          [leaf "D" (Some 1%Q)]])
    None.

(** [((A:2,B:1):1,C:0.5);] with the clade above [A] and [B] coloured red. *)
Definition red_clade : Clade :=
  mkClade None (Some 1%Q) None None (Some color_r) None
    [leaf "A" (Some 2%Q); leaf "B" (Some 1%Q)].

Definition red_sample_tree : Tree :=
  mkTree (inner None [red_clade; leaf "C" (Some 0.5%Q)]) None.

(** The mapping a layout function returned (empty if it raised). *)
Definition positions_of (r : result (gmap path Q)) : gmap path Q :=
  match r with
  | Ok m => m
  | Raise _ => ∅
  end.

(** A working directory that holds [orthologs.nwk], with the sample tree in
    it, and nothing else, and a backend that writes every figure. *)
Definition sample_world : Trees.world :=
  Trees.mkWorld
    (fun file _ =>
       if String.eqb file "orthologs.nwk" then Ok sample_tree
       else Raise (Py.FileNotFoundError file))
    (fun t => t)
    (fun _ _ => None).

(** ** Vocabulary of the further properties *)

(** [a] called with another [mark]. *)
Definition with_mark (a : args) (marks : list string) : args :=
  mkArgs (label_func a) (do_show a) (show_confidence a) (axes a)
    (branch_labels a) (label_colors a) marks (markColor a) (markWeight a)
    (kwargs a).

(** What [drawMark] calls before its loop over the extra keyword arguments:
    the figure and its axes, [text], [plot], [add_collection] and the
    settings of the axes. *)
Definition is_figure_call (e : event) : Prop :=
  match e with
  | figure | add_subplot _ | text _ _ _ _ | plot _ _ _ _ | add_collection _
  | set_title _ | set_xlabel _ | set_ylabel _ | set_xlim _ _ | set_ylim _ _
  | set_rmax _ => True
  | _ => False
  end.



Definition is_plot (e : event) : bool :=
  match e with
  | plot _ _ _ _ => true
  | _ => false
  end.

Definition is_text (e : event) : bool :=
  match e with
  | text _ _ _ _ => true
  | _ => false
  end.


(** No clade of the subtree is named [s]. *)
Fixpoint nowhere_named (s : string) (c : Clade) : bool :=
  negb (bool_decide (name c = Some s)) && forallb (nowhere_named s) (clades c).

(** No clade of the subtree has a label that is in [marks]. *)
Fixpoint unmarked (label_of : Clade -> option string) (marks : list string)
    (c : Clade) : bool :=
  match label_of c with
  | Some label => negb (bool_decide (label ∈ marks))
  | None => true
  end && forallb (unmarked label_of marks) (clades c).



(** No clade of the subtree has a [width]. *)
Fixpoint widthless (c : Clade) : bool :=
  match width c with
  | None => true
  | Some _ => false
  end && forallb widthless (clades c).

(** Every [plot] call has line width [lw]. *)
Definition plot_lw (lw : Q) (e : event) : Prop :=
  match e with
  | plot _ _ _ w => w = lw
  | _ => True
  end.



(** The limits the rectangular [drawMark] computes for its axes are
    finite: [aesthetics] returns on the layout of the tree. *)
Definition finite_limits (t : Tree) : Prop :=
  exists x y aes,
    Trees.get_x_positions t = Ok x /\
    Trees.get_y_positions t = Ok y /\
    Trees.aesthetics t x y = Ok aes.

(** Every [text] call is the taxon label of a clade of the tree whose
    label is neither [None] nor the class name, written at the position of
    that clade, or a branch label. *)
Definition label_rule (a : args) (t : Tree) (x y : gmap path Q) (e : event)
    : Prop :=
  match e with
  | text _ _ _ kw =>
      (exists q d label xq yq,
         clade_at (root t) q = Some d /\ label_func a d = Some label /\
         label <> "Clade" /\ x !! q = Some xq /\ y !! q = Some yq /\
         e = taxon_label a xq yq label) \/
      kw = branch_kw
  | _ => True
  end.

(** The calls the extra keyword arguments ask for, one each, in order. *)
Definition dispatched (E : env) (kws : list (string * Py.value))
    (calls : list event) : Prop :=
  Forall2 (fun kv e => Trees.process_kwarg E kv.1 kv.2 = Ok e) kws calls.

(** The sentence on extra keyword arguments as the specification has it:
    for every extra keyword argument whose value is not iterable,
    [drawMark] raises a [ValueError] whose message names that argument. *)
Definition claimed_kwarg_error (E : env) (a : args) (t : Tree) : Prop :=
  forall key value,
    (key, value) ∈ kwargs a -> Py.iterable value = false ->
    (exists msg, Trees.drawMark E a t = Raise (Py.ValueError msg) /\
                 names_argument msg key value) /\
    (exists msg, CircTrees.drawMark E a t = Raise (Py.ValueError msg) /\
                 names_argument msg key value).

End Spec.

(** * Properties *)

Import BioPhylo Mpl Args Spec.

(** ** Induction on clades and facts about keys *)

Lemma Clade_nested_ind (P : Clade -> Prop) :
  (forall n bl cf cfs col w cs, Forall P cs -> P (mkClade n bl cf cfs col w cs)) ->
  forall c, P c.
Proof.
  intros step. fix self 1. intros [n bl cf cfs col w cs].
  apply step. induction cs as [|c cs IH]; constructor.
  - apply self.
  - apply IH.
Qed.

Lemma clade_ind_children (P : Clade -> Prop) :
  (forall c, Forall P (clades c) -> P c) -> forall c, P c.
Proof.
  intros step. induction c as [n bl cf cfs col w cs IH] using Clade_nested_ind.
  apply step. exact IH.
Qed.

Lemma is_terminal_true (c : Clade) : is_terminal c = true <-> clades c = [].
Proof. unfold is_terminal. destruct (clades c); split; congruence. Qed.

Lemma is_terminal_false (c : Clade) : is_terminal c = false <-> clades c <> [].
Proof. unfold is_terminal. destruct (clades c); split; congruence. Qed.

Lemma clade_at_cons (c : Clade) (i : nat) (q : path) (d : Clade) :
  clade_at c (i :: q) = Some d <->
  exists s, clades c !! i = Some s /\ clade_at s q = Some d.
Proof.
  simpl. destruct (clades c !! i) as [s|]; split.
  - intros H. by exists s.
  - intros (s' & Hs & H). by simplify_eq.
  - done.
  - intros (s' & Hs & H). done.
Qed.

Lemma clade_at_app (c : Clade) (q r : path) :
  clade_at c (q ++ r) = clade_at c q ≫= fun d => clade_at d r.
Proof.
  revert c. induction q as [|i q IH]; intros c; simpl; [done|].
  destruct (clades c !! i); simpl; [apply IH | done].
Qed.

Lemma clade_at_terminal (c d : Clade) (q : path) :
  is_terminal c = true -> clade_at c q = Some d -> q = [] /\ d = c.
Proof.
  intros Ht%is_terminal_true. destruct q as [|i q]; simpl.
  - intros [= <-]. done.
  - rewrite Ht. done.
Qed.

Lemma key_app_ne (p q : path) : q <> [] -> p ++ q <> p.
Proof.
  intros Hq Heq. apply Hq.
  apply (app_inv_head p). by rewrite app_nil_r.
Qed.

Lemma key_child_inj (p : path) (i j : nat) (q r : path) :
  p ++ i :: q = p ++ j :: r -> i = j /\ q = r.
Proof. intros H%app_inv_head. by simplify_eq. Qed.

(** ** The two loops *)

Lemma for_enumerate_app {A St} (body : nat -> A -> St -> result St)
    (l1 l2 : list A) (i : nat) (s : St) :
  Py.for_enumerate body (l1 ++ l2) i s =
  Py.for_enumerate body l1 i s ≫= Py.for_enumerate body l2 (i + length l1).
Proof.
  revert i s. induction l1 as [|x l1 IH]; intros i s; simpl.
  - by rewrite Nat.add_0_r.
  - unfold mbind, result_bind. destruct (body i x s) as [s'|e]; simpl; [|done].
    rewrite IH. by replace (S i + length l1) with (i + S (length l1)) by lia.
Qed.

Lemma fold_enumerate_app {A St} (body : nat -> A -> St -> St)
    (l1 l2 : list A) (i : nat) (s : St) :
  Py.fold_enumerate body (l1 ++ l2) i s =
  Py.fold_enumerate body l2 (i + length l1) (Py.fold_enumerate body l1 i s).
Proof.
  revert i s. induction l1 as [|x l1 IH]; intros i s; simpl.
  - by rewrite Nat.add_0_r.
  - rewrite IH. by replace (S i + length l1) with (i + S (length l1)) by lia.
Qed.

Lemma fold_enumerate_append_elem {A B} (f : nat -> A -> list B) (l : list A)
    (i : nat) (acc : list B) (k : B) :
  k ∈ Py.fold_enumerate (fun i x acc => acc ++ f i x) l i acc <->
  k ∈ acc \/ exists j x, l !! j = Some x /\ k ∈ f (i + j) x.
Proof.
  revert i acc. induction l as [|x l IH]; intros i acc; simpl.
  - split; [by left | intros [H | (j & y & H & _)]; [done | by destruct j]].
  - rewrite IH. rewrite elem_of_app. split.
    + intros [[H | H] | (j & y & Hj & H)].
      * by left.
      * right. exists 0, x. by rewrite Nat.add_0_r.
      * right. exists (S j), y. split; [done|].
        by replace (i + S j) with (S i + j) by lia.
    + intros [H | (j & y & Hj & H)].
      * left. by left.
      * destruct j as [|j]; simpl in Hj.
        -- simplify_eq. left. right. by rewrite Nat.add_0_r in H.
        -- right. exists j, y. split; [done|].
           by replace (S i + j) with (i + S j) by lia.
Qed.

Lemma fold_enumerate_append_NoDup {A B} (f : nat -> A -> list B) (l : list A)
    (i : nat) (acc : list B) :
  NoDup acc ->
  (forall j x, l !! j = Some x -> NoDup (f (i + j) x)) ->
  (forall j x k, l !! j = Some x -> k ∈ f (i + j) x -> k ∉ acc) ->
  (forall j j' x x' k, l !! j = Some x -> l !! j' = Some x' ->
     k ∈ f (i + j) x -> k ∈ f (i + j') x' -> j = j') ->
  NoDup (Py.fold_enumerate (fun i x acc => acc ++ f i x) l i acc).
Proof.
  revert i acc. induction l as [|x l IH]; intros i acc Hacc Hf Hd Hx; simpl.
  - done.
  - apply IH.
    + apply NoDup_app. split_and!; [done| |].
      * intros k Hk Hk'. apply (Hd 0 x k); [done| |done].
        by rewrite Nat.add_0_r.
      * specialize (Hf 0 x eq_refl). by rewrite Nat.add_0_r in Hf.
    + intros j y Hj. replace (S i + j) with (i + S j) by lia. by apply Hf.
    + intros j y k Hj Hk. replace (S i + j) with (i + S j) in Hk by lia.
      rewrite elem_of_app. intros [Hin | Hin].
      * by apply (Hd (S j) y k).
      * assert (S j = 0); [|done].
        apply (Hx (S j) 0 y x k); [done|done|done|by rewrite Nat.add_0_r].
    + intros j j' y y' k Hj Hj' Hk Hk'.
      replace (S i + j) with (i + S j) in Hk by lia.
      replace (S i + j') with (i + S j') in Hk' by lia.
      assert (S j = S j'); [|lia]. by apply (Hx (S j) (S j') y y' k).
Qed.

(** ** The terminals of a tree *)

Lemma terminals_from_unfold (c : Clade) (p : path) :
  terminals_from c p =
  if is_terminal c then [p]
  else Py.fold_enumerate
         (fun i sub acc => acc ++ terminals_from sub (p ++ [i])) (clades c) 0 [].
Proof. destruct c as [n bl cf cfs col w [|s cs]]; reflexivity. Qed.

Lemma terminals_from_spec (c : Clade) (p k : path) :
  k ∈ terminals_from c p <->
  exists q d, k = p ++ q /\ clade_at c q = Some d /\ is_terminal d = true.
Proof.
  revert p k. induction c as [c IH] using clade_ind_children. intros p k.
  rewrite terminals_from_unfold. destruct (is_terminal c) eqn:Ht.
  - rewrite list_elem_of_singleton. split.
    + intros ->. exists [], c. by rewrite app_nil_r.
    + intros (q & d & -> & Hq & _).
      destruct (clade_at_terminal c d q Ht Hq) as [-> _]. by rewrite app_nil_r.
  - rewrite fold_enumerate_append_elem. split.
    + intros [H | (j & s & Hj & H)]; [by apply elem_of_nil in H|].
      rewrite Forall_lookup in IH. apply (IH j s Hj) in H.
      destruct H as (q & d & -> & Hq & Hd). exists (j :: q), d.
      split; [by rewrite <- app_assoc|]. split; [|done].
      apply clade_at_cons. eauto.
    + intros (q & d & -> & Hq & Hd). right.
      destruct q as [|j q].
      * simpl in Hq. simplify_eq. congruence.
      * apply clade_at_cons in Hq as (s & Hj & Hq). exists j, s. split; [done|].
        rewrite Forall_lookup in IH. apply (IH j s Hj).
        exists q, d. by rewrite <- app_assoc.
Qed.

Lemma terminals_from_NoDup (c : Clade) (p : path) : NoDup (terminals_from c p).
Proof.
  revert p. induction c as [c IH] using clade_ind_children. intros p.
  rewrite terminals_from_unfold. destruct (is_terminal c).
  - apply NoDup_singleton.
  - rewrite Forall_lookup in IH.
    apply fold_enumerate_append_NoDup.
    + apply NoDup_nil_2.
    + intros j s Hj. by apply (IH j s).
    + intros j s k _ _ H. by apply elem_of_nil in H.
    + intros j j' s s' k _ _ Hk Hk'.
      apply terminals_from_spec in Hk as (q & d & -> & _).
      apply terminals_from_spec in Hk' as (q' & d' & Heq & _).
      rewrite <- !app_assoc in Heq. simpl in Heq.
      by apply key_child_inj in Heq as [? _].
Qed.

Lemma get_terminals_spec (t : Tree) (k : path) :
  k ∈ get_terminals t <->
  exists d, clade_at (root t) k = Some d /\ is_terminal d = true.
Proof.
  unfold get_terminals. rewrite terminals_from_spec. split.
  - intros (q & d & -> & H). by exists d.
  - intros (d & H). by exists k, d.
Qed.

Lemma count_terminals_pos (t : Tree) : 0 < count_terminals t.
Proof.
  unfold count_terminals, get_terminals.
  generalize (@nil nat). induction (root t) as [c IH] using clade_ind_children.
  intros p. rewrite terminals_from_unfold. destruct (is_terminal c) eqn:Ht.
  - simpl. lia.
  - apply is_terminal_false in Ht. destruct (clades c) as [|s cs]; [done|].
    apply Forall_cons in IH as [IHs _]. simpl.
    specialize (IHs (p ++ [0])).
    assert (forall (l : list Clade) i acc, length acc <=
      length (Py.fold_enumerate
        (fun i sub acc => acc ++ terminals_from sub (p ++ [i])) l i acc)) as Hmono.
    { induction l as [|x l IHl]; intros i acc; simpl; [lia|].
      etrans; [|apply IHl]. rewrite length_app. lia. }
    eapply Nat.lt_le_trans; [|apply Hmono]. simpl. done.
Qed.

(** ** Vertical positions *)

Lemma fold_enumerate_insert_notin {V} (g : nat -> V) (l : list path) (i : nat)
    (h : gmap path V) (k : path) :
  k ∉ l ->
  Py.fold_enumerate (fun i x h => <[x := g i]> h) l i h !! k = h !! k.
Proof.
  revert i h. induction l as [|x l IH]; intros i h Hk; simpl; [done|].
  apply not_elem_of_cons in Hk as [Hne Hk].
  rewrite IH by done. by rewrite lookup_insert_ne.
Qed.

Lemma fold_enumerate_insert_lookup {V} (g : nat -> V) (l : list path) (i : nat)
    (h : gmap path V) (j : nat) (k : path) :
  NoDup l -> l !! j = Some k ->
  Py.fold_enumerate (fun i x h => <[x := g i]> h) l i h !! k = Some (g (i + j)).
Proof.
  revert i h j. induction l as [|x l IH]; intros i h j Hnd Hj; [done|].
  apply NoDup_cons in Hnd as [Hx Hnd]. destruct j as [|j]; simpl in *.
  - simplify_eq. rewrite fold_enumerate_insert_notin by done.
    rewrite lookup_insert_eq. by rewrite Nat.add_0_r.
  - rewrite (IH (S i) _ j) by done. do 2 f_equal. lia.
Qed.

Lemma calc_row_unfold (c : Clade) (p : path) (h : gmap path Q) :
  Trees.calc_row c p h =
  (h1 ← Py.for_enumerate
          (fun i subclade heights =>
             match heights !! (p ++ [i]) with
             | None => Trees.calc_row subclade (p ++ [i]) heights
             | Some _ => Ok heights
             end) (clades c) 0 h;
   first ← Py.getitem h1 (p ++ [0]);
   last ← Py.getitem h1 (p ++ [length (clades c) - 1]);
   Ok (<[p := ((first + last) / 2)%Q]> h1)).
Proof. destruct c; reflexivity. Qed.

Lemma midpoint_at_agree (h h' : gmap path Q) (p : path) (i : nat) (q : path)
    (d : Clade) :
  (forall r, h' !! (p ++ i :: r) = h !! (p ++ i :: r)) ->
  midpoint_at h (p ++ i :: q) d -> midpoint_at h' (p ++ i :: q) d.
Proof.
  intros Hag (y0 & y1 & H0 & H1 & Hk). exists y0, y1.
  rewrite <- !app_assoc in *. simpl in *. by rewrite !Hag.
Qed.

Lemma calc_row_loop (p : path) (rest : list Clade) :
  Forall calc_row_ok rest ->
  forall i h,
    (forall j s q, rest !! j = Some s -> terminal_key s q ->
       is_Some (h !! (p ++ (i + j) :: q))) ->
    (forall j s q, rest !! j = Some s -> internal_key s q ->
       h !! (p ++ (i + j) :: q) = None) ->
    exists h',
      Py.for_enumerate
        (fun i subclade heights =>
           match heights !! (p ++ [i]) with
           | None => Trees.calc_row subclade (p ++ [i]) heights
           | Some _ => Ok heights
           end) rest i h = Ok h' /\
      (forall k, (forall j s q, rest !! j = Some s -> internal_key s q ->
                    k <> p ++ (i + j) :: q) -> h' !! k = h !! k) /\
      (forall j s q d, rest !! j = Some s -> clade_at s q = Some d ->
         is_terminal d = false -> midpoint_at h' (p ++ (i + j) :: q) d).
Proof.
  induction 1 as [|x rest Hx _ IH]; intros i h Hterm Hint.
  - exists h. split; [done|]. split; [done|]. intros j s q d Hj. done.
  - cbn [Py.for_enumerate].
    assert (exists h1,
      match h !! (p ++ [i]) with
      | None => Trees.calc_row x (p ++ [i]) h
      | Some _ => Ok h
      end = Ok h1 /\
      (forall k, (forall q, internal_key x q -> k <> p ++ i :: q) ->
         h1 !! k = h !! k) /\
      (forall q d, clade_at x q = Some d -> is_terminal d = false ->
         midpoint_at h1 (p ++ i :: q) d)) as (h1 & Hrun & Hsame & Hmid).
    { destruct (is_terminal x) eqn:Htx.
      - destruct (Hterm 0 x [] eq_refl) as [y Hy]; [by exists x|].
        rewrite Nat.add_0_r in Hy. rewrite Hy. exists h.
        split; [done|]. split; [done|]. intros q d Hq Hd.
        destruct (clade_at_terminal x d q Htx Hq) as [_ ->]. congruence.
      - pose proof (Hint 0 x [] eq_refl) as Hnone.
        rewrite Nat.add_0_r in Hnone. rewrite Hnone by by exists x.
        destruct (Hx (p ++ [i]) h Htx) as (h1 & Hrun & Hsame & Hmid).
        + intros q Hq. rewrite <- app_assoc. simpl.
          specialize (Hterm 0 x q eq_refl Hq). by rewrite Nat.add_0_r in Hterm.
        + intros q Hq. rewrite <- app_assoc. simpl.
          specialize (Hint 0 x q eq_refl Hq). by rewrite Nat.add_0_r in Hint.
        + exists h1. split; [done|]. split.
          * intros k Hk. apply Hsame. intros q Hq.
            rewrite <- app_assoc. simpl. by apply Hk.
          * intros q d Hq Hd. specialize (Hmid q d Hq Hd).
            by rewrite <- app_assoc in Hmid. }
    rewrite Hrun. cbn [Py.bind].
    assert (forall j s q, rest !! j = Some s ->
              h1 !! (p ++ (S i + j) :: q) = h !! (p ++ (S i + j) :: q)) as Hkeep.
    { intros j s q Hj. apply Hsame. intros q' _ Heq.
      apply key_child_inj in Heq as [? _]. lia. }
    destruct (IH (S i) h1) as (h' & Hrun' & Hsame' & Hmid').
    + intros j s q Hj Hq. rewrite (Hkeep j s q Hj).
      replace (S i + j) with (i + S j) by lia. by apply (Hterm (S j) s q).
    + intros j s q Hj Hq. rewrite (Hkeep j s q Hj).
      replace (S i + j) with (i + S j) by lia. by apply (Hint (S j) s q).
    + exists h'. split; [done|]. split.
      * intros k Hk. rewrite Hsame'.
        -- apply Hsame. intros q Hq. specialize (Hk 0 x q eq_refl Hq).
           by rewrite Nat.add_0_r in Hk.
        -- intros j s q Hj Hq. replace (S i + j) with (i + S j) by lia.
           by apply (Hk (S j) s q).
      * intros j s q d Hj Hq Hd. destruct j as [|j]; simpl in Hj.
        -- simplify_eq. rewrite Nat.add_0_r.
           apply (midpoint_at_agree h1); [|by apply Hmid].
           intros r. apply Hsame'. intros j' s' q' _ _ Heq.
           apply key_child_inj in Heq as [? _]. lia.
        -- replace (i + S j) with (S i + j) by lia. by apply (Hmid' j s q d).
Qed.

Lemma calc_row_spec (c : Clade) : calc_row_ok c.
Proof.
  induction c as [c IH] using clade_ind_children.
  intros p h Hc Hterm Hint. rewrite calc_row_unfold.
  destruct (calc_row_loop p (clades c) IH 0 h) as (h1 & Hrun & Hsame & Hmid).
  { intros j s q Hj (d & Hq & Hd). apply Hterm. exists d. split; [|done].
    apply clade_at_cons. eauto. }
  { intros j s q Hj (d & Hq & Hd). apply Hint. exists d. split; [|done].
    apply clade_at_cons. eauto. }
  simpl in Hsame, Hmid. rewrite Hrun. cbn [mbind result_bind Py.bind].
  (* every child is present after the loop *)
  assert (forall j s, clades c !! j = Some s -> is_Some (h1 !! (p ++ [j])))
    as Hchild.
  { intros j s Hj. destruct (is_terminal s) eqn:Hs.
    - rewrite Hsame.
      + apply Hterm. exists s. split; [|done]. apply clade_at_cons. eauto.
      + intros j' s' q' Hj' (d & Hq' & Hd) Heq.
        apply key_child_inj in Heq as [<- <-]. simpl in Hq'. simplify_eq. congruence.
    - destruct (Hmid j s [] s Hj eq_refl Hs) as (y0 & y1 & _ & _ & Hk). eauto. }
  apply is_terminal_false in Hc.
  destruct (clades c) as [|s0 cs] eqn:Hcs; [done|].
  destruct (Hchild 0 s0 eq_refl) as [first Hfirst].
  destruct (lookup_lt_is_Some_2 (s0 :: cs) (length (s0 :: cs) - 1)) as [sl Hsl];
    [simpl; lia|].
  destruct (Hchild _ sl Hsl) as [last Hlast].
  unfold Py.getitem. rewrite Hfirst, Hlast. cbn [Py.bind].
  eexists. split; [done|]. split.
  - intros k Hk. rewrite lookup_insert_ne.
    + apply Hsame. intros j s q Hj (d & Hq & Hd). apply Hk. exists d.
      split; [|done]. apply clade_at_cons. rewrite Hcs. eauto.
    + intros <-. apply (Hk []); [|by rewrite app_nil_r].
      exists c. split; [done|]. apply is_terminal_false. by rewrite Hcs.
  - intros q d Hq Hd. destruct q as [|j q].
    + simpl in Hq. simplify_eq. rewrite app_nil_r. exists first, last.
      rewrite Hcs. rewrite !lookup_insert_ne by (apply not_eq_sym, key_app_ne; done).
      split; [done|]. split; [done|]. by rewrite lookup_insert_eq.
    + apply clade_at_cons in Hq as (s & Hj & Hq). rewrite Hcs in Hj.
      destruct (Hmid j s q d Hj Hq Hd) as (y0 & y1 & H0 & H1 & Hk).
      exists y0, y1. rewrite !lookup_insert_ne; [done| |  |].
      * apply not_eq_sym, key_app_ne. done.
      * rewrite <- app_assoc. apply not_eq_sym, key_app_ne. done.
      * rewrite <- app_assoc. apply not_eq_sym, key_app_ne. done.
Qed.

(** The layout shared by both scripts: rows for the terminals, numbered
    from the last one by [g], then [calc_row] from the root. *)
Lemma heights_layout (g : nat -> Q) (t : Tree) :
  exists h,
    (if is_terminal (root t)
     then Ok (Py.fold_enumerate (fun i tip heights => <[tip := g i]> heights)
                (reverse (get_terminals t)) 0 ∅)
     else Trees.calc_row (root t) []
            (Py.fold_enumerate (fun i tip heights => <[tip := g i]> heights)
               (reverse (get_terminals t)) 0 ∅)) = Ok h /\
    (forall j k, get_terminals t !! j = Some k ->
       h !! k = Some (g (count_terminals t - 1 - j))) /\
    (forall q d, clade_at (root t) q = Some d -> is_terminal d = false ->
       midpoint_at h q d) /\
    (forall q, is_Some (clade_at (root t) q) -> is_Some (h !! q)).
Proof.
  set (h0 := Py.fold_enumerate _ _ _ _).
  assert (forall j k, get_terminals t !! j = Some k ->
            h0 !! k = Some (g (count_terminals t - 1 - j))) as Hleaf.
  { intros j k Hj. unfold h0.
    pose proof (lookup_lt_Some _ _ _ Hj) as Hlt.
    rewrite (fold_enumerate_insert_lookup g _ 0 ∅ (count_terminals t - 1 - j) k).
    - done.
    - rewrite reverse_Permutation. apply terminals_from_NoDup.
    - rewrite reverse_lookup by (unfold count_terminals; lia).
      unfold count_terminals.
      replace (length (get_terminals t) - S (length (get_terminals t) - 1 - j))
        with j by lia. done. }
  assert (forall k, k ∉ get_terminals t -> h0 !! k = None) as Hother.
  { intros k Hk. unfold h0. rewrite fold_enumerate_insert_notin.
    - done.
    - by rewrite elem_of_reverse. }
  destruct (is_terminal (root t)) eqn:Hroot.
  - exists h0. split; [done|]. split; [done|]. split.
    + intros q d Hq Hd.
      destruct (clade_at_terminal _ _ _ Hroot Hq) as [_ ->]. congruence.
    + intros q [d Hq]. destruct (clade_at_terminal _ _ _ Hroot Hq) as [-> ->].
      assert ([] ∈ get_terminals t) as Hin
        by (apply get_terminals_spec; by exists (root t)).
      apply list_elem_of_lookup in Hin as [j Hj]. rewrite (Hleaf j [] Hj). eauto.
  - destruct (calc_row_spec (root t) [] h0 Hroot) as (h & Hrun & Hsame & Hmid).
    + intros q (d & Hq & Hd). simpl.
      assert (q ∈ get_terminals t) as Hin
        by (apply get_terminals_spec; by exists d).
      apply list_elem_of_lookup in Hin as [j Hj]. rewrite (Hleaf j q Hj). eauto.
    + intros q (d & Hq & Hd). simpl. apply Hother.
      rewrite get_terminals_spec. intros (d' & Hq' & Hd'). congruence.
    + exists h. split; [done|]. split; [|split].
      * intros j k Hj. rewrite Hsame; [by apply Hleaf|].
        intros q (d & Hq & Hd) ->. simpl in Hj.
        assert (q ∈ get_terminals t) as Hin by (apply list_elem_of_lookup; eauto).
        apply get_terminals_spec in Hin as (d' & Hq' & Hd'). congruence.
      * intros q d Hq Hd. by apply (Hmid q d).
      * intros q [d Hq]. destruct (is_terminal d) eqn:Hd.
        -- assert (q ∈ get_terminals t) as Hin
             by (apply get_terminals_spec; by exists d).
           apply list_elem_of_lookup in Hin as [j Hj].
           rewrite Hsame; [rewrite (Hleaf j q Hj); eauto|].
           intros q' (d' & Hq' & Hd') ->. simpl in Hq. congruence.
        -- destruct (Hmid q d Hq Hd) as (y0 & y1 & _ & _ & Hk). simpl in Hk. eauto.
Qed.

Lemma rect_get_y_positions_layout (t : Tree) :
  exists h,
    Trees.get_y_positions t = Ok h /\
    (forall j k, get_terminals t !! j = Some k ->
       h !! k = Some (inject_Z (Z.of_nat (S j)))) /\
    (forall q d, clade_at (root t) q = Some d -> is_terminal d = false ->
       midpoint_at h q d) /\
    (forall q, is_Some (clade_at (root t) q) -> is_Some (h !! q)).
Proof.
  destruct (heights_layout
              (fun i => inject_Z (Z.of_nat (count_terminals t) - Z.of_nat i)) t)
    as (h & Hrun & Hleaf & Hmid & Hdom).
  exists h. split; [exact Hrun|]. split; [|done].
  intros j k Hj. rewrite (Hleaf j k Hj). do 2 f_equal.
  apply lookup_lt_Some in Hj. unfold count_terminals. lia.
Qed.

Lemma polar_get_y_positions_layout (t : Tree) :
  exists h,
    CircTrees.get_y_positions t = Ok h /\
    (forall j k, get_terminals t !! j = Some k ->
       h !! k = Some (CircTrees.row (count_terminals t)
                        (count_terminals t - 1 - j))) /\
    (forall q d, clade_at (root t) q = Some d -> is_terminal d = false ->
       midpoint_at h q d) /\
    (forall q, is_Some (clade_at (root t) q) -> is_Some (h !! q)).
Proof.
  destruct (heights_layout (CircTrees.row (count_terminals t)) t)
    as (h & Hrun & Hleaf & Hmid & Hdom).
  exists h. split; [exact Hrun|]. done.
Qed.

(** C1.  In the mapping [get_y_positions] returns, for the rectangular and
    for the polar script alike, every clade that has children lies at the
    arithmetic mean of the positions of its first and of its last child. *)
Theorem get_y_positions_internal_midpoint (t : Tree) (q : path) (d : Clade) :
  clade_at (root t) q = Some d ->
  is_terminal d = false ->
  (exists h y0 y1,
     Trees.get_y_positions t = Ok h /\
     h !! (q ++ [0]) = Some y0 /\
     h !! (q ++ [length (clades d) - 1]) = Some y1 /\
     h !! q = Some ((y0 + y1) / 2)%Q) /\
  (exists h y0 y1,
     CircTrees.get_y_positions t = Ok h /\
     h !! (q ++ [0]) = Some y0 /\
     h !! (q ++ [length (clades d) - 1]) = Some y1 /\
     h !! q = Some ((y0 + y1) / 2)%Q).
Proof.
  intros Hq Hd. split.
  - destruct (rect_get_y_positions_layout t) as (h & Hrun & _ & Hmid & _).
    destruct (Hmid q d Hq Hd) as (y0 & y1 & H0 & H1 & Hk).
    by exists h, y0, y1.
  - destruct (polar_get_y_positions_layout t) as (h & Hrun & _ & Hmid & _).
    destruct (Hmid q d Hq Hd) as (y0 & y1 & H0 & H1 & Hk).
    by exists h, y0, y1.
Qed.

Lemma get_y_positions_internal_midpoint_witness :
  clade_at (root sample_tree) [0] =
    Some (inner (Some 1%Q) [leaf "A" (Some 2%Q); leaf "B" (Some 1%Q)]) /\
  is_terminal (inner (Some 1%Q) [leaf "A" (Some 2%Q); leaf "B" (Some 1%Q)]) = false /\
  ((exists h y0 y1,
      Trees.get_y_positions sample_tree = Ok h /\
      h !! ([0] ++ [0]) = Some y0 /\
      h !! ([0] ++ [2 - 1]) = Some y1 /\
      h !! [0] = Some ((y0 + y1) / 2)%Q) /\
   (exists h y0 y1,
      CircTrees.get_y_positions sample_tree = Ok h /\
      h !! ([0] ++ [0]) = Some y0 /\
      h !! ([0] ++ [2 - 1]) = Some y1 /\
      h !! [0] = Some ((y0 + y1) / 2)%Q)).
Proof.
  split; [reflexivity|]. split; [reflexivity|].
  apply (get_y_positions_internal_midpoint sample_tree [0]
           (inner (Some 1%Q) [leaf "A" (Some 2%Q); leaf "B" (Some 1%Q)]));
    reflexivity.
Defined.

(** [np.pi] is the same double in both forms. *)
Lemma np_pi_double : (F64.to_Q F64.pi == CircTrees.np_pi)%Q.
Proof. reflexivity. Qed.




(** ** Horizontal positions *)

Lemma update_depths_unfold (u : bool) (node : Clade) (p : path) (curr : Q)
    (d : gmap path Q) :
  update_depths u node p curr d =
  Py.fold_enumerate
    (fun i child depths =>
       update_depths u child (p ++ [i]) (curr + depth_of u child)%Q depths)
    (clades node) 0 (<[p := curr]> d).
Proof. destruct node; reflexivity. Qed.

Lemma update_depths_children_other (u : bool) (p : path) (curr : Q) (k : path)
    (rest : list Clade) :
  Forall (fun s => forall p curr d,
            (forall q, is_Some (clade_at s q) -> k <> p ++ q) ->
            update_depths u s p curr d !! k = d !! k) rest ->
  forall i d,
    (forall j s q, rest !! j = Some s -> is_Some (clade_at s q) ->
       k <> p ++ (i + j) :: q) ->
    Py.fold_enumerate
      (fun i child depths =>
         update_depths u child (p ++ [i]) (curr + depth_of u child)%Q depths)
      rest i d !! k = d !! k.
Proof.
  induction 1 as [|x rest Hx _ IH]; intros i d Hk; simpl; [done|].
  rewrite IH.
  - apply Hx. intros q Hq. rewrite <- app_assoc. simpl.
    specialize (Hk 0 x q eq_refl Hq). by rewrite Nat.add_0_r in Hk.
  - intros j s q Hj Hq. replace (S i + j) with (i + S j) by lia.
    by apply (Hk (S j) s q).
Qed.

Lemma update_depths_other (u : bool) (node : Clade) (k : path) :
  forall p curr d,
    (forall q, is_Some (clade_at node q) -> k <> p ++ q) ->
    update_depths u node p curr d !! k = d !! k.
Proof.
  induction node as [node IH] using clade_ind_children.
  intros p curr d Hk. rewrite update_depths_unfold.
  rewrite (update_depths_children_other u p curr k _ IH).
  - apply lookup_insert_ne. intros ->. apply (Hk []); [by eexists|].
    by rewrite app_nil_r.
  - intros j s q Hj [c Hq]. apply Hk. exists c. apply clade_at_cons. eauto.
Qed.

Lemma update_depths_lookup (u : bool) (node : Clade) :
  forall p curr d q x,
    depth_along u node q curr = Some x ->
    update_depths u node p curr d !! (p ++ q) = Some x.
Proof.
  induction node as [node IH] using clade_ind_children.
  intros p curr d q x Hx. rewrite update_depths_unfold.
  destruct q as [|j q]; simpl in Hx.
  - simplify_eq. rewrite app_nil_r.
    rewrite (update_depths_children_other u p x p (clades node)).
    + apply lookup_insert_eq.
    + apply Forall_forall. intros s _ p' c' d'. apply update_depths_other.
    + intros i s q _ _. apply not_eq_sym, key_app_ne. done.
  - destruct (clades node !! j) as [s|] eqn:Hj; [|done].
    rewrite <- (take_drop_middle _ _ _ Hj) in IH |- *.
    apply Forall_app in IH as [_ IH]. apply Forall_cons in IH as [IHs _].
    rewrite fold_enumerate_app. cbn [Py.fold_enumerate].
    assert (length (take j (clades node)) = j) as Hlen.
    { rewrite length_take. apply lookup_lt_Some in Hj. lia. }
    rewrite Hlen. simpl.
    rewrite (update_depths_children_other u p curr (p ++ j :: q)).
    + specialize (IHs (p ++ [j]) _
                    (Py.fold_enumerate
                       (fun i child depths =>
                          update_depths u child (p ++ [i])
                            (curr + depth_of u child)%Q depths)
                       (take j (clades node)) 0 (<[p := curr]> d)) q x Hx).
      by rewrite <- app_assoc in IHs.
    + apply Forall_forall. intros s' _ p' c' d'. apply update_depths_other.
    + intros i s' q' _ _ Heq. apply key_child_inj in Heq as [? _]. lia.
Qed.

Lemma depth_along_valid (u : bool) (c : Clade) (q : path) (curr : Q) :
  is_Some (depth_along u c q curr) <-> is_Some (clade_at c q).
Proof.
  revert c curr. induction q as [|i q IH]; intros c curr; simpl.
  - split; eauto.
  - destruct (clades c !! i); [apply IH|done].
Qed.

Lemma depths_lookup (u : bool) (t : Tree) (q : path) :
  depths u t !! q = depth_along u (root t) q (branch_length_or_0 (root t)).
Proof.
  unfold depths.
  destruct (depth_along u (root t) q (branch_length_or_0 (root t))) as [x|] eqn:Hx.
  - by apply (update_depths_lookup u (root t) [] _ ∅ q x).
  - rewrite update_depths_other; [done|]. intros q' Hq' ->. simpl in Hx.
    pose proof (proj2 (depth_along_valid u (root t) q'
                         (branch_length_or_0 (root t))) Hq') as [x Hsome].
    congruence.
Qed.

Lemma depth_along_snoc (u : bool) (c : Clade) (q : path) (i : nat) (curr : Q) :
  depth_along u c (q ++ [i]) curr =
  x ← depth_along u c q curr;
  d ← clade_at c q;
  s ← clades d !! i;
  Some (x + depth_of u s)%Q.
Proof.
  revert c curr. induction q as [|j q IH]; intros c curr; simpl.
  - by destruct (clades c !! i).
  - destruct (clades c !! j) as [s|]; [apply IH|done].
Qed.

Lemma py_max_foldl (vs : list Q) (v : Q) :
  let m := foldl (fun m x => if Qlt_le_dec m x then x else m) v vs in
  m ∈ v :: vs /\ forall x, x ∈ v :: vs -> (x <= m)%Q.
Proof.
  revert v. induction vs as [|y vs IH]; intros v; simpl.
  - split; [by left|]. intros x ->%list_elem_of_singleton. apply Qle_refl.
  - destruct (Qlt_le_dec v y) as [Hlt|Hle].
    + destruct (IH y) as [Hin Hmax]. split; [by right|].
      intros x [->|Hx]%elem_of_cons.
      * eapply Qle_trans; [apply Qlt_le_weak, Hlt|]. apply Hmax. by left.
      * by apply Hmax.
    + destruct (IH v) as [Hin Hmax]. split.
      * apply elem_of_cons in Hin as [->|Hin]; [by left|]. by do 2 right.
      * intros x [->|[->|Hx]%elem_of_cons]%elem_of_cons.
        -- apply Hmax. by left.
        -- eapply Qle_trans; [apply Hle|]. apply Hmax. by left.
        -- apply Hmax. by right.
Qed.

Lemma py_max_spec (l : list Q) :
  l <> [] ->
  exists m, Py.max l = Ok m /\ m ∈ l /\ forall x, x ∈ l -> (x <= m)%Q.
Proof.
  destruct l as [|v vs]; [done|]. intros _. eexists. split; [done|].
  apply py_max_foldl.
Qed.

Lemma elem_of_map_values (m : gmap path Q) (x : Q) :
  x ∈ (map_to_list m).*2 <-> exists k, m !! k = Some x.
Proof.
  rewrite list_elem_of_fmap. split.
  - intros ([k y] & -> & Hin). exists k. by apply elem_of_map_to_list.
  - intros (k & Hk). exists (k, x). split; [done|]. by apply elem_of_map_to_list.
Qed.

Lemma depths_values_nonempty (u : bool) (t : Tree) :
  (map_to_list (depths u t)).*2 <> [].
Proof.
  intros Hnil.
  assert (branch_length_or_0 (root t) ∈ (map_to_list (depths u t)).*2) as Hin.
  { apply elem_of_map_values. exists []. by rewrite depths_lookup. }
  rewrite Hnil in Hin. by apply elem_of_nil in Hin.
Qed.

Lemma nonneg_lengths_unfold (c : Clade) :
  nonneg_lengths c =
  match branch_length c with
  | Some b => Qle_bool 0 b
  | None => true
  end && forallb nonneg_lengths (clades c).
Proof. destruct c; reflexivity. Qed.

Lemma zero_lengths_unfold (c : Clade) :
  zero_lengths c =
  match branch_length c with
  | Some b => Qeq_bool b 0
  | None => true
  end && forallb zero_lengths (clades c).
Proof. destruct c; reflexivity. Qed.

Lemma nonneg_lengths_child (c s : Clade) (i : nat) :
  nonneg_lengths c = true -> clades c !! i = Some s ->
  nonneg_lengths s = true /\ (0 <= branch_length_or_0 s)%Q.
Proof.
  rewrite nonneg_lengths_unfold. intros [_ Hall]%andb_prop Hi.
  rewrite forallb_forall in Hall.
  assert (nonneg_lengths s = true) as Hs.
  { apply Hall. apply list_elem_of_In, list_elem_of_lookup. eauto. }
  split; [done|]. rewrite nonneg_lengths_unfold in Hs.
  apply andb_prop in Hs as [Hb _]. unfold branch_length_or_0.
  destruct (branch_length s) as [b|]; [|apply Qle_refl].
  destruct (Qeq_bool b 0); [apply Qle_refl|]. by apply Qle_bool_iff.
Qed.

Lemma zero_lengths_own (c : Clade) :
  zero_lengths c = true -> branch_length_or_0 c = 0%Q.
Proof.
  rewrite zero_lengths_unfold. intros [Hb _]%andb_prop.
  unfold branch_length_or_0. destruct (branch_length c) as [b|]; [|done].
  by rewrite Hb.
Qed.

Lemma zero_lengths_child (c s : Clade) (i : nat) :
  zero_lengths c = true -> clades c !! i = Some s -> zero_lengths s = true.
Proof.
  rewrite zero_lengths_unfold. intros [_ Hall]%andb_prop Hi.
  rewrite forallb_forall in Hall.
  apply Hall. apply list_elem_of_In, list_elem_of_lookup. eauto.
Qed.

Lemma nonneg_lengths_at (c d : Clade) (q : path) :
  nonneg_lengths c = true -> clade_at c q = Some d -> nonneg_lengths d = true.
Proof.
  revert c. induction q as [|i q IH]; intros c Hc Hq; simpl in Hq.
  - by simplify_eq.
  - destruct (clades c !! i) as [s|] eqn:Hi; [|done].
    apply (IH s); [|done]. by apply (nonneg_lengths_child c s i).
Qed.

Lemma depth_along_zero (c : Clade) (q : path) (curr x : Q) :
  zero_lengths c = true -> depth_along false c q curr = Some x -> (x == curr)%Q.
Proof.
  revert c curr. induction q as [|i q IH]; intros c curr Hc Hx; simpl in Hx.
  - by simplify_eq.
  - destruct (clades c !! i) as [s|] eqn:Hi; [|done].
    pose proof (zero_lengths_child c s i Hc Hi) as Hs.
    rewrite (IH s _ Hs Hx). simpl. rewrite (zero_lengths_own s Hs).
    apply Qplus_0_r.
Qed.

Lemma depth_along_unit (c : Clade) (q : path) (curr x : Q) :
  depth_along true c q curr = Some x ->
  (x == curr + inject_Z (Z.of_nat (length q)))%Q.
Proof.
  revert c curr. induction q as [|i q IH]; intros c curr Hx; simpl in Hx.
  - simplify_eq. simpl. by rewrite Qplus_0_r.
  - destruct (clades c !! i) as [s|] eqn:Hi; [|done].
    rewrite (IH s _ Hx). cbn [length depth_of].
    rewrite Nat2Z.inj_succ, <- Z.add_1_l, inject_Z_plus. ring.
Qed.

Lemma depths_non_decreasing (u : bool) (t : Tree) :
  u = true \/ nonneg_lengths (root t) = true -> non_decreasing t (depths u t).
Proof.
  intros Hu q d i s Hq Hi.
  destruct (proj2 (depth_along_valid u (root t) q (branch_length_or_0 (root t))))
    as [a Ha]; [eauto|].
  exists a, (a + depth_of u s)%Q. rewrite !depths_lookup, depth_along_snoc, Ha.
  simpl. rewrite Hq. simpl. rewrite Hi. simpl. split; [done|]. split; [done|].
  rewrite <- (Qplus_0_r a) at 1. apply Qplus_le_r.
  destruct Hu as [-> | Hnn]; [done|].
  destruct u; [done|]. simpl.
  apply (nonneg_lengths_child d s i); [|done]. by apply (nonneg_lengths_at (root t) d q).
Qed.

(** ** [get_path] on a clade object, and the global [treeDepth] *)

Lemma check_in_path_unfold (m : path -> Clade -> bool) (v : Clade) (here : path) :
  check_in_path m v here =
  if m here v then Some []
  else Py.fold_enumerate
         (fun i child found =>
            match found with
            | Some q => Some q
            | None => cons i <$> check_in_path m child (here ++ [i])
            end) (clades v) 0 None.
Proof. destruct v; reflexivity. Qed.

Lemma check_children_found (m : path -> Clade -> bool) (here : path)
    (rest : list Clade) (i : nat) (q : path) :
  Py.fold_enumerate
    (fun i child found =>
       match found with
       | Some q => Some q
       | None => cons i <$> check_in_path m child (here ++ [i])
       end) rest i (Some q) = Some q.
Proof. revert i. induction rest as [|x rest IH]; intros i; simpl; [done|apply IH]. Qed.

Lemma check_children_first (m : path -> Clade -> bool) (here : path)
    (rest : list Clade) (i j : nat) (s : Clade) (q : path) :
  rest !! j = Some s ->
  check_in_path m s (here ++ [i + j]) = Some q ->
  (forall j' s', j' < j -> rest !! j' = Some s' ->
     check_in_path m s' (here ++ [i + j']) = None) ->
  Py.fold_enumerate
    (fun i child found =>
       match found with
       | Some q => Some q
       | None => cons i <$> check_in_path m child (here ++ [i])
       end) rest i None = Some ((i + j) :: q).
Proof.
  revert i j. induction rest as [|x rest IH]; intros i j Hj Hs Hbefore; [done|].
  destruct j as [|j]; simpl in *.
  - simplify_eq. rewrite Nat.add_0_r in Hs |- *. rewrite Hs. simpl.
    apply check_children_found.
  - pose proof (Hbefore 0 x ltac:(lia) eq_refl) as H0.
    rewrite Nat.add_0_r in H0. rewrite H0. simpl.
    replace (i + S j) with (S i + j) in * by lia. apply IH; [done|done|].
    intros j' s' Hlt Hj'. replace (S i + j') with (i + S j') by lia.
    apply Hbefore; [lia|done].
Qed.

Lemma check_children_inv (m : path -> Clade -> bool) (here : path)
    (rest : list Clade) (i : nat) (q : path) :
  Py.fold_enumerate
    (fun i child found =>
       match found with
       | Some q => Some q
       | None => cons i <$> check_in_path m child (here ++ [i])
       end) rest i None = Some q ->
  exists j s q', rest !! j = Some s /\ q = (i + j) :: q' /\
                 check_in_path m s (here ++ [i + j]) = Some q'.
Proof.
  revert i. induction rest as [|x rest IH]; intros i; simpl; [done|].
  destruct (check_in_path m x (here ++ [i])) as [q'|] eqn:Hx; simpl.
  - rewrite check_children_found. intros [= <-]. exists 0, x, q'.
    by rewrite Nat.add_0_r.
  - intros (j & s & q' & Hj & -> & Hs)%IH. exists (S j), s, q'.
    by replace (i + S j) with (S i + j) by lia.
Qed.

Lemma check_in_path_identity_sound (target : path) (v : Clade) :
  forall here q,
    check_in_path (identity_matcher target) v here = Some q -> target = here ++ q.
Proof.
  induction v as [v IH] using clade_ind_children. intros here q.
  rewrite check_in_path_unfold. unfold identity_matcher at 1. case_bool_decide.
  - intros [= <-]. by rewrite app_nil_r.
  - intros (j & s & q' & Hj & -> & Hs)%check_children_inv.
    rewrite Forall_lookup in IH. apply (IH j s Hj) in Hs.
    by rewrite <- app_assoc in Hs.
Qed.

Lemma check_in_path_identity_complete (v : Clade) :
  forall here q,
    is_Some (clade_at v q) ->
    check_in_path (identity_matcher (here ++ q)) v here = Some q.
Proof.
  induction v as [v IH] using clade_ind_children. intros here q [d Hq].
  rewrite check_in_path_unfold. unfold identity_matcher at 1.
  destruct q as [|j q].
  - rewrite app_nil_r. by rewrite bool_decide_eq_true_2.
  - rewrite bool_decide_eq_false_2 by (apply not_eq_sym, key_app_ne; done).
    apply clade_at_cons in Hq as (s & Hj & Hq).
    rewrite Forall_lookup in IH.
    apply (check_children_first _ here (clades v) 0 j s q Hj).
    + specialize (IH j s Hj (here ++ [j]) q (ex_intro _ d Hq)).
      by rewrite <- app_assoc in IH.
    + intros j' s' Hlt Hj'.
      destruct (check_in_path _ s' (here ++ [0 + j'])) as [q'|] eqn:Hs'; [|done].
      apply check_in_path_identity_sound in Hs'. rewrite <- app_assoc in Hs'.
      apply key_child_inj in Hs' as [? _]. simpl in *. lia.
Qed.

Lemma get_path_identity (t : Tree) (k : path) :
  is_Some (clade_at (root t) k) -> get_path (identity_matcher k) t = Some k.
Proof. intros Hk. by apply (check_in_path_identity_complete (root t) [] k). Qed.

Lemma tree_depth_loop (t : Tree) (ks : list path) (i best : nat) :
  (forall k, k ∈ ks -> is_Some (clade_at (root t) k)) ->
  Py.for_enumerate
    (fun _ terminal treeDepth =>
       match get_path (identity_matcher terminal) t with
       | Some q =>
           let candidate := length q in
           Ok (if bool_decide (treeDepth < candidate) then candidate
               else treeDepth)
       | None => Raise (Py.TypeError "object of type 'NoneType' has no len()")
       end) ks i best = Ok (best `max` max_list (length <$> ks)).
Proof.
  revert i best. induction ks as [|k ks IH]; intros i best Hks; simpl.
  - by rewrite Nat.max_0_r.
  - rewrite get_path_identity by (apply Hks; by left). simpl.
    rewrite IH by (intros k' Hk'; apply Hks; by right).
    change (list_fmap (list nat) nat length ks) with (length <$> ks).
    case_bool_decide; apply (f_equal Ok); lia.
Qed.

Lemma tree_depth_spec (t : Tree) :
  CircTrees.tree_depth t = Ok (max_list (length <$> get_terminals t)).
Proof.
  unfold CircTrees.tree_depth. rewrite tree_depth_loop; [done|].
  intros k (d & Hk & _)%get_terminals_spec. eauto.
Qed.

Lemma rect_get_x_positions_cases (t : Tree) :
  exists m, Py.max (map_to_list (depths false t)).*2 = Ok m /\
    m ∈ (map_to_list (depths false t)).*2 /\
    Trees.get_x_positions t =
      Ok (if Qeq_bool m 0 then depths true t else depths false t).
Proof.
  destruct (py_max_spec _ (depths_values_nonempty false t)) as (m & Hm & Hin & _).
  exists m. split; [done|]. split; [done|].
  unfold Trees.get_x_positions. rewrite Hm. cbn [mbind result_bind Py.bind].
  unfold Py.truthy. by destruct (Qeq_bool m 0).
Qed.

Lemma polar_get_x_positions_lookup (t : Tree) :
  exists x,
    CircTrees.get_x_positions t true =
      Ok (x, max_list (length <$> get_terminals t)) /\
    forall q d, clade_at (root t) q = Some d ->
      exists a, depths true t !! q = Some a /\
        x !! q = Some (if is_terminal d
                       then inject_Z (Z.of_nat (max_list (length <$> get_terminals t)))
                       else a).
Proof.
  unfold CircTrees.get_x_positions. rewrite tree_depth_spec.
  cbn [mbind result_bind Py.bind]. eexists. split; [done|].
  intros q d Hq.
  destruct (proj2 (depth_along_valid true (root t) q (branch_length_or_0 (root t))))
    as [a Ha]; [eauto|].
  exists a. rewrite <- depths_lookup in Ha. split; [done|].
  rewrite map_lookup_imap, Ha. simpl. rewrite Hq. by destruct (is_terminal d).
Qed.

Lemma branch_length_or_0_nonneg (c : Clade) :
  nonneg_lengths c = true -> (0 <= branch_length_or_0 c)%Q.
Proof.
  rewrite nonneg_lengths_unfold. intros [Hb _]%andb_prop.
  unfold branch_length_or_0.
  destruct (branch_length c) as [b|]; [|apply Qle_refl].
  destruct (Qeq_bool b 0); [apply Qle_refl|]. by apply Qle_bool_iff.
Qed.

(** The rectangular [get_x_positions], with the maximum it tests. *)
Lemma rect_get_x_positions_max (t : Tree) :
  exists m, Py.max (map_to_list (depths false t)).*2 = Ok m /\
    m ∈ (map_to_list (depths false t)).*2 /\
    (branch_length_or_0 (root t) <= m)%Q /\
    Trees.get_x_positions t =
      Ok (if Qeq_bool m 0 then depths true t else depths false t).
Proof.
  destruct (py_max_spec _ (depths_values_nonempty false t))
    as (m & Hm & Hin & Hle).
  exists m. split; [done|]. split; [done|]. split.
  - apply Hle, elem_of_map_values. exists []. by rewrite depths_lookup.
  - unfold Trees.get_x_positions. rewrite Hm. cbn [mbind result_bind Py.bind].
    unfold Py.truthy. by destruct (Qeq_bool m 0).
Qed.

(** C3, as amended.  The rectangular [get_x_positions] uses the
    cumulative branch lengths unless their maximum [m] is zero, and unit
    lengths then, as on every tree whose branch lengths are all missing or
    zero.  Its positions never decrease from a clade to one of its children
    when no branch length is negative, or when unit lengths are used.  With unit lengths every clade is at the root's own branch length
    (or 0) plus its depth from the root: exactly at its depth when the root
    has no branch length, as on every tree without negative branch lengths.
    The polar [get_x_positions] always uses unit lengths: a clade with
    children is at its depth plus the root's own branch length, and every
    terminal is at [treeDepth], the largest depth of a terminal. *)
Theorem get_x_positions_layout (t : Tree) :
  (exists m x,
     Py.max (map_to_list (depths false t)).*2 = Ok m /\
     Trees.get_x_positions t = Ok x /\
     x = (if Qeq_bool m 0 then depths true t else depths false t) /\
     (zero_lengths (root t) = true -> Qeq_bool m 0 = true) /\
     (nonneg_lengths (root t) = true \/ Qeq_bool m 0 = true ->
      non_decreasing t x) /\
     (Qeq_bool m 0 = true ->
      forall q, is_Some (clade_at (root t) q) ->
        exists a, x !! q = Some a /\
          (a == branch_length_or_0 (root t)
                + inject_Z (Z.of_nat (length q)))%Q) /\
     (Qeq_bool m 0 = true ->
      (branch_length_or_0 (root t) == 0)%Q \/ nonneg_lengths (root t) = true ->
      equals_depth t x)) /\
  (exists x,
     CircTrees.get_x_positions t true =
       Ok (x, max_list (length <$> get_terminals t)) /\
     forall q d, clade_at (root t) q = Some d ->
       exists a, x !! q = Some a /\
         if is_terminal d
         then (a == inject_Z (Z.of_nat (max_list (length <$> get_terminals t))))%Q
         else (a == branch_length_or_0 (root t)
                    + inject_Z (Z.of_nat (length q)))%Q).
Proof.
  split.
  - destruct (rect_get_x_positions_max t) as (m & Hm & Hin & Hroot & Hrun).
    assert (Qeq_bool m 0 = true ->
            forall q, is_Some (clade_at (root t) q) ->
              exists a, depths true t !! q = Some a /\
                (a == branch_length_or_0 (root t)
                      + inject_Z (Z.of_nat (length q)))%Q) as Hunit.
    { intros _ q Hq.
      destruct (proj2 (depth_along_valid true (root t) q
                         (branch_length_or_0 (root t)))) as [a Ha]; [done|].
      exists a. rewrite depths_lookup. split; [done|].
      apply (depth_along_unit _ _ _ _ Ha). }
    exists m, (if Qeq_bool m 0 then depths true t else depths false t).
    split; [exact Hm|]. split; [exact Hrun|]. split; [reflexivity|].
    split_and!.
    + intros Hz. apply elem_of_map_values in Hin as (k & Hk).
      rewrite depths_lookup in Hk.
      apply (depth_along_zero _ _ _ _ Hz) in Hk.
      rewrite (zero_lengths_own _ Hz) in Hk. by apply Qeq_bool_iff.
    + intros [Hnn | Hz].
      * destruct (Qeq_bool m 0); apply depths_non_decreasing; auto.
      * rewrite Hz. apply depths_non_decreasing. by left.
    + intros Hz. rewrite Hz. by apply Hunit.
    + intros Hz Hor. rewrite Hz.
      assert (branch_length_or_0 (root t) == 0)%Q as H0.
      { destruct Hor as [H0 | Hnn]; [exact H0|].
        apply Qeq_bool_iff in Hz.
        pose proof (branch_length_or_0_nonneg _ Hnn). lra. }
      intros q Hq. destruct (Hunit Hz q Hq) as (a & Ha & Heq).
      exists a. split; [done|]. rewrite Heq, H0. apply Qplus_0_l.
  - destruct (polar_get_x_positions_lookup t) as (x & Hrun & Hx).
    exists x. split; [done|]. intros q d Hq.
    destruct (Hx q d Hq) as (a & Ha & Hxq). eexists. split; [exact Hxq|].
    destruct (is_terminal d); [reflexivity|].
    rewrite depths_lookup in Ha. apply (depth_along_unit _ _ _ _ Ha).
Qed.

Lemma get_x_positions_layout_witness :
  (exists x,
     Trees.get_x_positions sample_tree = Ok x /\
     x = depths false sample_tree /\ non_decreasing sample_tree x) /\
  (exists x,
     Trees.get_x_positions negative_root_tree = Ok x /\
     x = depths true negative_root_tree /\
     non_decreasing negative_root_tree x /\
     forall q, is_Some (clade_at (root negative_root_tree) q) ->
       exists a, x !! q = Some a /\
                 (a == -1 + inject_Z (Z.of_nat (length q)))%Q) /\
  (exists x,
     Trees.get_x_positions unit_tree = Ok x /\
     x = depths true unit_tree /\ equals_depth unit_tree x) /\
  (exists x,
     CircTrees.get_x_positions negative_tree true = Ok (x, 1) /\
     forall q d, clade_at (root negative_tree) q = Some d ->
       exists a, x !! q = Some a /\
         if is_terminal d then (a == 1)%Q
         else (a == 0 + inject_Z (Z.of_nat (length q)))%Q).
Proof.
  split_and!.
  - destruct (proj1 (get_x_positions_layout sample_tree))
      as (m & x & Hm & Hx & Heq & _ & Hmono & _).
    vm_compute in Hm. injection Hm as <-.
    exists x. split; [exact Hx|]. split; [exact Heq|].
    apply Hmono. left. reflexivity.
  - destruct (proj1 (get_x_positions_layout negative_root_tree))
      as (m & x & Hm & Hx & Heq & _ & Hmono & Hunit & _).
    vm_compute in Hm. injection Hm as <-.
    exists x. split; [exact Hx|]. split; [exact Heq|].
    split; [apply Hmono; right; reflexivity|].
    apply (Hunit eq_refl).
  - destruct (proj1 (get_x_positions_layout unit_tree))
      as (m & x & Hm & Hx & Heq & Hzero & _ & _ & Hdepth).
    specialize (Hzero eq_refl).
    exists x. split; [exact Hx|]. split; [by rewrite Heq, Hzero|].
    apply (Hdepth Hzero). right. reflexivity.
  - exact (proj2 (get_x_positions_layout negative_tree)).
Defined.

(** C3 as the specification states it fails: the polar script puts the
    terminal [C] of [((A,B),C)], one edge below the root, at 2; a negative
    branch length makes the cumulative positions decrease, and makes the
    unit positions start below zero; and the polar script puts a root with
    a branch length of its own at that length. *)
Lemma claimed_x_positions_counterexample :
  ~ claimed_x_positions sample_tree /\
  ~ claimed_x_positions negative_tree /\
  ~ claimed_x_positions negative_root_tree /\
  ~ claimed_x_positions root_length_tree.
Proof.
  split_and!.
  - intros [_ (x & td & Hrun & Hdepth)].
    destruct (polar_get_x_positions_lookup sample_tree) as (x' & Hrun' & Hx).
    rewrite Hrun in Hrun'. injection Hrun' as -> _.
    destruct (Hx [1] (leaf "C" (Some 0.5%Q)) eq_refl) as (a & _ & Ha).
    destruct (Hdepth [1]) as (b & Hb & Hbq); [by eexists|].
    rewrite Ha in Hb. injection Hb as <-. by vm_compute in Hbq.
  - intros [(x & Hrun & Hmono & _) _].
    assert (Trees.get_x_positions negative_tree = Ok (depths false negative_tree))
      as Hcum by (by vm_compute).
    rewrite Hcum in Hrun. injection Hrun as <-.
    destruct (Hmono eq_refl [] (root negative_tree) 0 (leaf "A" (Some (-1)%Q))
                eq_refl eq_refl) as (a & b & Ha & Hb & Hle).
    rewrite depths_lookup in Ha, Hb. simpl in Ha, Hb. simplify_eq.
    by vm_compute in Hle.
  - intros [(x & Hrun & _ & Hdepth) _].
    assert (Trees.get_x_positions negative_root_tree
            = Ok (depths true negative_root_tree)) as Hunit by (by vm_compute).
    rewrite Hunit in Hrun. injection Hrun as <-.
    destruct (Hdepth eq_refl []) as (a & Ha & Haq); [by eexists|].
    rewrite depths_lookup in Ha. simpl in Ha. simplify_eq.
    by vm_compute in Haq.
  - intros [_ (x & td & Hrun & Hdepth)].
    destruct (polar_get_x_positions_lookup root_length_tree) as (x' & Hrun' & Hx).
    rewrite Hrun in Hrun'. injection Hrun' as -> _.
    destruct (Hx [] (root root_length_tree) eq_refl) as (a & Ha0 & Ha).
    rewrite depths_lookup in Ha0. simpl in Ha0. simplify_eq.
    destruct (Hdepth []) as (b & Hb & Hbq); [by eexists|].
    rewrite Ha in Hb. injection Hb as <-. by vm_compute in Hbq.
Qed.

(** ** Drawing: both [draw_clade] functions as instances of one shape *)

Lemma for_enumerate_ext {A St} (f g : nat -> A -> St -> result St) (l : list A) :
  Forall (fun x => forall i s, f i x s = g i x s) l ->
  forall i s, Py.for_enumerate f l i s = Py.for_enumerate g l i s.
Proof.
  induction 1 as [|x l Hx _ IH]; intros i s; simpl; [done|].
  rewrite Hx. destruct (g i x s); simpl; [apply IH|done].
Qed.

Lemma for_enumerate_rel {A St} (R : St -> St -> Prop)
    (body : nat -> A -> St -> result St) (l : list A) :
  Reflexive R -> Transitive R ->
  (forall j x, l !! j = Some x -> forall i s s', body i x s = Ok s' -> R s s') ->
  forall i s s', Py.for_enumerate body l i s = Ok s' -> R s s'.
Proof.
  intros Hrefl Htrans. induction l as [|x l IH]; intros Hbody i s s'; simpl.
  - by intros [= <-].
  - destruct (body i x s) as [s1|] eqn:Hx; simpl; [|done]. intros Hrest.
    transitivity s1; [by apply (Hbody 0 x eq_refl i)|].
    apply (IH (fun j y Hj => Hbody (S j) y Hj) (S i)). done.
Qed.

Lemma for_enumerate_rel_ix {A St} (R : St -> St -> Prop)
    (body : nat -> A -> St -> result St) (l : list A) :
  Reflexive R -> Transitive R ->
  forall i s s',
    (forall j x, l !! j = Some x ->
       forall s1 s2, body (i + j) x s1 = Ok s2 -> R s1 s2) ->
    Py.for_enumerate body l i s = Ok s' -> R s s'.
Proof.
  intros Hrefl Htrans. induction l as [|x l IH]; intros i s s' Hbody; simpl.
  - by intros [= <-].
  - destruct (body i x s) as [s1|] eqn:Hx; simpl; [|done]. intros Hrest.
    transitivity s1.
    + apply (Hbody 0 x eq_refl). by rewrite Nat.add_0_r.
    + apply (IH (S i)); [|done]. intros j y Hj s2 s3.
      replace (S i + j) with (i + S j) by lia. by apply (Hbody (S j)).
Qed.

Lemma for_enumerate_at {A St} (R : St -> St -> Prop)
    (body : nat -> A -> St -> result St) (l : list A) :
  Reflexive R -> Transitive R ->
  (forall j x, l !! j = Some x -> forall i s s', body i x s = Ok s' -> R s s') ->
  forall i s s' j x,
    Py.for_enumerate body l i s = Ok s' -> l !! j = Some x ->
    exists s1 s2, body (i + j) x s1 = Ok s2 /\ R s s1 /\ R s2 s'.
Proof.
  intros Hrefl Htrans. induction l as [|y l IH]; intros Hbody i s s' j x; [done|].
  simpl. destruct (body i y s) as [s1|] eqn:Hy; simpl; [|done].
  intros Hrest Hj. destruct j as [|j]; simpl in Hj.
  - simplify_eq. exists s, s1. rewrite Nat.add_0_r. split; [done|].
    split; [done|].
    apply (for_enumerate_rel R body l Hrefl Htrans
             (fun j y Hj => Hbody (S j) y Hj) (S i)). done.
  - destruct (IH (fun j y Hj => Hbody (S j) y Hj) (S i) s1 s' j x Hrest Hj)
      as (s2 & s3 & Hrun & H12 & H3).
    exists s2, s3. replace (i + S j) with (S i + j) by lia.
    split; [done|]. split; [|done].
    transitivity s1; [by apply (Hbody 0 y eq_refl i)|done].
Qed.

Lemma draw_generic_unfold (E : env)
    (own : Clade -> path -> Q -> Q -> Q -> string -> Q -> canvas -> canvas)
    (joint : Q -> Q -> Q -> string -> Q -> canvas -> canvas)
    (x y : gmap path Q) (c : Clade) (p : path) (x_start : Q) (color : string)
    (lw : Q) (cv : canvas) :
  draw_generic E own joint x y c p x_start color lw cv =
  (x_here ← Py.getitem x p;
   y_here ← Py.getitem y p;
   if is_terminal c
   then Ok (own c p x_start x_here y_here (own_color c color) (own_lw E c lw) cv)
   else
     y_top ← Py.getitem y (p ++ [0]);
     y_bot ← Py.getitem y (p ++ [length (clades c) - 1]);
     Py.for_enumerate
       (fun i child cv =>
          draw_generic E own joint x y child (p ++ [i]) x_here
            (own_color c color) (own_lw E c lw) cv)
       (clades c) 0
       (joint x_here y_bot y_top (own_color c color) (own_lw E c lw)
          (own c p x_start x_here y_here (own_color c color) (own_lw E c lw) cv))).
Proof. destruct c; reflexivity. Qed.

Lemma rect_draw_clade_generic (E : env) (a : args) (x y : gmap path Q)
    (fl : Clade -> path -> option string) (c : Clade) :
  forall p x_start color lw cv,
    Trees.draw_clade E a x y fl c p x_start color lw cv =
    draw_generic E (rect_own a fl) rect_joint x y c p x_start color lw cv.
Proof.
  induction c as [c IH] using clade_ind_children.
  intros p x_start color lw cv. rewrite draw_generic_unfold.
  destruct c as [n bl cf cfs col w cs]. cbn [Trees.draw_clade]. simpl in IH.
  destruct (Py.getitem x p) as [x_here|]; [|done].
  destruct (Py.getitem y p) as [y_here|]; [|done].
  cbn [mbind result_bind Py.bind].
  destruct (is_terminal _); [done|].
  destruct (Py.getitem y (p ++ [0])) as [y_top|]; [|done].
  destruct (Py.getitem y (p ++ [_])) as [y_bot|]; [|done].
  cbn [mbind result_bind Py.bind].
  apply for_enumerate_ext. eapply Forall_impl; [exact IH|].
  intros s Hs i cv'. apply Hs.
Qed.

Lemma polar_draw_clade_generic (E : env) (x y : gmap path Q)
    (fl : Clade -> path -> option string) (c : Clade) :
  forall p x_start color lw cv,
    CircTrees.draw_clade E x y fl c p x_start color lw cv =
    draw_generic E (polar_own fl) polar_joint x y c p x_start color lw cv.
Proof.
  induction c as [c IH] using clade_ind_children.
  intros p x_start color lw cv. rewrite draw_generic_unfold.
  destruct c as [n bl cf cfs col w cs]. cbn [CircTrees.draw_clade]. simpl in IH.
  destruct (Py.getitem x p) as [x_here|]; [|done].
  destruct (Py.getitem y p) as [y_here|]; [|done].
  cbn [mbind result_bind Py.bind].
  destruct (is_terminal _); [done|].
  destruct (Py.getitem y (p ++ [0])) as [y_top|]; [|done].
  destruct (Py.getitem y (p ++ [_])) as [y_bot|]; [|done].
  cbn [mbind result_bind Py.bind].
  apply for_enumerate_ext. eapply Forall_impl; [exact IH|].
  intros s Hs i cv'. apply Hs.
Qed.

Section generic_drawing.
Context (E : env)
        (own : Clade -> path -> Q -> Q -> Q -> string -> Q -> canvas -> canvas)
        (joint : Q -> Q -> Q -> string -> Q -> canvas -> canvas)
        (x y : gmap path Q).

Lemma draw_generic_children_total (rest : list Clade) :
  Forall (fun s => forall p x_start color lw cv,
            (forall q, is_Some (clade_at s q) ->
               is_Some (x !! (p ++ q)) /\ is_Some (y !! (p ++ q))) ->
            exists cv',
              draw_generic E own joint x y s p x_start color lw cv = Ok cv')
    rest ->
  forall p x_here color lw i cv,
    (forall j s q, rest !! j = Some s -> is_Some (clade_at s q) ->
       is_Some (x !! (p ++ (i + j) :: q)) /\
       is_Some (y !! (p ++ (i + j) :: q))) ->
    exists cv',
      Py.for_enumerate
        (fun i child cv =>
           draw_generic E own joint x y child (p ++ [i]) x_here color lw cv)
        rest i cv = Ok cv'.
Proof.
  induction 1 as [|s rest Hs _ IH]; intros p x_here color lw i cv Hsub; simpl.
  - by eexists.
  - destruct (Hs (p ++ [i]) x_here color lw cv) as [cv1 Hrun].
    { intros q Hq. rewrite <- app_assoc. simpl.
      specialize (Hsub 0 s q eq_refl Hq). by rewrite Nat.add_0_r in Hsub. }
    rewrite Hrun. simpl. apply IH. intros j s' q Hj Hq.
    replace (S i + j) with (i + S j) by lia. by apply (Hsub (S j) s' q).
Qed.

(** With both mappings defined on every clade no lookup fails. *)
Lemma draw_generic_total (c : Clade) :
  forall p x_start color lw cv,
    (forall q, is_Some (clade_at c q) ->
       is_Some (x !! (p ++ q)) /\ is_Some (y !! (p ++ q))) ->
    exists cv', draw_generic E own joint x y c p x_start color lw cv = Ok cv'.
Proof.
  induction c as [c IH] using clade_ind_children.
  intros p x_start color lw cv Hdom. rewrite draw_generic_unfold.
  destruct (Hdom []) as [[x_here Hx] [y_here Hy]]; [by eexists|].
  rewrite app_nil_r in Hx, Hy. unfold Py.getitem. rewrite Hx, Hy.
  cbn [mbind result_bind Py.bind].
  destruct (is_terminal c) eqn:Hc; [by eexists|].
  assert (forall j s, clades c !! j = Some s -> is_Some (y !! (p ++ [j])))
    as Hchild.
  { intros j s Hj. apply (Hdom [j]). exists s. simpl. by rewrite Hj. }
  apply is_terminal_false in Hc.
  destruct (clades c !! 0) as [s0|] eqn:H0;
    [|destruct (clades c); done].
  destruct (lookup_lt_is_Some_2 (clades c) (length (clades c) - 1))
    as [sl Hsl]; [apply lookup_lt_Some in H0; lia|].
  destruct (Hchild 0 s0 H0) as [y_top Htop].
  destruct (Hchild _ sl Hsl) as [y_bot Hbot].
  rewrite Htop, Hbot. cbn [mbind result_bind Py.bind].
  apply (draw_generic_children_total (clades c) IH).
  intros j s q Hj [d Hq]. apply Hdom. exists d. apply clade_at_cons. eauto.
Qed.

Section relation.
Context (R : canvas -> canvas -> Prop) (okc : string -> Prop)
        (Hrefl : Reflexive R) (Htrans : Transitive R)
        (Hown : forall d k xs xh yh col lw cv,
                  okc col -> R cv (own d k xs xh yh col lw cv))
        (Hjoint : forall xh yb yt col lw cv,
                    okc col -> R cv (joint xh yb yt col lw cv)).

(** A relation every single drawing step establishes holds between the
    canvas before and after a call, as long as every colour met on the
    way is acceptable. *)
Lemma draw_generic_rel (c : Clade) :
  forall p x_start color lw cv cv',
    okc color ->
    (forall q d k, clade_at c q = Some d -> BioPhylo.color d = Some k ->
       okc (to_hex k)) ->
    draw_generic E own joint x y c p x_start color lw cv = Ok cv' ->
    R cv cv'.
Proof using Hrefl Htrans Hown Hjoint.
  induction c as [c IH] using clade_ind_children.
  intros p x_start color lw cv cv' Hcol Hcols. rewrite draw_generic_unfold.
  destruct (Py.getitem x p) as [x_here|]; [|done].
  destruct (Py.getitem y p) as [y_here|]; [|done].
  cbn [mbind result_bind Py.bind].
  assert (okc (own_color c color)) as Hcol'.
  { unfold own_color. destruct (BioPhylo.color c) as [k|] eqn:Hk; [|done].
    by apply (Hcols [] c k). }
  destruct (is_terminal c); [intros [= <-]; by apply Hown|].
  destruct (Py.getitem y (p ++ [0])) as [y_top|]; [|done].
  destruct (Py.getitem y (p ++ [_])) as [y_bot|]; [|done].
  cbn [mbind result_bind Py.bind]. intros Hloop.
  transitivity (own c p x_start x_here y_here (own_color c color)
                  (own_lw E c lw) cv); [by apply Hown|].
  etransitivity; [by apply Hjoint|].
  refine (for_enumerate_rel R _ (clades c) Hrefl Htrans _ _ _ _ Hloop).
  intros j s Hj i cv1 cv2. rewrite Forall_lookup in IH.
  apply (IH j s Hj); [done|]. intros q d k Hq Hk.
  apply (Hcols (j :: q) d k); [|done]. apply clade_at_cons. eauto.
Qed.
End relation.

Section calls.
Context (R : canvas -> canvas -> Prop)
        (Hrefl : Reflexive R) (Htrans : Transitive R)
        (Hown : forall d k xs xh yh col lw cv,
                  R cv (own d k xs xh yh col lw cv))
        (Hjoint : forall xh yb yt col lw cv,
                    R cv (joint xh yb yt col lw cv)).

Lemma draw_generic_step (c : Clade) p x_start color lw cv cv' :
  draw_generic E own joint x y c p x_start color lw cv = Ok cv' -> R cv cv'.
Proof using Hrefl Htrans Hown Hjoint.
  apply (draw_generic_rel R (fun _ => True)); auto.
Qed.

(** What the call on a clade draws for that clade itself. *)
Lemma draw_generic_own (c : Clade) p x_start color lw cv cv' :
  draw_generic E own joint x y c p x_start color lw cv = Ok cv' ->
  exists x_here y_here,
    x !! p = Some x_here /\ y !! p = Some y_here /\
    R (own c p x_start x_here y_here (own_color c color) (own_lw E c lw) cv)
      cv' /\
    (is_terminal c = false ->
     exists y_top y_bot,
       y !! (p ++ [0]) = Some y_top /\
       y !! (p ++ [length (clades c) - 1]) = Some y_bot /\
       R (joint x_here y_bot y_top (own_color c color) (own_lw E c lw)
            (own c p x_start x_here y_here (own_color c color)
               (own_lw E c lw) cv)) cv').
Proof using Hrefl Htrans Hown Hjoint.
  rewrite draw_generic_unfold. unfold Py.getitem.
  destruct (x !! p) as [x_here|]; [|done].
  destruct (y !! p) as [y_here|]; [|done].
  cbn [mbind result_bind Py.bind]. intros Hrun. exists x_here, y_here.
  split; [done|]. split; [done|].
  destruct (is_terminal c).
  - injection Hrun as <-. split; [done|]. done.
  - destruct (y !! (p ++ [0])) as [y_top|]; [|done].
    destruct (y !! (p ++ [_])) as [y_bot|]; [|done].
    cbn [mbind result_bind Py.bind] in Hrun.
    assert (R (joint x_here y_bot y_top (own_color c color) (own_lw E c lw)
                 (own c p x_start x_here y_here (own_color c color)
                    (own_lw E c lw) cv)) cv') as Hrest.
    { refine (for_enumerate_rel R _ (clades c) Hrefl Htrans _ _ _ _ Hrun).
      intros j s _ i cv1 cv2. apply draw_generic_step. }
    split.
    + etransitivity; [apply Hjoint|exact Hrest].
    + intros _. by exists y_top, y_bot.
Qed.

(** The call on the root of a subtree leads to one call on each clade
    below it, with the colour [incoming_color] computes. *)
Lemma draw_generic_subcall (q : path) :
  forall c p x_start color lw cv cv' d,
    draw_generic E own joint x y c p x_start color lw cv = Ok cv' ->
    clade_at c q = Some d ->
    exists x_start' lw' cv1 cv2,
      draw_generic E own joint x y d (p ++ q) x_start'
        (incoming_color c q color) lw' cv1 = Ok cv2 /\
      R cv cv1 /\ R cv2 cv'.
Proof using Hrefl Htrans Hown Hjoint.
  induction q as [|i q IH]; intros c p x_start color lw cv cv' d Hrun Hq.
  - simpl in Hq. simplify_eq. exists x_start, lw, cv, cv'.
    rewrite app_nil_r. done.
  - apply clade_at_cons in Hq as (s & Hi & Hq). simpl. rewrite Hi.
    rewrite draw_generic_unfold in Hrun.
    destruct (Py.getitem x p) as [x_here|]; [|done].
    destruct (Py.getitem y p) as [y_here|]; [|done].
    cbn [mbind result_bind Py.bind] in Hrun.
    destruct (is_terminal c) eqn:Hc.
    { apply is_terminal_true in Hc. by rewrite Hc in Hi. }
    destruct (Py.getitem y (p ++ [0])) as [y_top|]; [|done].
    destruct (Py.getitem y (p ++ [_])) as [y_bot|]; [|done].
    cbn [mbind result_bind Py.bind] in Hrun.
    destruct (for_enumerate_at R _ (clades c) Hrefl Htrans
                (fun j s _ i cv1 cv2 => draw_generic_step s _ _ _ _ cv1 cv2)
                0 _ cv' i s Hrun Hi) as (cv1 & cv2 & Hcall & H1 & H2).
    simpl in Hcall.
    destruct (IH s (p ++ [i]) _ _ _ cv1 cv2 d Hcall Hq)
      as (xs' & lw' & cv3 & cv4 & Hsub & H3 & H4).
    exists xs', lw', cv3, cv4. rewrite <- app_assoc in Hsub.
    split; [exact Hsub|]. split.
    + transitivity cv1; [|done].
      etransitivity; [apply Hown|]. etransitivity; [apply Hjoint|exact H1].
    + by transitivity cv2.
Qed.
End calls.
End generic_drawing.

Section relation_at.
Context (E : env)
        (own : Clade -> path -> Q -> Q -> Q -> string -> Q -> canvas -> canvas)
        (joint : Q -> Q -> Q -> string -> Q -> canvas -> canvas)
        (x y : gmap path Q)
        (R : canvas -> canvas -> Prop) (P : path -> Clade -> Prop)
        (Hrefl : Reflexive R) (Htrans : Transitive R)
        (Hown : forall d k xs xh yh col lw cv,
                  P k d -> x !! k = Some xh -> y !! k = Some yh ->
                  R cv (own d k xs xh yh col lw cv))
        (Hjoint : forall xh yb yt col lw cv,
                    R cv (joint xh yb yt col lw cv)).

(** As [draw_generic_rel], for a step that needs to know which clade it
    draws and where the layout puts it. *)
Lemma draw_generic_rel_at (c : Clade) :
  forall p x_start color lw cv cv',
    (forall q d, clade_at c q = Some d -> P (p ++ q) d) ->
    draw_generic E own joint x y c p x_start color lw cv = Ok cv' ->
    R cv cv'.
Proof using Hrefl Htrans Hown Hjoint.
  induction c as [c IH] using clade_ind_children.
  intros p x_start color lw cv cv' HP. rewrite draw_generic_unfold.
  unfold Py.getitem.
  destruct (x !! p) as [x_here|] eqn:Hx; [|done].
  destruct (y !! p) as [y_here|] eqn:Hy; [|done].
  cbn [mbind result_bind Py.bind].
  assert (P p c) as Hc.
  { specialize (HP [] c eq_refl). by rewrite app_nil_r in HP. }
  destruct (is_terminal c); [intros [= <-]; by apply Hown|].
  destruct (y !! (p ++ [0])) as [y_top|]; [|done].
  destruct (y !! (p ++ [_])) as [y_bot|]; [|done].
  cbn [mbind result_bind Py.bind]. intros Hloop.
  transitivity (own c p x_start x_here y_here (own_color c color)
                  (own_lw E c lw) cv); [by apply Hown|].
  etransitivity; [by apply Hjoint|].
  refine (for_enumerate_rel_ix R _ (clades c) Hrefl Htrans 0 _ _ _ Hloop).
  intros j s Hj cv1 cv2. rewrite Forall_lookup in IH. simpl.
  apply (IH j s Hj). intros q d Hq. rewrite <- app_assoc. simpl.
  apply HP. apply clade_at_cons. eauto.
Qed.
End relation_at.

(** ** No lookup of [draw_clade] fails *)

Lemma rect_get_x_positions_total (t : Tree) :
  exists x, Trees.get_x_positions t = Ok x /\
    forall q, is_Some (clade_at (root t) q) -> is_Some (x !! q).
Proof.
  destruct (rect_get_x_positions_cases t) as (m & _ & _ & Hrun).
  eexists. split; [exact Hrun|]. intros q Hq.
  destruct (Qeq_bool m 0); rewrite depths_lookup; by apply depth_along_valid.
Qed.

Lemma polar_get_x_positions_total (t : Tree) :
  exists x, CircTrees.get_x_positions t true =
              Ok (x, max_list (length <$> get_terminals t)) /\
    forall q, is_Some (clade_at (root t) q) -> is_Some (x !! q).
Proof.
  destruct (polar_get_x_positions_lookup t) as (x & Hrun & Hx).
  exists x. split; [done|]. intros q [d Hq].
  destruct (Hx q d Hq) as (a & _ & Ha). eauto.
Qed.

Lemma rect_layout_and_draw (E : env) (a : args)
    (fl : Clade -> path -> option string) (t : Tree) (x_start : Q)
    (color : string) (lw : Q) (cv : canvas) :
  exists x y cv',
    Trees.get_x_positions t = Ok x /\
    Trees.get_y_positions t = Ok y /\
    (forall q, is_Some (clade_at (root t) q) ->
       is_Some (x !! q) /\ is_Some (y !! q)) /\
    Trees.draw_clade E a x y fl (root t) [] x_start color lw cv = Ok cv'.
Proof.
  destruct (rect_get_x_positions_total t) as (x & Hx & Hxdom).
  destruct (rect_get_y_positions_layout t) as (y & Hy & _ & _ & Hydom).
  destruct (draw_generic_total E (rect_own a fl) rect_joint x y (root t) []
              x_start color lw cv) as [cv' Hrun]; [by auto|].
  exists x, y, cv'. rewrite rect_draw_clade_generic.
  split; [done|]. split; [done|]. split; [auto|done].
Qed.

Lemma polar_layout_and_draw (E : env)
    (fl : Clade -> path -> option string) (t : Tree) (x_start : Q)
    (color : string) (lw : Q) (cv : canvas) :
  exists x y cv',
    CircTrees.get_x_positions t true =
      Ok (x, max_list (length <$> get_terminals t)) /\
    CircTrees.get_y_positions t = Ok y /\
    (forall q, is_Some (clade_at (root t) q) ->
       is_Some (x !! q) /\ is_Some (y !! q)) /\
    CircTrees.draw_clade E x y fl (root t) [] x_start color lw cv = Ok cv'.
Proof.
  destruct (polar_get_x_positions_total t) as (x & Hx & Hxdom).
  destruct (polar_get_y_positions_layout t) as (y & Hy & _ & _ & Hydom).
  destruct (draw_generic_total E (polar_own fl) polar_joint x y (root t) []
              x_start color lw cv) as [cv' Hrun]; [by auto|].
  exists x, y, cv'. rewrite polar_draw_clade_generic.
  split; [done|]. split; [done|]. split; [auto|done].
Qed.

(** C9.  Both mappings are defined on every clade of the tree, and the call
    of [draw_clade] on the root returns without raising, whatever the
    starting position, colour, width and canvas are; this holds for the
    rectangular and for the polar script. *)
Theorem draw_clade_lookups_never_fail (E : env) (a : args)
    (fl : Clade -> path -> option string) (t : Tree) (x_start : Q)
    (color : string) (lw : Q) (cv : canvas) :
  (exists x y cv',
     Trees.get_x_positions t = Ok x /\
     Trees.get_y_positions t = Ok y /\
     (forall q, is_Some (clade_at (root t) q) ->
        is_Some (x !! q) /\ is_Some (y !! q)) /\
     Trees.draw_clade E a x y fl (root t) [] x_start color lw cv = Ok cv') /\
  (exists x treeDepth y cv',
     CircTrees.get_x_positions t true = Ok (x, treeDepth) /\
     CircTrees.get_y_positions t = Ok y /\
     (forall q, is_Some (clade_at (root t) q) ->
        is_Some (x !! q) /\ is_Some (y !! q)) /\
     CircTrees.draw_clade E x y fl (root t) [] x_start color lw cv = Ok cv').
Proof.
  split.
  - apply rect_layout_and_draw.
  - destruct (polar_layout_and_draw E fl t x_start color lw cv)
      as (x & y & cv' & H).
    by exists x, (max_list (length <$> get_terminals t)), y, cv'.
Qed.




(** ** What the drawing steps add to the canvas *)

Lemma extends_with_refl (Pe : event -> Prop) (Ps : segment -> Prop) :
  Reflexive (extends_with Pe Ps).
Proof. intros cv. exists [], [], []. by rewrite !app_nil_r. Qed.

Lemma extends_with_trans (Pe : event -> Prop) (Ps : segment -> Prop) :
  Transitive (extends_with Pe Ps).
Proof.
  intros cv1 cv2 cv3 (es & hs & vs & He & Hh & Hv & Fe & Fh & Fv)
    (es' & hs' & vs' & He' & Hh' & Hv' & Fe' & Fh' & Fv').
  exists (es ++ es'), (hs ++ hs'), (vs ++ vs').
  rewrite He', Hh', Hv', He, Hh, Hv, <- !app_assoc.
  split_and!; try done; by apply Forall_app.
Qed.

Lemma extends_with_emit (Pe : event -> Prop) (Ps : segment -> Prop)
    (e : event) (cv : canvas) :
  Pe e -> extends_with Pe Ps cv (emit e cv).
Proof.
  intros He. exists [e], [], []. simpl. rewrite !app_nil_r.
  split_and!; try done. by apply Forall_singleton.
Qed.

Lemma extends_with_weaken (Pe Pe' : event -> Prop) (Ps Ps' : segment -> Prop)
    (cv cv' : canvas) :
  (forall e, Pe e -> Pe' e) -> (forall s, Ps s -> Ps' s) ->
  extends_with Pe Ps cv cv' -> extends_with Pe' Ps' cv cv'.
Proof.
  intros He Hs (es & hs & vs & H1 & H2 & H3 & Fe & Fh & Fv).
  exists es, hs, vs. split_and!; try done; by eapply Forall_impl.
Qed.

Lemma rect_lines_extends (Pe : event -> Prop) (Ps : segment -> Prop)
    (orientation : string) y_here x_start x_here y_bot y_top color lw cv :
  (forall x0 y0 x1 y1, Ps (mkSegment x0 y0 x1 y1 color lw)) ->
  extends_with Pe Ps cv
    (Trees.draw_clade_lines true orientation y_here x_start x_here y_bot y_top
       color lw cv).
Proof.
  intros Hs. unfold Trees.draw_clade_lines. simpl.
  destruct (String.eqb orientation "horizontal").
  - exists [], [mkSegment x_start y_here x_here y_here color lw], []. simpl.
    rewrite !app_nil_r. split_and!; try done. by apply Forall_singleton.
  - destruct (String.eqb orientation "vertical").
    + exists [], [], [mkSegment x_here y_bot x_here y_top color lw]. simpl.
      rewrite !app_nil_r. split_and!; try done. by apply Forall_singleton.
    + apply extends_with_refl.
Qed.

Lemma polar_lines_extends (Pe : event -> Prop) (Ps : segment -> Prop)
    (orientation : string) y_here x_start x_here y_bot y_top color lw n cv :
  (forall xs ys, Pe (plot xs ys color lw)) ->
  extends_with Pe Ps cv
    (CircTrees.draw_clade_lines orientation y_here x_start x_here y_bot y_top
       color lw n cv).
Proof.
  intros Hp. unfold CircTrees.draw_clade_lines.
  destruct (String.eqb orientation "horizontal").
  - destruct (Qeq_bool _ _); by apply extends_with_emit.
  - destruct (String.eqb orientation "vertical").
    + by apply extends_with_emit.
    + apply extends_with_refl.
Qed.

Lemma draw_label_extends (Pe : event -> Prop) (Ps : segment -> Prop)
    (a : args) (clade : Clade) (x_here y_here : Q) (cv : canvas) :
  (forall label, Pe (taxon_label a x_here y_here label)) ->
  extends_with Pe Ps cv (Trees.draw_label a clade x_here y_here cv).
Proof.
  intros Hl. unfold Trees.draw_label.
  destruct (label_func a clade) as [label|]; [|apply extends_with_refl].
  case_bool_decide; [apply extends_with_refl|].
  specialize (Hl label). unfold taxon_label in Hl.
  case_bool_decide; by apply extends_with_emit.
Qed.

Lemma draw_conf_label_extends (Pe : event -> Prop) (Ps : segment -> Prop)
    (fl : Clade -> path -> option string) clade p x_start x_here y_here cv :
  (forall x y s, Pe (text x y s branch_kw)) ->
  extends_with Pe Ps cv (Trees.draw_conf_label fl clade p x_start x_here y_here cv).
Proof.
  intros Hb. unfold Trees.draw_conf_label.
  destruct (fl clade p) as [conf_label|]; [|apply extends_with_refl].
  case_bool_decide; [apply extends_with_refl|]. by apply extends_with_emit.
Qed.

(** ** The body of [drawMark] *)

Lemma process_kwarg_call (E : env) (key : string) (value : Py.value)
    (e : event) :
  Trees.process_kwarg E key value = Ok e -> exists args kw, e = call key args kw.
Proof.
  unfold Trees.process_kwarg, Trees.getattr_plt, Trees.call_plt, mbind,
    result_bind, Py.bind. intros H.
  repeat match type of H with
         | context [match ?x with _ => _ end] => destruct x; try done
         end;
    injection H as <-; eauto.
Qed.

Lemma process_kwargs_spec (E : env) (kws : list (string * Py.value)) :
  forall i evs evs',
    Py.for_enumerate
      (fun _ kv evs => e ← Trees.process_kwarg E kv.1 kv.2; Ok (evs ++ [e]))
      kws i evs = Ok evs' ->
    exists calls, evs' = evs ++ calls /\ Forall is_setup calls.
Proof.
  induction kws as [|[k v] kws IH]; intros i evs evs'; simpl.
  - intros [= <-]. exists []. by rewrite app_nil_r.
  - destruct (Trees.process_kwarg E k v) as [e|] eqn:He; simpl; [|done].
    intros (calls & -> & Hcalls)%IH. exists (e :: calls).
    rewrite <- app_assoc. split; [done|]. constructor; [|done].
    by apply process_kwarg_call in He as (args & kw & ->).
Qed.

Lemma process_kwargs_valid (E : env) (kws : list (string * Py.value)) :
  Forall (fun kv => exists e, Trees.process_kwarg E kv.1 kv.2 = Ok e) kws ->
  forall evs, exists evs', Trees.process_kwargs E kws evs = Ok evs'.
Proof.
  unfold Trees.process_kwargs. intros Hall.
  assert (forall i evs, exists evs',
            Py.for_enumerate
              (fun _ kv evs => e ← Trees.process_kwarg E kv.1 kv.2; Ok (evs ++ [e]))
              kws i evs = Ok evs') as Hgen; [|by apply Hgen].
  induction Hall as [|[k v] kws [e He] _ IH]; intros i evs; simpl;
    [by eexists|].
  simpl in He. rewrite He. simpl. apply IH.
Qed.

Lemma valid_call_import_rect (E : env) (a : args) :
  valid_call E a -> Trees.import_plt E = Ok ().
Proof.
  intros [Himp _]. unfold Trees.import_plt.
  destruct (pyplot_importable E); [done|]. by destruct Himp as [?| ->].
Qed.

Lemma valid_call_format (E : env) (a : args) :
  valid_call E a -> exists fl, Trees.format_branch_label E a = Ok fl.
Proof.
  intros (_ & Hbl & _). unfold Trees.format_branch_label.
  destruct (branch_labels a); try destruct (show_confidence a); by eauto.
Qed.

Lemma rect_make_axes_valid (a : args) :
  axes a = AxesNone \/ axes a = AxesObject ->
  exists ax, Trees.make_axes a = Ok ax /\ Forall is_setup ax.
Proof.
  unfold Trees.make_axes. intros [-> | ->].
  - eexists. split; [done|]. by repeat constructor.
  - eexists. split; [done|]. constructor.
Qed.

Lemma polar_make_axes_valid (a : args) :
  axes a = AxesNone \/ axes a = AxesObject ->
  exists ax, CircTrees.make_axes a = Ok ax /\ Forall is_setup ax.
Proof.
  unfold CircTrees.make_axes. intros [-> | ->].
  - eexists. split; [done|]. by repeat constructor.
  - eexists. split; [done|]. constructor.
Qed.

(** The checks [make_axes] makes are the same in both scripts. *)
Lemma make_axes_ok (a : args) (ax : list event) :
  Trees.make_axes a = Ok ax \/ CircTrees.make_axes a = Ok ax ->
  axes a = AxesNone \/ axes a = AxesObject.
Proof.
  unfold Trees.make_axes, CircTrees.make_axes, Trees.invalid_axes.
  intros [H | H]; destruct (axes a) as [| |shown|[|item [|item' items]]];
    try done; auto.
Qed.

Lemma aesthetics_ok (t : Tree) (x y : gmap path Q) (aes : list event) :
  Trees.aesthetics t x y = Ok aes ->
  exists xmax ymax,
    Py.max (map_to_list x).*2 = Ok xmax /\
    Py.max (map_to_list y).*2 = Ok ymax /\
    Py.isfinite (-0.05 * xmax) = true /\
    Py.isfinite (1.25 * xmax) = true /\
    Py.isfinite (ymax + 0.8) = true /\
    aes = match tree_name t with
          | Some n => if bool_decide (n = "") then [] else [set_title n]
          | None => []
          end ++ [set_xlabel "branch length"; set_ylabel "taxa";
                  set_xlim (-0.05 * xmax) (1.25 * xmax);
                  set_ylim (ymax + 0.8) 0.2].
Proof.
  unfold Trees.aesthetics, Trees.check_limits. intros H.
  destruct (Py.max (map_to_list x).*2) as [xmax|]; [|done].
  cbn [mbind result_bind Py.bind] in H.
  destruct (Py.isfinite (-0.05 * xmax)) eqn:H1; [|done].
  destruct (Py.isfinite (1.25 * xmax)) eqn:H2; [|done].
  cbn [andb mbind result_bind Py.bind] in H.
  destruct (Py.max (map_to_list y).*2) as [ymax|]; [|done].
  cbn [mbind result_bind Py.bind] in H.
  destruct (Py.isfinite (ymax + 0.8)) eqn:H3; [|done].
  cbn [andb mbind result_bind Py.bind] in H. injection H as <-.
  by exists xmax, ymax.
Qed.

Lemma aesthetics_valid (t : Tree) (x y : gmap path Q) (aes : list event) :
  Trees.aesthetics t x y = Ok aes -> Forall is_setup aes.
Proof.
  intros (xmax & ymax & _ & _ & _ & _ & _ & ->)%aesthetics_ok.
  apply Forall_app. split.
  - destruct (tree_name t) as [n|]; [case_bool_decide|];
      by repeat constructor.
  - by repeat constructor.
Qed.

Lemma rect_drawMark_runs (E : env) (a : args) (t : Tree) :
  valid_call E a ->
  finite_limits t ->
  exists fl x y ax cv aes calls,
    Trees.format_branch_label E a = Ok fl /\
    Trees.get_x_positions t = Ok x /\
    Trees.get_y_positions t = Ok y /\
    Trees.draw_clade E a x y fl (root t) [] 0 "k" (rc_linewidth E)
      (mkCanvas ax [] []) = Ok cv /\
    Forall is_setup ax /\
    Forall is_setup aes /\
    Forall is_setup calls /\
    Trees.drawMark E a t =
      Ok (events cv
          ++ (add_collection <$> horizontal_linecollections cv)
          ++ (add_collection <$> vertical_linecollections cv)
          ++ aes ++ calls ++ (if do_show a then [show] else [])).
Proof.
  intros Hvalid (x' & y' & aes & Hx' & Hy' & Haes).
  destruct (valid_call_format E a Hvalid) as [fl Hfl].
  destruct Hvalid as (Himp & Hbl & Hax & Hkw).
  destruct (rect_make_axes_valid a Hax) as (ax & Hmk & Hplain).
  destruct (rect_layout_and_draw E a fl t 0 "k" (rc_linewidth E)
              (mkCanvas ax [] [])) as (x & y & cv & Hx & Hy & Hdom & Hrun).
  rewrite Hx in Hx'. injection Hx' as <-.
  rewrite Hy in Hy'. injection Hy' as <-.
  pose proof (aesthetics_valid t x y aes Haes) as Hplain'.
  destruct (process_kwargs_valid E (kwargs a) Hkw
              ((events cv
                ++ (add_collection <$> horizontal_linecollections cv)
                ++ (add_collection <$> vertical_linecollections cv)) ++ aes))
    as [evs Hevs].
  pose proof Hevs as Hcalls.
  apply process_kwargs_spec in Hcalls as (calls & -> & Hplain'').
  exists fl, x, y, ax, cv, aes, calls. split_and!; try done.
  unfold Trees.drawMark.
  rewrite (valid_call_import_rect E a (conj Himp (conj Hbl (conj Hax Hkw)))).
  cbn [mbind result_bind Py.bind]. rewrite Hfl, Hx, Hy, Hmk.
  cbn [mbind result_bind Py.bind]. rewrite Hrun.
  cbn [mbind result_bind Py.bind]. rewrite Haes.
  cbn [mbind result_bind Py.bind]. rewrite Hevs.
  cbn [mbind result_bind Py.bind].
  destruct (do_show a); rewrite <- ?app_assoc; by rewrite ?app_nil_r.
Qed.

Lemma polar_drawMark_runs (E : env) (a : args) (t : Tree) :
  valid_call E a ->
  exists fl x y ax cv calls,
    Trees.format_branch_label E a = Ok fl /\
    CircTrees.get_x_positions t true =
      Ok (x, max_list (length <$> get_terminals t)) /\
    CircTrees.get_y_positions t = Ok y /\
    CircTrees.draw_clade E x y fl (root t) [] 0 "k" (rc_linewidth E)
      (mkCanvas ax [] []) = Ok cv /\
    Forall is_setup ax /\
    Forall is_setup calls /\
    CircTrees.drawMark E a t =
      Ok (events cv
          ++ (add_collection <$> horizontal_linecollections cv)
          ++ (add_collection <$> vertical_linecollections cv)
          ++ [set_rmax (inject_Z (Z.of_nat (max_list (length <$> get_terminals t))
                                  + 1))]
          ++ calls ++ (if do_show a then [show] else [])).
Proof.
  intros Hvalid.
  destruct (valid_call_format E a Hvalid) as [fl Hfl].
  destruct Hvalid as (Himp & Hbl & Hax & Hkw).
  destruct (polar_make_axes_valid a Hax) as (ax & Hmk & Hplain).
  destruct (polar_layout_and_draw E fl t 0 "k" (rc_linewidth E)
              (mkCanvas ax [] [])) as (x & y & cv & Hx & Hy & Hdom & Hrun).
  destruct (process_kwargs_valid E (kwargs a) Hkw
              (events cv
               ++ (add_collection <$> horizontal_linecollections cv)
               ++ (add_collection <$> vertical_linecollections cv)
               ++ [set_rmax (inject_Z
                     (Z.of_nat (max_list (length <$> get_terminals t)) + 1))]))
    as [evs Hevs].
  pose proof Hevs as Hcalls.
  apply process_kwargs_spec in Hcalls as (calls & -> & Hplain'').
  exists fl, x, y, ax, cv, calls. split_and!; try done.
  unfold CircTrees.drawMark, CircTrees.import_plt, CircTrees.format_branch_label.
  pose proof (valid_call_import_rect E a (conj Himp (conj Hbl (conj Hax Hkw))))
    as Himport.
  unfold Trees.import_plt in Himport. unfold CircTrees.module_globals.
  unfold Trees.module_globals in Himport.
  destruct (pyplot_importable E), (pylab_importable E);
    try (by destruct Himp);
    cbn [mbind result_bind Py.bind]; rewrite Hfl, Hx;
    cbn [mbind result_bind Py.bind]; rewrite Hy, Hmk;
    cbn [mbind result_bind Py.bind]; rewrite Hrun;
    cbn [mbind result_bind Py.bind]; rewrite Hevs;
    cbn [mbind result_bind Py.bind];
    destruct (do_show a); rewrite <- ?app_assoc; by rewrite ?app_nil_r.
Qed.

(** ** A run of [drawMark] that returns *)

Lemma process_kwargs_inv (E : env) (kws : list (string * Py.value)) :
  forall i evs evs',
    Py.for_enumerate
      (fun _ kv evs => e ← Trees.process_kwarg E kv.1 kv.2; Ok (evs ++ [e]))
      kws i evs = Ok evs' ->
    exists calls, evs' = evs ++ calls /\ dispatched E kws calls.
Proof.
  induction kws as [|[k v] kws IH]; intros i evs evs'; simpl.
  - intros [= <-]. exists []. split; [by rewrite app_nil_r|constructor].
  - destruct (Trees.process_kwarg E k v) as [e|] eqn:He; simpl; [|done].
    intros (calls & -> & Hcalls)%IH. exists (e :: calls).
    rewrite <- app_assoc. split; [done|]. by constructor.
Qed.

Lemma dispatched_setup (E : env) (kws : list (string * Py.value))
    (calls : list event) :
  dispatched E kws calls -> Forall is_setup calls.
Proof.
  induction 1 as [|kv e kws calls He _ IH]; constructor; [|done].
  by apply process_kwarg_call in He as (args & kw & ->).
Qed.

Lemma dispatched_valid (E : env) (kws : list (string * Py.value))
    (calls : list event) :
  dispatched E kws calls ->
  Forall (fun kv => exists e, Trees.process_kwarg E kv.1 kv.2 = Ok e) kws.
Proof. induction 1; constructor; eauto. Qed.

(** Every stage of a run of the rectangular [drawMark] that returns. *)
Lemma rect_drawMark_inv (E : env) (a : args) (t : Tree) (evs : list event) :
  Trees.drawMark E a t = Ok evs ->
  exists fl x y ax cv aes calls,
    Trees.import_plt E = Ok () /\
    Trees.format_branch_label E a = Ok fl /\
    Trees.get_x_positions t = Ok x /\
    Trees.get_y_positions t = Ok y /\
    Trees.make_axes a = Ok ax /\
    Trees.draw_clade E a x y fl (root t) [] 0 "k" (rc_linewidth E)
      (mkCanvas ax [] []) = Ok cv /\
    Trees.aesthetics t x y = Ok aes /\
    dispatched E (kwargs a) calls /\
    evs = (events cv
           ++ (add_collection <$> horizontal_linecollections cv)
           ++ (add_collection <$> vertical_linecollections cv)
           ++ aes) ++ calls ++ (if do_show a then [show] else []).
Proof.
  unfold Trees.drawMark, Trees.process_kwargs. intros H.
  destruct (Trees.import_plt E) as [[]|]; [|done].
  destruct (Trees.format_branch_label E a) as [fl|]; [|done].
  destruct (Trees.get_x_positions t) as [x|]; [|done].
  destruct (Trees.get_y_positions t) as [y|]; [|done].
  destruct (Trees.make_axes a) as [ax|]; [|done].
  cbn [mbind result_bind Py.bind] in H.
  destruct (Trees.draw_clade _ _ _ _ _ _ _ _ _ _ _) as [cv|] eqn:Hcv; [|done].
  cbn [mbind result_bind Py.bind] in H.
  destruct (Trees.aesthetics t x y) as [aes|] eqn:Haes; [|done].
  cbn [mbind result_bind Py.bind] in H.
  destruct (Py.for_enumerate _ _ _ _) as [evs'|] eqn:Hkw; [|done].
  cbn [mbind result_bind Py.bind] in H. injection H as <-.
  apply process_kwargs_inv in Hkw as (calls & -> & Hcalls).
  exists fl, x, y, ax, cv, aes, calls. split_and!; try done.
  destruct (do_show a); rewrite <- ?app_assoc; by rewrite ?app_nil_r.
Qed.

Lemma polar_drawMark_inv (E : env) (a : args) (t : Tree) (evs : list event) :
  CircTrees.drawMark E a t = Ok evs ->
  exists fl x treeDepth y ax cv calls,
    CircTrees.import_plt E = Ok () /\
    Trees.format_branch_label E a = Ok fl /\
    CircTrees.get_x_positions t true = Ok (x, treeDepth) /\
    CircTrees.get_y_positions t = Ok y /\
    CircTrees.make_axes a = Ok ax /\
    CircTrees.draw_clade E x y fl (root t) [] 0 "k" (rc_linewidth E)
      (mkCanvas ax [] []) = Ok cv /\
    dispatched E (kwargs a) calls /\
    evs = (events cv
           ++ (add_collection <$> horizontal_linecollections cv)
           ++ (add_collection <$> vertical_linecollections cv)
           ++ [set_rmax (inject_Z (Z.of_nat treeDepth + 1))])
          ++ calls ++ (if do_show a then [show] else []).
Proof.
  unfold CircTrees.drawMark, CircTrees.format_branch_label,
    Trees.process_kwargs. intros H.
  destruct (CircTrees.import_plt E) as [[]|]; [|done].
  destruct (Trees.format_branch_label E a) as [fl|]; [|done].
  destruct (CircTrees.get_x_positions t true) as [[x treeDepth]|]; [|done].
  destruct (CircTrees.get_y_positions t) as [y|]; [|done].
  destruct (CircTrees.make_axes a) as [ax|]; [|done].
  cbn [mbind result_bind Py.bind] in H.
  destruct (CircTrees.draw_clade _ _ _ _ _ _ _ _ _ _) as [cv|] eqn:Hcv; [|done].
  cbn [mbind result_bind Py.bind] in H.
  destruct (Py.for_enumerate _ _ _ _) as [evs'|] eqn:Hkw; [|done].
  cbn [mbind result_bind Py.bind] in H. injection H as <-.
  apply process_kwargs_inv in Hkw as (calls & -> & Hcalls).
  exists fl, x, treeDepth, y, ax, cv, calls. split_and!; try done.
  destruct (do_show a); rewrite <- ?app_assoc; by rewrite ?app_nil_r.
Qed.

Lemma import_plt_ok (E : env) :
  Trees.import_plt E = Ok () \/ CircTrees.import_plt E = Ok () ->
  pyplot_importable E = true \/ pylab_importable E = true.
Proof.
  unfold Trees.import_plt, CircTrees.import_plt.
  destruct (pyplot_importable E); [by left|].
  destruct (pylab_importable E); [by right|]. by intros [|].
Qed.

Lemma format_branch_label_ok (E : env) (a : args)
    (fl : Clade -> path -> option string) :
  Trees.format_branch_label E a = Ok fl -> branch_labels a <> BranchLabelsOther.
Proof.
  unfold Trees.format_branch_label. intros H Hbl. by rewrite Hbl in H.
Qed.

(** A run that returns was a call that passes the argument checks, and
    in the rectangular script one with finite limits. *)
Lemma drawMark_ok_valid (E : env) (a : args) (t : Tree) (evs : list event) :
  Trees.drawMark E a t = Ok evs \/ CircTrees.drawMark E a t = Ok evs ->
  valid_call E a.
Proof.
  intros [H | H].
  - apply rect_drawMark_inv in H
      as (fl & x & y & ax & cv & aes & calls & Himp & Hfl & _ & _ & Hax & _ & _
          & Hcalls & _).
    split; [apply import_plt_ok; by left|].
    split; [by eapply format_branch_label_ok|].
    split; [eapply make_axes_ok; by left|]. by eapply dispatched_valid.
  - apply polar_drawMark_inv in H
      as (fl & x & td & y & ax & cv & calls & Himp & Hfl & _ & _ & Hax & _
          & Hcalls & _).
    split; [apply import_plt_ok; by right|].
    split; [by eapply format_branch_label_ok|].
    split; [eapply make_axes_ok; by right|]. by eapply dispatched_valid.
Qed.

Lemma drawMark_ok_finite_limits (E : env) (a : args) (t : Tree)
    (evs : list event) :
  Trees.drawMark E a t = Ok evs -> finite_limits t.
Proof.
  intros (fl & x & y & ax & cv & aes & calls & _ & _ & Hx & Hy & _ & _ & Haes
          & _)%rect_drawMark_inv.
  by exists x, y, aes.
Qed.

(** ** Taxon labels *)

Lemma extends_with_events_elem (Pe : event -> Prop) (Ps : segment -> Prop)
    (cv cv' : canvas) (e : event) :
  extends_with Pe Ps cv cv' -> e ∈ events cv -> e ∈ events cv'.
Proof.
  intros (es & hs & vs & -> & _) Hin. apply elem_of_app. by left.
Qed.

Lemma setup_no_taxon_label (e : event) : is_setup e -> no_taxon_label e.
Proof. destruct e; simpl; tauto. Qed.

Lemma rect_own_text_rule (a : args) (fl : Clade -> path -> option string)
    d k xs xh yh col lw cv :
  extends_with (text_rule a) (fun _ => True) cv (rect_own a fl d k xs xh yh col lw cv).
Proof.
  unfold rect_own.
  eapply extends_with_trans; [by apply rect_lines_extends|].
  eapply extends_with_trans.
  - apply draw_label_extends. intros label. simpl. left. by exists label.
  - apply draw_conf_label_extends. intros x y s. simpl. by right.
Qed.

Lemma polar_own_no_taxon_label (fl : Clade -> path -> option string)
    d k xs xh yh col lw cv :
  extends_with no_taxon_label (fun _ => True) cv (polar_own fl d k xs xh yh col lw cv).
Proof.
  unfold polar_own.
  eapply extends_with_trans; [by apply polar_lines_extends|].
  by apply draw_conf_label_extends.
Qed.

Lemma rect_own_draws_label (a : args) (fl : Clade -> path -> option string)
    d k xs xh yh col lw cv label :
  label_func a d = Some label -> label <> "Clade" ->
  taxon_label a xh yh label ∈ events (rect_own a fl d k xs xh yh col lw cv).
Proof.
  intros Hl Hne. unfold rect_own.
  eapply (extends_with_events_elem (fun _ => True) (fun _ => True)).
  { by apply draw_conf_label_extends. }
  unfold Trees.draw_label, taxon_label. rewrite Hl.
  rewrite (bool_decide_eq_false_2 (label = "Clade")) by done.
  case_bool_decide; simpl; apply elem_of_app; right; by left.
Qed.

Lemma rect_draw_clade_labels (E : env) (a : args) (x y : gmap path Q)
    (fl : Clade -> path -> option string) (c : Clade) x_start color lw cv cv' :
  Trees.draw_clade E a x y fl c [] x_start color lw cv = Ok cv' ->
  extends_with (text_rule a) (fun _ => True) cv cv' /\
  forall q d label,
    clade_at c q = Some d -> label_func a d = Some label -> label <> "Clade" ->
    exists xq yq, x !! q = Some xq /\ y !! q = Some yq /\
                  taxon_label a xq yq label ∈ events cv'.
Proof.
  rewrite rect_draw_clade_generic. intros Hrun. split.
  - refine (draw_generic_rel E _ _ x y _ (fun _ => True)
              (extends_with_refl _ _) (extends_with_trans _ _) _ _
              c [] x_start color lw cv cv' I _ Hrun); [| |done].
    + intros. apply rect_own_text_rule.
    + intros. by apply rect_lines_extends.
  - intros q d label Hq Hl Hne.
    destruct (draw_generic_subcall E (rect_own a fl) rect_joint x y extends
                (extends_with_refl _ _) (extends_with_trans _ _)) with
      (q := q) (c := c) (p := @nil nat) (x_start := x_start) (color := color)
      (lw := lw) (cv := cv) (cv' := cv') (d := d)
      as (xs' & lw' & cv1 & cv2 & Hcall & _ & H2); try done.
    { intros. eapply extends_with_weaken; [| |apply rect_own_text_rule]; done. }
    { intros. by apply rect_lines_extends. }
    destruct (draw_generic_own E (rect_own a fl) rect_joint x y extends
                (extends_with_refl _ _) (extends_with_trans _ _)) with
      (c := d) (p := q) (x_start := xs') (color := incoming_color c q color)
      (lw := lw') (cv := cv1) (cv' := cv2)
      as (xq & yq & Hx & Hy & Hown & _); try done.
    { intros. eapply extends_with_weaken; [| |apply rect_own_text_rule]; done. }
    { intros. by apply rect_lines_extends. }
    exists xq, yq. split; [done|]. split; [done|].
    eapply extends_with_events_elem; [exact H2|].
    eapply extends_with_events_elem; [exact Hown|].
    by apply rect_own_draws_label.
Qed.

Lemma polar_draw_clade_no_labels (E : env) (x y : gmap path Q)
    (fl : Clade -> path -> option string) (c : Clade) p x_start color lw cv cv' :
  CircTrees.draw_clade E x y fl c p x_start color lw cv = Ok cv' ->
  extends_with no_taxon_label (fun _ => True) cv cv'.
Proof.
  rewrite polar_draw_clade_generic. intros Hrun.
  refine (draw_generic_rel E _ _ x y _ (fun _ => True)
            (extends_with_refl _ _) (extends_with_trans _ _) _ _
            c p x_start color lw cv cv' I _ Hrun); [| |done].
  - intros. apply polar_own_no_taxon_label.
  - intros. by apply polar_lines_extends.
Qed.

Lemma draw_label_extends_at (Pe : event -> Prop) (Ps : segment -> Prop)
    (a : args) (clade : Clade) (x_here y_here : Q) (cv : canvas) :
  (forall label, label_func a clade = Some label -> label <> "Clade" ->
     Pe (taxon_label a x_here y_here label)) ->
  extends_with Pe Ps cv (Trees.draw_label a clade x_here y_here cv).
Proof.
  intros Hl. unfold Trees.draw_label.
  destruct (label_func a clade) as [label|]; [|apply extends_with_refl].
  case_bool_decide as Hc; [apply extends_with_refl|].
  specialize (Hl label eq_refl Hc). unfold taxon_label in Hl.
  case_bool_decide; by apply extends_with_emit.
Qed.

Lemma rect_draw_clade_label_rule (E : env) (a : args) (t : Tree)
    (x y : gmap path Q) (fl : Clade -> path -> option string)
    x_start color lw cv cv' :
  Trees.draw_clade E a x y fl (root t) [] x_start color lw cv = Ok cv' ->
  extends_with (label_rule a t x y) (fun _ => True) cv cv'.
Proof.
  rewrite rect_draw_clade_generic. intros Hrun.
  refine (draw_generic_rel_at E _ _ x y _
            (fun k d => clade_at (root t) k = Some d)
            (extends_with_refl _ _) (extends_with_trans _ _) _ _
            (root t) [] x_start color lw cv cv' (fun q d Hq => Hq) Hrun).
  - intros d k xs xh yh col w cv0 Hk Hx Hy. unfold rect_own.
    eapply extends_with_trans; [by apply rect_lines_extends|].
    eapply extends_with_trans.
    + apply draw_label_extends_at. intros label Hl Hne. simpl. left.
      by exists k, d, label, xh, yh.
    + apply draw_conf_label_extends. intros ? ? ?. simpl. by right.
  - intros. by apply rect_lines_extends.
Qed.

Lemma setup_label_rule (a : args) (t : Tree) (x y : gmap path Q) (e : event) :
  is_setup e -> label_rule a t x y e.
Proof. by destruct e. Qed.

(** C4, as amended.  In a run of the rectangular [drawMark] that returns,
    every clade (every leaf in particular) whose label is neither [None]
    nor the class name gets a [text] call at its position, with
    [markColor] and [markWeight] when the label is in [mark] and with the
    colour [get_label_color] gives (black by default) otherwise; and every
    [text] call [drawMark] makes before it dispatches the extra keyword
    arguments is either such a label, of such a clade at its position, or a
    branch label.  A run of the polar [drawMark] makes no [text] call for a
    taxon label at all.  Both return on every call that passes the argument
    checks, the rectangular one when the limits of its axes are finite. *)
Theorem drawMark_taxon_labels (E : env) (a : args) (t : Tree)
    (evs : list event) :
  (Trees.drawMark E a t = Ok evs ->
   exists x y pre calls,
     Trees.get_x_positions t = Ok x /\
     Trees.get_y_positions t = Ok y /\
     evs = pre ++ calls ++ (if do_show a then [show] else []) /\
     dispatched E (kwargs a) calls /\
     (forall q d label,
        clade_at (root t) q = Some d -> label_func a d = Some label ->
        label <> "Clade" ->
        exists xq yq, x !! q = Some xq /\ y !! q = Some yq /\
                      taxon_label a xq yq label ∈ pre) /\
     Forall (label_rule a t x y) pre) /\
  (CircTrees.drawMark E a t = Ok evs ->
   exists pre calls,
     evs = pre ++ calls ++ (if do_show a then [show] else []) /\
     dispatched E (kwargs a) calls /\
     Forall no_taxon_label pre) /\
  (valid_call E a ->
   (finite_limits t -> exists evs', Trees.drawMark E a t = Ok evs') /\
   (exists evs', CircTrees.drawMark E a t = Ok evs')).
Proof.
  split; [|split]; [intros Hrun|intros Hrun|].
  3: { intros Hvalid. split.
       - intros Hfin.
         destruct (rect_drawMark_runs E a t Hvalid Hfin)
           as (fl & x & y & ax & cv & aes & calls & _ & _ & _ & _ & _ & _ & _
               & Hrun).
         by eexists.
       - destruct (polar_drawMark_runs E a t Hvalid)
           as (fl & x & y & ax & cv & calls & _ & _ & _ & _ & _ & _ & Hrun).
         by eexists. }
  - apply rect_drawMark_inv in Hrun
      as (fl & x & y & ax & cv & aes & calls & _ & _ & Hx & Hy & Hax & Hdraw
          & Haes & Hcalls & ->).
    pose proof (rect_draw_clade_label_rule _ _ _ _ _ _ _ _ _ _ _ Hdraw)
      as (es & hs & vs & He & _ & _ & Fe & _).
    apply rect_draw_clade_labels in Hdraw as [_ Hlabels].
    eexists x, y, _, calls. split; [done|]. split; [done|].
    split; [reflexivity|]. split; [done|]. split.
    + intros q d label Hq Hl Hne.
      destruct (Hlabels q d label Hq Hl Hne) as (xq & yq & Hxq & Hyq & Hin).
      exists xq, yq. split; [done|]. split; [done|].
      apply elem_of_app. by left.
    + rewrite He. simpl. repeat (apply Forall_app; split).
      * destruct (rect_make_axes_valid a (make_axes_ok a ax (or_introl Hax)))
          as (ax' & Hax' & Hsetup).
        rewrite Hax in Hax'. injection Hax' as <-.
        eapply Forall_impl; [exact Hsetup|]. apply setup_label_rule.
      * done.
      * by apply Forall_fmap, Forall_true.
      * by apply Forall_fmap, Forall_true.
      * eapply Forall_impl; [exact (aesthetics_valid _ _ _ _ Haes)|].
        apply setup_label_rule.
  - apply polar_drawMark_inv in Hrun
      as (fl & x & td & y & ax & cv & calls & _ & _ & Hx & Hy & Hax & Hdraw
          & Hcalls & ->).
    apply polar_draw_clade_no_labels in Hdraw
      as (es & hs & vs & He & _ & _ & Fe & _).
    eexists _, calls. split; [reflexivity|]. split; [done|].
    simpl in He. rewrite He. repeat (apply Forall_app; split).
    + destruct (polar_make_axes_valid a (make_axes_ok a ax (or_intror Hax)))
        as (ax' & Hax' & Hsetup).
      rewrite Hax in Hax'. injection Hax' as <-.
      eapply Forall_impl; [exact Hsetup|]. apply setup_no_taxon_label.
    + done.
    + by apply Forall_fmap, Forall_true.
    + by apply Forall_fmap, Forall_true.
    + by repeat constructor.
Qed.

Lemma sample_call_valid : valid_call sample_env mark_A.
Proof.
  split; [by left|]. split; [done|]. split; [by left|]. constructor.
Qed.

Lemma drawMark_taxon_labels_witness :
  exists evs x y pre calls,
    Trees.drawMark sample_env mark_A sample_tree = Ok evs /\
    Trees.get_x_positions sample_tree = Ok x /\
    Trees.get_y_positions sample_tree = Ok y /\
    evs = pre ++ calls ++ [] /\
    dispatched sample_env [] calls /\
    (forall q d label,
       clade_at (root sample_tree) q = Some d ->
       label_func mark_A d = Some label ->
       label <> "Clade" ->
       exists xq yq, x !! q = Some xq /\ y !! q = Some yq /\
                     taxon_label mark_A xq yq label ∈ pre) /\
    Forall (label_rule mark_A sample_tree x y) pre.
Proof.
  assert (exists evs, Trees.drawMark sample_env mark_A sample_tree = Ok evs)
    as [evs Hrun].
  { eexists. vm_compute. reflexivity. }
  destruct (proj1 (drawMark_taxon_labels sample_env mark_A sample_tree evs)
              Hrun) as (x & y & pre & calls & H).
  exists evs, x, y, pre, calls. split; [exact Hrun|exact H].
Defined.

(** C4 as the specification states it fails: the polar [drawMark] run on
    the single leaf [A] with [mark = ['A']] makes no [text] call, and the
    rectangular one draws no label for a leaf whose label is the class
    name. *)
Lemma claimed_label_highlight_counterexample :
  ~ claimed_label_highlight sample_env mark_A single_leaf_tree /\
  ~ claimed_label_highlight sample_env mark_A clade_named_Clade.
Proof.
  split.
  - intros H.
    destruct (H [] (leaf "A" None) "A" eq_refl eq_refl eq_refl)
      as [_ (evs & x & y & Hrun & Hin)].
    vm_compute in Hrun. injection Hrun as <-. unfold taxon_label in Hin.
    repeat (apply elem_of_cons in Hin as [Hin|Hin]; [discriminate Hin|]).
    by apply elem_of_nil in Hin.
  - intros H.
    destruct (H [] (leaf "Clade" None) "Clade" eq_refl eq_refl eq_refl)
      as [(evs & x & y & Hrun & Hin) _].
    vm_compute in Hrun. injection Hrun as <-. unfold taxon_label in Hin.
    repeat (apply elem_of_cons in Hin as [Hin|Hin]; [discriminate Hin|]).
    by apply elem_of_nil in Hin.
Qed.

(** ** Extra keyword arguments and the missing plotting library *)

Lemma process_kwarg_not_iterable (E : env) (key : string) (value : Py.value) :
  Py.iterable value = false ->
  Trees.process_kwarg E key value =
    Raise (Py.ValueError (Trees.kwarg_message key value)).
Proof. unfold Py.iterable, Trees.process_kwarg. by destruct value. Qed.

Lemma kwarg_message_head (key : string) (value : Py.value) :
  exists rest, Trees.kwarg_message key value = String "K" rest.
Proof. by eexists. Qed.

Lemma dict_items_not_kwarg_message (l : list Py.value) (i : nat) (key : string)
    (value : Py.value) :
  Py.dict_items i l <> Raise (Py.ValueError (Trees.kwarg_message key value)).
Proof.
  destruct (kwarg_message_head key value) as [rest ->].
  revert i. induction l as [|x l IH]; intros i; simpl; [done|].
  destruct (Py.iterate x) as [[|k [|v [|? ?]]]|]; try done.
  specialize (IH (S i)). destruct (Py.dict_items (S i) l); simpl; [done|].
  intros [= ->]. by apply IH.
Qed.

Lemma bind_raise {A B} (m : result A) (k : A -> result B) (e : exn) :
  m ≫= k = Raise e -> m = Raise e \/ exists a, m = Ok a /\ k a = Raise e.
Proof.
  unfold mbind, result_bind, Py.bind.
  destruct m as [a|e']; intros H; [right; eauto | left; by injection H as ->].
Qed.

Lemma subscript_raise (v : Py.value) (i : nat) (e : exn) :
  Py.subscript v i = Raise e ->
  e = Py.IndexError \/ e = Py.KeyError \/ exists m, e = Py.TypeError m.
Proof.
  destruct v; simpl; repeat case_match; intros [= <-]; eauto.
Qed.

Lemma iterate_raise (v : Py.value) (e : exn) :
  Py.iterate v = Raise e -> exists m, e = Py.TypeError m.
Proof. destruct v; simpl; intros [= <-]; eauto. Qed.

Lemma as_keywords_raise (kv : list (Py.value * Py.value)) (e : exn) :
  Py.as_keywords kv = Raise e -> exists m, e = Py.TypeError m.
Proof.
  induction kv as [|[k v] kv IH]; simpl; [done|].
  destruct k; try (intros [= <-]; by eauto).
  destruct (Py.as_keywords kv); simpl; [done|]. intros [= <-]. by apply IH.
Qed.

Lemma dict_raise (v : Py.value) (key : string) (value : Py.value) :
  Py.dict v <> Raise (Py.ValueError (Trees.kwarg_message key value)).
Proof.
  destruct v; simpl; try done;
    try apply dict_items_not_kwarg_message.
Qed.

Lemma getattr_plt_raise (E : env) (key : string) (e : exn) :
  Trees.getattr_plt E key = Raise e -> e = Py.AttributeError key.
Proof.
  unfold Trees.getattr_plt. destruct (pyplot_attr E key); by intros [= <-].
Qed.

Lemma getattr_plt_ok (E : env) (key : string)
    (f : list Py.value -> list (string * Py.value) -> option exn) :
  Trees.getattr_plt E key = Ok f -> pyplot_attr E key = Some f.
Proof.
  unfold Trees.getattr_plt. destruct (pyplot_attr E key); by intros [= <-].
Qed.

Lemma call_plt_raise
    (f : list Py.value -> list (string * Py.value) -> option exn)
    (key : string) (args : list Py.value) (kw : list (string * Py.value))
    (e : exn) :
  Trees.call_plt f key args kw = Raise e -> f args kw = Some e.
Proof. unfold Trees.call_plt. destruct (f args kw); by intros [= <-]. Qed.

(** On a value that is iterable the error of the check can only be
    raised by the pyplot function called. *)
Lemma process_kwarg_iterable (E : env) (key : string) (value : Py.value)
    (key' : string) (value' : Py.value) :
  Py.iterable value = true ->
  Trees.process_kwarg E key value =
    Raise (Py.ValueError (Trees.kwarg_message key' value')) ->
  exists f args kw,
    pyplot_attr E key = Some f /\
    f args kw = Some (Py.ValueError (Trees.kwarg_message key' value')).
Proof.
  unfold Py.iterable, Trees.process_kwarg. intros Hit.
  destruct (Py.iterate value) as [items|] eqn:Hitems; [|done].
  assert (forall e, e = Py.IndexError \/ e = Py.KeyError \/
                    (exists m, e = Py.TypeError m) ->
                    e <> Py.ValueError (Trees.kwarg_message key' value')) as Hne.
  { intros e [-> | [-> | [m ->]]]; done. }
  assert (forall kv,
            (f ← Trees.getattr_plt E key; Trees.call_plt f key [] kv)
              = Raise (Py.ValueError (Trees.kwarg_message key' value')) ->
            exists f args kw,
              pyplot_attr E key = Some f /\
              f args kw = Some (Py.ValueError (Trees.kwarg_message key' value')))
    as Hdict.
  { intros kv [H | (f & Hf & H)]%bind_raise.
    - by apply getattr_plt_raise in H.
    - apply getattr_plt_ok in Hf. apply call_plt_raise in H. eauto. }
  assert ((v0 ← Py.subscript value 0;
           if negb (Py.is_tuple v0)
           then f ← Trees.getattr_plt E key;
                args ← Ok items; Trees.call_plt f key args []
           else f ← Trees.getattr_plt E key;
                args ← Py.iterate v0;
                v1 ← Py.subscript value 1;
                d ← Py.dict v1;
                kw ← Py.as_keywords d; Trees.call_plt f key args kw)
          = Raise (Py.ValueError (Trees.kwarg_message key' value')) ->
          exists f args kw,
            pyplot_attr E key = Some f /\
            f args kw = Some (Py.ValueError (Trees.kwarg_message key' value')))
    as Hmain.
  { intros [H | (v0 & _ & H)]%bind_raise.
    { apply subscript_raise in H. by apply Hne in H. }
    destruct (negb (Py.is_tuple v0)).
    - apply bind_raise in H as [H | (f & Hf & H)].
      { by apply getattr_plt_raise in H. }
      apply getattr_plt_ok in Hf. cbn [mbind result_bind Py.bind] in H.
      apply call_plt_raise in H. eauto.
    - apply bind_raise in H as [H | (f & Hf & H)].
      { by apply getattr_plt_raise in H. }
      apply getattr_plt_ok in Hf.
      apply bind_raise in H as [H | (args & _ & H)].
      { by apply iterate_raise in H as [m [=]]. }
      apply bind_raise in H as [H | (v1 & _ & H)].
      { apply subscript_raise in H. by apply Hne in H. }
      apply bind_raise in H as [H | (d & _ & H)].
      { by apply dict_raise in H. }
      apply bind_raise in H as [H | (kw & _ & H)].
      { by apply as_keywords_raise in H as [m [=]]. }
      apply call_plt_raise in H. eauto. }
  destruct value; try done; first [exact Hmain | apply Hdict].
Qed.

Lemma process_kwargs_first_raise (E : env)
    (pre post : list (string * Py.value))
    (key : string) (value : Py.value) (e : exn) :
  Forall (fun kv => exists e, Trees.process_kwarg E kv.1 kv.2 = Ok e) pre ->
  Trees.process_kwarg E key value = Raise e ->
  forall evs,
    Trees.process_kwargs E (pre ++ (key, value) :: post) evs = Raise e.
Proof.
  intros Hpre Hbad evs. unfold Trees.process_kwargs. rewrite for_enumerate_app.
  destruct (process_kwargs_valid E pre Hpre evs) as [evs1 Hrun].
  unfold Trees.process_kwargs in Hrun. rewrite Hrun.
  cbn [mbind result_bind Py.bind Py.for_enumerate fst snd]. by rewrite Hbad.
Qed.

Lemma rect_drawMark_after_checks (E : env) (a : args) (t : Tree)
    (fl : Clade -> path -> option string) (ax : list event) :
  Trees.import_plt E = Ok () ->
  Trees.format_branch_label E a = Ok fl ->
  Trees.make_axes a = Ok ax ->
  finite_limits t ->
  exists evs0,
    Trees.drawMark E a t =
      (evs ← Trees.process_kwargs E (kwargs a) evs0;
       Ok (if do_show a then evs ++ [show] else evs)).
Proof.
  intros Himp Hfl Hax (x' & y' & aes & Hx' & Hy' & Haes).
  destruct (rect_layout_and_draw E a fl t 0 "k" (rc_linewidth E)
              (mkCanvas ax [] [])) as (x & y & cv & Hx & Hy & Hdom & Hrun).
  rewrite Hx in Hx'. injection Hx' as <-.
  rewrite Hy in Hy'. injection Hy' as <-.
  eexists. unfold Trees.drawMark. rewrite Himp, Hfl, Hx, Hy, Hax.
  cbn [mbind result_bind Py.bind]. rewrite Hrun.
  cbn [mbind result_bind Py.bind]. rewrite Haes.
  cbn [mbind result_bind Py.bind]. reflexivity.
Qed.

Lemma polar_drawMark_after_checks (E : env) (a : args) (t : Tree)
    (fl : Clade -> path -> option string) (ax : list event) :
  CircTrees.import_plt E = Ok () ->
  Trees.format_branch_label E a = Ok fl ->
  CircTrees.make_axes a = Ok ax ->
  exists evs0,
    CircTrees.drawMark E a t =
      (evs ← Trees.process_kwargs E (kwargs a) evs0;
       Ok (if do_show a then evs ++ [show] else evs)).
Proof.
  intros Himp Hfl Hax.
  destruct (polar_layout_and_draw E fl t 0 "k" (rc_linewidth E)
              (mkCanvas ax [] [])) as (x & y & cv & Hx & Hy & Hdom & Hrun).
  eexists. unfold CircTrees.drawMark, CircTrees.format_branch_label.
  rewrite Himp, Hfl, Hx. cbn [mbind result_bind Py.bind]. rewrite Hy, Hax.
  cbn [mbind result_bind Py.bind]. rewrite Hrun.
  cbn [mbind result_bind Py.bind]. reflexivity.
Qed.

Lemma reaches_kwargs_checks (E : env) (a : args) :
  reaches_kwargs E a ->
  Trees.import_plt E = Ok () /\ CircTrees.import_plt E = Ok () /\
  (exists fl, Trees.format_branch_label E a = Ok fl) /\
  (exists ax, Trees.make_axes a = Ok ax) /\
  (exists ax, CircTrees.make_axes a = Ok ax).
Proof.
  intros (Himp & Hbl & Hax).
  unfold Trees.import_plt, CircTrees.import_plt, Trees.format_branch_label.
  split_and!.
  - destruct (pyplot_importable E); [done|]. by destruct Himp as [?| ->].
  - destruct (pyplot_importable E); [done|]. by destruct Himp as [?| ->].
  - destruct (branch_labels a); try destruct (show_confidence a); by eauto.
  - destruct (rect_make_axes_valid a Hax) as (ax & H & _). eauto.
  - destruct (polar_make_axes_valid a Hax) as (ax & H & _). eauto.
Qed.

Lemma kwarg_message_names (key : string) (value : Py.value) :
  names_argument (Trees.kwarg_message key value) key value.
Proof.
  exists ("Keyword argument " +:+ Py.dquote),
         (Py.dquote +:+ " is not in the format "
          +:+ "pyplot_option_name=(tuple), pyplot_option_name=(tuple, dict),"
          +:+ " or pyplot_option_name=(dict) ").
  reflexivity.
Qed.

(** C6, as amended.  When [drawMark] gets as far as its loop over the
    extra keyword arguments (a plotting library imports, [branch_labels] and
    [axes] pass their checks and, in the rectangular script, the limits of
    the axes are finite) and every keyword argument before it is dispatched
    (its value can be taken apart, pyplot has a function of its name and the
    call returns), a keyword argument whose value is not iterable makes both
    scripts raise the [ValueError] whose message holds its key and its
    value.  A sequence whose first item is not a tuple is passed to the
    pyplot function of that name as positional arguments, or raises
    [AttributeError] when pyplot has no such function; on any iterable
    value that [ValueError] can only come out of the pyplot function
    itself. *)
Theorem drawMark_kwarg_not_iterable (E : env) (a : args) (t : Tree)
    (pre post : list (string * Py.value)) (key : string) (value : Py.value) :
  reaches_kwargs E a ->
  kwargs a = pre ++ (key, value) :: post ->
  Forall (fun kv => exists e, Trees.process_kwarg E kv.1 kv.2 = Ok e) pre ->
  Py.iterable value = false ->
  (finite_limits t ->
   Trees.drawMark E a t
     = Raise (Py.ValueError (Trees.kwarg_message key value))) /\
  CircTrees.drawMark E a t
    = Raise (Py.ValueError (Trees.kwarg_message key value)) /\
  names_argument (Trees.kwarg_message key value) key value /\
  (forall k items v0 f,
     items !! 0 = Some v0 -> Py.is_tuple v0 = false ->
     pyplot_attr E k = Some f -> f items [] = None ->
     Trees.process_kwarg E k (Py.VTuple items) = Ok (call k items [])) /\
  (forall k items v0,
     items !! 0 = Some v0 -> Py.is_tuple v0 = false ->
     pyplot_attr E k = None ->
     Trees.process_kwarg E k (Py.VTuple items)
       = Raise (Py.AttributeError k)) /\
  (forall k v k' v',
     Py.iterable v = true ->
     Trees.process_kwarg E k v
       = Raise (Py.ValueError (Trees.kwarg_message k' v')) ->
     exists f args kw,
       pyplot_attr E k = Some f /\
       f args kw = Some (Py.ValueError (Trees.kwarg_message k' v'))).
Proof.
  intros Hreach Hkw Hpre Hval.
  pose proof (process_kwarg_not_iterable E key value Hval) as Hbad.
  destruct (reaches_kwargs_checks E a Hreach)
    as (Himp & Himp' & [fl Hfl] & [ax Hax] & [ax' Hax']).
  split_and!.
  - intros Hfin.
    destruct (rect_drawMark_after_checks E a t fl ax Himp Hfl Hax Hfin)
      as [evs0 ->].
    by rewrite Hkw, (process_kwargs_first_raise E pre post key value _ Hpre Hbad).
  - destruct (polar_drawMark_after_checks E a t fl ax' Himp' Hfl Hax')
      as [evs0 ->].
    by rewrite Hkw, (process_kwargs_first_raise E pre post key value _ Hpre Hbad).
  - apply kwarg_message_names.
  - intros k items v0 f H0 Htuple Hf Hret.
    unfold Trees.process_kwarg, Trees.getattr_plt, Trees.call_plt.
    cbn [Py.iterate Py.subscript]. rewrite H0.
    cbn [mbind result_bind Py.bind]. rewrite Htuple. cbn [negb].
    rewrite Hf. cbn [mbind result_bind Py.bind]. by rewrite Hret.
  - intros k items v0 H0 Htuple Hf.
    unfold Trees.process_kwarg, Trees.getattr_plt.
    cbn [Py.iterate Py.subscript]. rewrite H0.
    cbn [mbind result_bind Py.bind]. rewrite Htuple. cbn [negb].
    by rewrite Hf.
  - intros k v k' v' Hit. by apply process_kwarg_iterable.
Qed.

Lemma sample_tree_finite_limits : finite_limits sample_tree.
Proof. eexists _, _, _. split_and!; vm_compute; reflexivity. Qed.

Lemma drawMark_kwarg_not_iterable_witness :
  Trees.drawMark sample_env
    (with_kwargs mark_A [("xlim", Py.VTuple [Py.VInt 0; Py.VInt 1]);
                         ("dpi", Py.VInt 3)]) sample_tree =
    Raise (Py.ValueError (Trees.kwarg_message "dpi" (Py.VInt 3))) /\
  CircTrees.drawMark sample_env
    (with_kwargs mark_A [("xlim", Py.VTuple [Py.VInt 0; Py.VInt 1]);
                         ("dpi", Py.VInt 3)]) sample_tree =
    Raise (Py.ValueError (Trees.kwarg_message "dpi" (Py.VInt 3))).
Proof.
  assert (reaches_kwargs sample_env
            (with_kwargs mark_A [("xlim", Py.VTuple [Py.VInt 0; Py.VInt 1]);
                                 ("dpi", Py.VInt 3)])) as Hreach.
  { split; [by left|]. split; [done|]. by left. }
  destruct (drawMark_kwarg_not_iterable sample_env _ sample_tree
              [("xlim", Py.VTuple [Py.VInt 0; Py.VInt 1])] [] "dpi" (Py.VInt 3)
              Hreach eq_refl) as (Hrect & Hpolar & _).
  - constructor; [|constructor]. by eexists.
  - reflexivity.
  - split; [|exact Hpolar]. apply Hrect.
    exact sample_tree_finite_limits.
Defined.

(** C6 as the specification states it fails: with [xlim=()] before
    [dpi=3], the value [3] is not iterable, but the loop stops at [xlim],
    whose empty value raises [IndexError] in both scripts. *)
Lemma claimed_kwarg_error_counterexample :
  ~ claimed_kwarg_error sample_env
      (with_kwargs mark_A [("xlim", Py.VTuple []); ("dpi", Py.VInt 3)])
      sample_tree.
Proof.
  intros H.
  destruct (H "dpi" (Py.VInt 3)) as [(msg & Hrun & _) _].
  - apply elem_of_cons. right. apply elem_of_cons. by left.
  - reflexivity.
  - vm_compute in Hrun. discriminate Hrun.
Qed.

(** C7.  What the code does when neither [matplotlib.pyplot] nor [pylab]
    can be imported: the statement [raise MissingPythonDependencyError(...)]
    is reached, but that name is bound neither in the module (only
    [Phylo] is imported from [Bio]) nor among the builtins, so both scripts
    raise [NameError] and the dependency-missing error with its message is
    never built. *)
Theorem drawMark_missing_plotting_library (E : env) (a : args) (t : Tree) :
  pyplot_importable E = false ->
  pylab_importable E = false ->
  Trees.drawMark E a t = Raise (Py.NameError "MissingPythonDependencyError") /\
  CircTrees.drawMark E a t = Raise (Py.NameError "MissingPythonDependencyError") /\
  Trees.drawMark E a t <>
    Raise (Py.MissingPythonDependencyError
             "Install matplotlib or pylab if you want to use draw.").
Proof.
  intros Hpyplot Hpylab.
  assert (Trees.drawMark E a t =
          Raise (Py.NameError "MissingPythonDependencyError")) as Hrect.
  { unfold Trees.drawMark, Trees.import_plt. by rewrite Hpyplot, Hpylab. }
  split; [exact Hrect|]. split.
  - unfold CircTrees.drawMark, CircTrees.import_plt. by rewrite Hpyplot, Hpylab.
  - by rewrite Hrect.
Qed.

Lemma drawMark_missing_plotting_library_witness :
  pyplot_importable (mkEnv false false 1 (fun _ => "") sample_pyplot) = false /\
  pylab_importable (mkEnv false false 1 (fun _ => "") sample_pyplot) = false /\
  Trees.drawMark (mkEnv false false 1 (fun _ => "") sample_pyplot) mark_A sample_tree =
    Raise (Py.NameError "MissingPythonDependencyError").
Proof.
  split; [reflexivity|]. split; [reflexivity|].
  apply (drawMark_missing_plotting_library (mkEnv false false 1 (fun _ => "") sample_pyplot)
           mark_A sample_tree); reflexivity.
Defined.

(** ** Colours passed down the recursion *)

Lemma added_between {A} (l0 l1 l2 l3 : list A) (x : A) :
  l0 `prefix_of` l1 -> (exists rest, l2 = l1 ++ x :: rest) -> l2 `prefix_of` l3 ->
  added l0 l3 x.
Proof.
  intros [k1 ->] [rest ->] [k3 ->]. exists k1, (rest ++ k3).
  by rewrite <- !app_assoc.
Qed.

Lemma extends_prefix (Pe : event -> Prop) (Ps : segment -> Prop) (cv cv' : canvas) :
  extends_with Pe Ps cv cv' ->
  events cv `prefix_of` events cv' /\
  horizontal_linecollections cv `prefix_of` horizontal_linecollections cv' /\
  vertical_linecollections cv `prefix_of` vertical_linecollections cv'.
Proof.
  intros (es & hs & vs & He & Hh & Hv & _).
  split_and!; [by exists es | by exists hs | by exists vs].
Qed.

Lemma rect_own_extends (a : args) (fl : Clade -> path -> option string)
    d k xs xh yh col lw cv :
  extends cv (rect_own a fl d k xs xh yh col lw cv).
Proof.
  eapply extends_with_weaken; [| |apply rect_own_text_rule]; done.
Qed.

Lemma rect_joint_extends xh yb yt col lw cv :
  extends cv (rect_joint xh yb yt col lw cv).
Proof. by apply rect_lines_extends. Qed.

Lemma polar_own_extends (fl : Clade -> path -> option string)
    d k xs xh yh col lw cv :
  extends cv (polar_own fl d k xs xh yh col lw cv).
Proof.
  eapply extends_with_weaken; [| |apply polar_own_no_taxon_label]; done.
Qed.

Lemma polar_joint_extends xh yb yt col lw cv :
  extends cv (polar_joint xh yb yt col lw cv).
Proof. by apply polar_lines_extends. Qed.

Lemma rect_own_adds_branch (a : args) (fl : Clade -> path -> option string)
    d k xs xh yh col lw cv :
  horizontal_linecollections (rect_own a fl d k xs xh yh col lw cv) =
  horizontal_linecollections cv ++ [branch_segment xs xh yh col lw].
Proof.
  unfold rect_own, Trees.draw_conf_label, Trees.draw_label.
  repeat case_match; reflexivity.
Qed.

Lemma rect_own_keeps_vertical (a : args) (fl : Clade -> path -> option string)
    d k xs xh yh col lw cv :
  vertical_linecollections (rect_own a fl d k xs xh yh col lw cv) =
  vertical_linecollections cv.
Proof.
  unfold rect_own, Trees.draw_conf_label, Trees.draw_label.
  repeat case_match; reflexivity.
Qed.

Lemma rect_joint_adds xh yb yt col lw cv :
  vertical_linecollections (rect_joint xh yb yt col lw cv) =
  vertical_linecollections cv ++ [joint_segment xh yb yt col lw].
Proof. reflexivity. Qed.

Lemma polar_own_adds_branch (fl : Clade -> path -> option string)
    d k xs xh yh col lw cv :
  exists rest,
    events (polar_own fl d k xs xh yh col lw cv) =
    events cv ++ radial_line xs xh yh col lw :: rest.
Proof.
  unfold polar_own, Trees.draw_conf_label, CircTrees.draw_clade_lines,
    radial_line. simpl.
  destruct (Qeq_bool yh (CircTrees.np_pi / 2)); repeat case_match; simpl;
    rewrite <- ?app_assoc; by eexists.
Qed.

Lemma polar_joint_adds xh yb yt col lw cv :
  events (polar_joint xh yb yt col lw cv) =
  events cv ++ [arc_line xh yb yt col lw].
Proof. reflexivity. Qed.

Lemma own_color_uncolored (r : path) :
  forall s d color,
    BioPhylo.color s = None -> uncolored_below s r -> clade_at s r = Some d ->
    own_color d (incoming_color s r color) = color.
Proof.
  induction r as [|i r IH]; intros s d color Hs Hun Hr; simpl in *.
  - simplify_eq. unfold own_color. by rewrite Hs.
  - destruct (clades s !! i) as [s'|]; [|done]. destruct Hun as [Hs' Hun].
    rewrite (IH s' d _ Hs' Hun Hr). unfold own_color. by rewrite Hs.
Qed.

Lemma own_color_inherited (c d : Clade) (r : path) (col : BranchColor)
    (color : string) :
  BioPhylo.color c = Some col -> uncolored_below c r -> clade_at c r = Some d ->
  own_color d (incoming_color c r color) = to_hex col.
Proof.
  intros Hc Hun Hr. destruct r as [|i r]; simpl in *.
  - simplify_eq. unfold own_color. by rewrite Hc.
  - destruct (clades c !! i) as [s|]; [|done]. destruct Hun as [Hs Hun].
    rewrite (own_color_uncolored r s d _ Hs Hun Hr). unfold own_color.
    by rewrite Hc.
Qed.

Lemma rect_draw_clade_colors (E : env) (a : args) (x y : gmap path Q)
    (fl : Clade -> path -> option string) (c d : Clade) (p r : path)
    (col : BranchColor) x_start color lw cv cv' :
  Trees.draw_clade E a x y fl c p x_start color lw cv = Ok cv' ->
  BioPhylo.color c = Some col ->
  clade_at c r = Some d ->
  uncolored_below c r ->
  exists xq yq x0 lw',
    x !! (p ++ r) = Some xq /\ y !! (p ++ r) = Some yq /\
    added (horizontal_linecollections cv) (horizontal_linecollections cv')
      (branch_segment x0 xq yq (to_hex col) lw') /\
    (is_terminal d = false ->
     exists y_top y_bot,
       y !! ((p ++ r) ++ [0]) = Some y_top /\
       y !! ((p ++ r) ++ [length (clades d) - 1]) = Some y_bot /\
       added (vertical_linecollections cv) (vertical_linecollections cv')
         (joint_segment xq y_bot y_top (to_hex col) lw')).
Proof.
  rewrite rect_draw_clade_generic. intros Hrun Hc Hr Hun.
  destruct (draw_generic_subcall E (rect_own a fl) rect_joint x y extends
              (extends_with_refl _ _) (extends_with_trans _ _)
              (rect_own_extends a fl) rect_joint_extends
              r c p x_start color lw cv cv' d Hrun Hr)
    as (x0 & lw' & cv1 & cv2 & Hcall & H1 & H2).
  destruct (draw_generic_own E (rect_own a fl) rect_joint x y extends
              (extends_with_refl _ _) (extends_with_trans _ _)
              (rect_own_extends a fl) rect_joint_extends
              d (p ++ r) x0 _ lw' cv1 cv2 Hcall)
    as (xq & yq & Hx & Hy & Hown & Hjoint).
  rewrite (own_color_inherited c d r col color Hc Hun Hr) in Hown, Hjoint.
  apply extends_prefix in H1 as (_ & H1h & H1v).
  apply extends_prefix in H2 as (_ & H2h & H2v).
  exists xq, yq, x0, (own_lw E d lw'). split; [done|]. split; [done|]. split.
  - apply extends_prefix in Hown as (_ & Hoh & _).
    eapply added_between; [exact H1h| |by etrans].
    exists []. apply rect_own_adds_branch.
  - intros Hd. destruct (Hjoint Hd) as (yt & yb & Hyt & Hyb & Hj).
    exists yt, yb. split; [done|]. split; [done|].
    apply extends_prefix in Hj as (_ & _ & Hjv).
    eapply added_between; [|exists []; apply rect_joint_adds|by etrans].
    by rewrite rect_own_keeps_vertical.
Qed.

Lemma polar_draw_clade_colors (E : env) (x y : gmap path Q)
    (fl : Clade -> path -> option string) (c d : Clade) (p r : path)
    (col : BranchColor) x_start color lw cv cv' :
  CircTrees.draw_clade E x y fl c p x_start color lw cv = Ok cv' ->
  BioPhylo.color c = Some col ->
  clade_at c r = Some d ->
  uncolored_below c r ->
  exists xq yq x0 lw',
    x !! (p ++ r) = Some xq /\ y !! (p ++ r) = Some yq /\
    added (events cv) (events cv') (radial_line x0 xq yq (to_hex col) lw') /\
    (is_terminal d = false ->
     exists y_top y_bot,
       y !! ((p ++ r) ++ [0]) = Some y_top /\
       y !! ((p ++ r) ++ [length (clades d) - 1]) = Some y_bot /\
       added (events cv) (events cv') (arc_line xq y_bot y_top (to_hex col) lw')).
Proof.
  rewrite polar_draw_clade_generic. intros Hrun Hc Hr Hun.
  destruct (draw_generic_subcall E (polar_own fl) polar_joint x y extends
              (extends_with_refl _ _) (extends_with_trans _ _)
              (polar_own_extends fl) polar_joint_extends
              r c p x_start color lw cv cv' d Hrun Hr)
    as (x0 & lw' & cv1 & cv2 & Hcall & H1 & H2).
  destruct (draw_generic_own E (polar_own fl) polar_joint x y extends
              (extends_with_refl _ _) (extends_with_trans _ _)
              (polar_own_extends fl) polar_joint_extends
              d (p ++ r) x0 _ lw' cv1 cv2 Hcall)
    as (xq & yq & Hx & Hy & Hown & Hjoint).
  rewrite (own_color_inherited c d r col color Hc Hun Hr) in Hown, Hjoint.
  apply extends_prefix in H1 as (H1e & _).
  apply extends_prefix in H2 as (H2e & _).
  exists xq, yq, x0, (own_lw E d lw'). split; [done|]. split; [done|]. split.
  - apply extends_prefix in Hown as (Hoe & _).
    eapply added_between; [exact H1e| |by etrans].
    apply polar_own_adds_branch.
  - intros Hd. destruct (Hjoint Hd) as (yt & yb & Hyt & Hyb & Hj).
    exists yt, yb. split; [done|]. split; [done|].
    apply extends_prefix in Hj as (Hje & _).
    eapply added_between; [|exists []; apply polar_joint_adds|by etrans].
    etrans; [exact H1e|].
    by apply (extends_prefix _ _ _ _ (polar_own_extends fl d (p ++ r) x0 xq yq
                                       (to_hex col) (own_lw E d lw') cv1)).
Qed.

Lemma uncolored_unfold (c : Clade) :
  uncolored c =
  match BioPhylo.color c with
  | None => true
  | Some _ => false
  end && forallb uncolored (clades c).
Proof. destruct c; reflexivity. Qed.

Lemma uncolored_clade_at (q : path) :
  forall c d, uncolored c = true -> clade_at c q = Some d -> uncolored d = true.
Proof.
  induction q as [|i q IH]; intros c d Hc Hq; simpl in Hq.
  - by simplify_eq.
  - destruct (clades c !! i) as [s|] eqn:Hi; [|done]. apply (IH s); [|done].
    rewrite uncolored_unfold in Hc. apply andb_prop in Hc as [_ Hall].
    rewrite forallb_forall in Hall. apply Hall.
    apply list_elem_of_In, list_elem_of_lookup. eauto.
Qed.

Lemma uncolored_own (c : Clade) : uncolored c = true -> BioPhylo.color c = None.
Proof.
  rewrite uncolored_unfold. intros [H _]%andb_prop.
  by destruct (BioPhylo.color c).
Qed.

Lemma uncolored_children_below (r : path) :
  forall c d,
    forallb uncolored (clades c) = true -> clade_at c r = Some d ->
    uncolored_below c r.
Proof.
  induction r as [|i r IH]; intros c d Hall Hr; simpl in *; [done|].
  destruct (clades c !! i) as [s|] eqn:Hi; [|done].
  assert (uncolored s = true) as Hs.
  { rewrite forallb_forall in Hall. apply Hall.
    apply list_elem_of_In, list_elem_of_lookup. eauto. }
  split; [by apply uncolored_own|]. apply (IH s d); [|done].
  rewrite uncolored_unfold in Hs. by apply andb_prop in Hs as [_ ?].
Qed.

Lemma draw_generic_colored (E : env)
    (own : Clade -> path -> Q -> Q -> Q -> string -> Q -> canvas -> canvas)
    (joint : Q -> Q -> Q -> string -> Q -> canvas -> canvas)
    (x y : gmap path Q) (c : Clade) (col : BranchColor) p x_start color lw cv :
  BioPhylo.color c = Some col ->
  draw_generic E own joint x y c p x_start color lw cv =
  draw_generic E own joint x y c p x_start (to_hex col) lw cv.
Proof.
  intros Hc. rewrite !draw_generic_unfold. unfold own_color. by rewrite Hc.
Qed.

Lemma polar_draw_clade_all_colored (E : env) (x y : gmap path Q)
    (fl : Clade -> path -> option string) (c : Clade) (col : BranchColor)
    p x_start color lw cv cv' :
  CircTrees.draw_clade E x y fl c p x_start color lw cv = Ok cv' ->
  BioPhylo.color c = Some col ->
  forallb uncolored (clades c) = true ->
  extends_with (plot_in (to_hex col)) (fun _ => True) cv cv'.
Proof.
  rewrite polar_draw_clade_generic. intros Hrun Hc Hall.
  rewrite (draw_generic_colored _ _ _ _ _ _ col) in Hrun by done.
  refine (draw_generic_rel E _ _ x y _ (fun k => k = to_hex col)
            (extends_with_refl _ _) (extends_with_trans _ _) _ _
            c p x_start (to_hex col) lw cv cv' eq_refl _ Hrun).
  - intros d k xs xh yh color' lw' cv0 ->. unfold polar_own.
    eapply extends_with_trans; [by apply polar_lines_extends|].
    by apply draw_conf_label_extends.
  - intros xh yb yt color' lw' cv0 ->. by apply polar_lines_extends.
  - intros q d k Hq Hk. destruct q as [|i q].
    + simpl in Hq. by simplify_eq.
    + apply clade_at_cons in Hq as (s & Hi & Hq).
      assert (uncolored s = true) as Hs.
      { rewrite forallb_forall in Hall. apply Hall.
        apply list_elem_of_In, list_elem_of_lookup. eauto. }
      apply (uncolored_clade_at q s d Hs) in Hq.
      apply uncolored_own in Hq. congruence.
Qed.

Lemma rect_draw_clade_all_colored (E : env) (a : args) (x y : gmap path Q)
    (fl : Clade -> path -> option string) (c : Clade) (col : BranchColor)
    p x_start color lw cv cv' :
  Trees.draw_clade E a x y fl c p x_start color lw cv = Ok cv' ->
  BioPhylo.color c = Some col ->
  forallb uncolored (clades c) = true ->
  extends_with (fun _ => True) (fun s => seg_color s = to_hex col) cv cv'.
Proof.
  rewrite rect_draw_clade_generic. intros Hrun Hc Hall.
  rewrite (draw_generic_colored _ _ _ _ _ _ col) in Hrun by done.
  refine (draw_generic_rel E _ _ x y _ (fun k => k = to_hex col)
            (extends_with_refl _ _) (extends_with_trans _ _) _ _
            c p x_start (to_hex col) lw cv cv' eq_refl _ Hrun).
  - intros d k xs xh yh color' lw' cv0 ->. unfold rect_own.
    eapply extends_with_trans; [by apply rect_lines_extends|].
    eapply extends_with_trans; [by apply draw_label_extends|].
    by apply draw_conf_label_extends.
  - intros xh yb yt color' lw' cv0 ->. by apply rect_lines_extends.
  - intros q d k Hq Hk. destruct q as [|i q].
    + simpl in Hq. by simplify_eq.
    + apply clade_at_cons in Hq as (s & Hi & Hq).
      assert (uncolored s = true) as Hs.
      { rewrite forallb_forall in Hall. apply Hall.
        apply list_elem_of_In, list_elem_of_lookup. eauto. }
      apply (uncolored_clade_at q s d Hs) in Hq.
      apply uncolored_own in Hq. congruence.
Qed.

(** ** The common ancestor coloured by the polar [drawTree] *)

Lemma check_in_path_valid (m : path -> Clade -> bool) (v : Clade) :
  forall here q, check_in_path m v here = Some q -> is_Some (clade_at v q).
Proof.
  induction v as [v IH] using clade_ind_children. intros here q.
  rewrite check_in_path_unfold. destruct (m here v).
  - intros [= <-]. by eexists.
  - intros (j & s & q' & Hj & -> & Hs)%check_children_inv.
    rewrite Forall_lookup in IH. apply (IH j s Hj) in Hs as [d Hd].
    exists d. apply clade_at_cons. simpl. eauto.
Qed.

Lemma mrca_of_valid (p1 p2 : path) :
  forall c, is_Some (clade_at c p1) -> is_Some (clade_at c (mrca_of p1 p2)).
Proof.
  revert p2. induction p1 as [|i p1 IH]; intros p2 c Hp1; simpl.
  - by destruct p2.
  - destruct p2 as [|j p2]; [by eexists|]. case_bool_decide; [|by eexists].
    subst j. simpl in *. destruct (clades c !! i) as [s|]; [|done].
    by apply IH.
Qed.

Lemma clade_at_update_at (f : Clade -> Clade) (p : path) :
  forall c d, clade_at c p = Some d -> clade_at (update_at f c p) p = Some (f d).
Proof.
  induction p as [|i p IH]; intros c d Hp; simpl in *.
  - by simplify_eq.
  - destruct (clades c !! i) as [s|] eqn:Hi; [|done]. simpl.
    rewrite list_lookup_insert_eq by (by eapply lookup_lt_Some).
    by apply IH.
Qed.

Lemma common_ancestor_valid (t : Tree) (m1 m2 : string) (p : path) :
  common_ancestor t m1 m2 = Ok p -> is_Some (clade_at (root t) p).
Proof.
  unfold common_ancestor, get_path.
  destruct (check_in_path (string_matcher m1) (root t) []) as [p1|] eqn:H1;
    [|done].
  destruct (check_in_path (string_matcher m2) (root t) []) as [p2|]; [|done].
  intros [= <-]. apply mrca_of_valid. by eapply check_in_path_valid.
Qed.

Lemma added_elem {A} (before new : list A) (x : A) :
  added before (before ++ new) x -> x ∈ new.
Proof.
  intros (l1 & l2 & Heq). apply app_inv_head in Heq as ->.
  apply elem_of_app. right. by left.
Qed.

Lemma polar_drawTree_red_subtree (E : env) (W : Trees.world) (treeName : string)
    (outX outY : Q) (outFormat : string) (outDPI : Q) (ladderize : bool)
    (fontSize lineWidth : Q) (mark : list string) (t0 : Tree)
    (evs : list event) :
  Trees.Phylo_read W (treeName +:+ ".nwk") "newick" = Ok t0 ->
  uncolored (root (if ladderize then Trees.ladderize_tree W t0 else t0)) = true ->
  CircTrees.drawTree E W treeName outX outY outFormat outDPI ladderize fontSize
    lineWidth mark = Ok evs ->
  exists p7 c x y treeDepth pre sub post,
    let t := if ladderize then Trees.ladderize_tree W t0 else t0 in
    let t' := mkTree (update_at (set_color (Some color_r)) (root t) p7)
                (tree_name t) in
    common_ancestor t
      "XP_021076601.1_H(+)/Cl(-)_exchange_transporter_7_isoform_X3_Mus_pahari"
      "XP_012063553.1_PREDICTED:_H(+)/Cl(-)_exchange_transporter_7_Atta_cephalotes"
      = Ok p7 /\
    clade_at (root t) p7 = Some c /\
    clade_at (root t') p7 = Some (set_color (Some color_r) c) /\
    CircTrees.get_x_positions t' true = Ok (x, treeDepth) /\
    CircTrees.get_y_positions t' = Ok y /\
    evs = pre ++ sub ++ post /\
    Forall (plot_in "#ff0000") sub /\
    forall r d,
      clade_at (set_color (Some color_r) c) r = Some d ->
      exists xq yq x0 lw',
        x !! (p7 ++ r) = Some xq /\ y !! (p7 ++ r) = Some yq /\
        radial_line x0 xq yq "#ff0000" lw' ∈ sub.
Proof.
  intros Hread Hun. unfold CircTrees.drawTree. rewrite Hread.
  cbn [mbind result_bind Py.bind].
  set (t := if ladderize then Trees.ladderize_tree W t0 else t0) in *.
  change (default "" (CircTrees.toMark !! 0)) with
    "XP_021076601.1_H(+)/Cl(-)_exchange_transporter_7_isoform_X3_Mus_pahari".
  change (default "" (CircTrees.toMark !! 1)) with
    "XP_012063553.1_PREDICTED:_H(+)/Cl(-)_exchange_transporter_7_Atta_cephalotes".
  destruct (common_ancestor t _ _) as [p7|] eqn:Hca; [|done].
  cbn [mbind result_bind Py.bind].
  set (t' := mkTree (update_at (set_color (Some color_r)) (root t) p7)
               (tree_name t)).
  set (E' := with_linewidth E lineWidth).
  set (a := mkArgs _ _ _ _ _ _ _ _ _ _).
  destruct (CircTrees.drawMark E' a t') as [evsM|] eqn:HM; [|done].
  cbn [mbind result_bind Py.bind].
  destruct (Trees.savefig_error W _ _); [done|]. intros [= <-].
  assert (valid_call E' a) as Hvalid.
  { split; [|split; [done|split; [by left|constructor]]].
    unfold CircTrees.drawMark, CircTrees.import_plt in HM. subst E'. simpl in *.
    destruct (pyplot_importable E); [by left|].
    destruct (pylab_importable E); [by right|]. done. }
  destruct (polar_drawMark_runs E' a t' Hvalid)
    as (fl & x & y & ax & cv & calls & _ & Hx & Hy & Hdraw & _ & _ & HM').
  rewrite HM in HM'. injection HM' as ->.
  destruct (common_ancestor_valid t _ _ p7 Hca) as [c Hc].
  pose proof (clade_at_update_at (set_color (Some color_r)) p7 (root t) c Hc)
    as Hc'.
  pose proof Hdraw as Hgen. rewrite polar_draw_clade_generic in Hgen.
  destruct (draw_generic_subcall E' (polar_own fl) polar_joint x y extends
              (extends_with_refl _ _) (extends_with_trans _ _)
              (polar_own_extends fl) polar_joint_extends
              p7 (root t') [] 0 "k" (rc_linewidth E') (mkCanvas ax [] []) cv
              (set_color (Some color_r) c) Hgen Hc')
    as (x0 & lw' & cv1 & cv2 & Hcall & H1 & H2).
  rewrite <- polar_draw_clade_generic in Hcall.
  change ([] ++ p7) with p7 in Hcall.
  assert (forallb uncolored (clades (set_color (Some color_r) c)) = true)
    as Hall.
  { pose proof (uncolored_clade_at p7 (root t) c Hun Hc) as Huc.
    rewrite uncolored_unfold in Huc. by apply andb_prop in Huc as [_ ?]. }
  destruct (polar_draw_clade_all_colored E' x y fl _ color_r _ _ _ _ _ _
              Hcall eq_refl Hall) as (sub & hs & vs & Hsub & _ & _ & Fsub & _).
  destruct H2 as (es3 & hs3 & vs3 & He3 & _).
  exists p7, c, x, y, (max_list (length <$> get_terminals t')),
    ([rc_font fontSize; rc_lines lineWidth "k"; rc_figure outX 10]
     ++ [phylo_read (treeName +:+ ".nwk") "newick"] ++ events cv1), sub.
  eexists. simpl. split; [done|]. split; [done|]. split; [exact Hc'|].
  split; [done|]. split; [done|]. split.
  - rewrite He3, Hsub. rewrite <- !app_assoc. simpl. reflexivity.
  - split; [exact Fsub|]. intros r d Hr.
    destruct (polar_draw_clade_colors E' x y fl _ d p7 r color_r _ _ _ _ _
                Hcall eq_refl Hr (uncolored_children_below r _ d Hall Hr))
      as (xq & yq & x0' & lw'' & Hxq & Hyq & Hadd & _).
    exists xq, yq, x0', lw''. split; [done|]. split; [done|].
    rewrite Hsub in Hadd. by apply added_elem in Hadd.
Qed.

(** C10, as amended.  A call of [draw_clade] on a clade that carries a
    colour draws the branch of that clade, and of every clade reached from
    it through clades that carry no colour of their own, in that colour,
    and likewise the line joining the children of each such clade; in the
    rectangular script these are line collections, in the polar script
    [plot] calls.  In a run of the polar [drawTree] on a tree read without
    colours, the calls made for the subtree under the common ancestor of
    the two taxa of [toMark] form one block of the trace, every [plot] call
    of the block is red, and the block holds the branch of every clade of
    that subtree. *)
Theorem draw_clade_color_inheritance (E : env) (a : args) (x y : gmap path Q)
    (fl : Clade -> path -> option string) (c d : Clade) (p r : path)
    (col : BranchColor) (x_start : Q) (color : string) (lw : Q) (cv : canvas) :
  BioPhylo.color c = Some col ->
  clade_at c r = Some d ->
  uncolored_below c r ->
  (forall cv',
     Trees.draw_clade E a x y fl c p x_start color lw cv = Ok cv' ->
     exists xq yq x0 lw',
       x !! (p ++ r) = Some xq /\ y !! (p ++ r) = Some yq /\
       added (horizontal_linecollections cv) (horizontal_linecollections cv')
         (branch_segment x0 xq yq (to_hex col) lw') /\
       (is_terminal d = false ->
        exists y_top y_bot,
          y !! ((p ++ r) ++ [0]) = Some y_top /\
          y !! ((p ++ r) ++ [length (clades d) - 1]) = Some y_bot /\
          added (vertical_linecollections cv) (vertical_linecollections cv')
            (joint_segment xq y_bot y_top (to_hex col) lw'))) /\
  (forall cv',
     CircTrees.draw_clade E x y fl c p x_start color lw cv = Ok cv' ->
     exists xq yq x0 lw',
       x !! (p ++ r) = Some xq /\ y !! (p ++ r) = Some yq /\
       added (events cv) (events cv') (radial_line x0 xq yq (to_hex col) lw') /\
       (is_terminal d = false ->
        exists y_top y_bot,
          y !! ((p ++ r) ++ [0]) = Some y_top /\
          y !! ((p ++ r) ++ [length (clades d) - 1]) = Some y_bot /\
          added (events cv) (events cv')
            (arc_line xq y_bot y_top (to_hex col) lw'))) /\
  (forall (W : Trees.world) (treeName : string) (outX outY : Q)
          (outFormat : string) (outDPI : Q) (ladderize : bool)
          (fontSize lineWidth : Q) (marks : list string) (t0 : Tree)
          (evs : list event),
     Trees.Phylo_read W (treeName +:+ ".nwk") "newick" = Ok t0 ->
     uncolored (root (if ladderize then Trees.ladderize_tree W t0 else t0))
       = true ->
     CircTrees.drawTree E W treeName outX outY outFormat outDPI ladderize
       fontSize lineWidth marks = Ok evs ->
     exists p7 c7 x7 y7 treeDepth pre sub post,
       let t := if ladderize then Trees.ladderize_tree W t0 else t0 in
       let t' := mkTree (update_at (set_color (Some color_r)) (root t) p7)
                   (tree_name t) in
       common_ancestor t
         "XP_021076601.1_H(+)/Cl(-)_exchange_transporter_7_isoform_X3_Mus_pahari"
         "XP_012063553.1_PREDICTED:_H(+)/Cl(-)_exchange_transporter_7_Atta_cephalotes"
         = Ok p7 /\
       clade_at (root t) p7 = Some c7 /\
       clade_at (root t') p7 = Some (set_color (Some color_r) c7) /\
       CircTrees.get_x_positions t' true = Ok (x7, treeDepth) /\
       CircTrees.get_y_positions t' = Ok y7 /\
       evs = pre ++ sub ++ post /\
       Forall (plot_in "#ff0000") sub /\
       forall r7 d7,
         clade_at (set_color (Some color_r) c7) r7 = Some d7 ->
         exists xq yq x0 lw',
           x7 !! (p7 ++ r7) = Some xq /\ y7 !! (p7 ++ r7) = Some yq /\
           radial_line x0 xq yq "#ff0000" lw' ∈ sub).
Proof.
  intros Hc Hr Hun. split_and!.
  - intros cv' Hrun. by eapply rect_draw_clade_colors.
  - intros cv' Hrun. by eapply polar_draw_clade_colors.
  - intros. by eapply polar_drawTree_red_subtree.
Qed.

Lemma draw_clade_color_inheritance_witness :
  BioPhylo.color red_clade = Some color_r /\
  clade_at red_clade [0] = Some (leaf "A" (Some 2%Q)) /\
  uncolored_below red_clade [0] /\
  forall cv',
    Trees.draw_clade sample_env mark_A
      (positions_of (Trees.get_x_positions red_sample_tree))
      (positions_of (Trees.get_y_positions red_sample_tree))
      (fun _ _ => None) red_clade [0] 0 "k" 1 (mkCanvas [] [] []) = Ok cv' ->
    exists xq yq x0 lw',
      positions_of (Trees.get_x_positions red_sample_tree) !! ([0] ++ [0])
        = Some xq /\
      positions_of (Trees.get_y_positions red_sample_tree) !! ([0] ++ [0])
        = Some yq /\
      added [] (horizontal_linecollections cv')
        (branch_segment x0 xq yq "#ff0000" lw').
Proof.
  split; [reflexivity|]. split; [reflexivity|]. split; [by split|].
  intros cv' Hrun.
  destruct (proj1 (draw_clade_color_inheritance sample_env mark_A
                     (positions_of (Trees.get_x_positions red_sample_tree))
                     (positions_of (Trees.get_y_positions red_sample_tree))
                     (fun _ _ => None) red_clade (leaf "A" (Some 2%Q)) [0] [0]
                     color_r 0 "k" 1 (mkCanvas [] [] [])
                     eq_refl eq_refl (conj eq_refl I)) cv' Hrun)
    as (xq & yq & x0 & lw' & Hx & Hy & Hadd & _).
  by exists xq, yq, x0, lw'.
Defined.

(** C10 as the specification states it fails: below a red clade, a clade
    without a colour whose parent is blue is drawn blue. *)
Lemma claimed_color_inheritance_counterexample :
  ~ claimed_color_inheritance sample_env mark_A (fun _ _ => None) nested_colors.
Proof.
  intros H.
  destruct (rect_layout_and_draw sample_env mark_A (fun _ _ => None)
              nested_colors 0 "k" 1 (mkCanvas [] [] []))
    as (x & y & cv' & Hx & Hy & _ & Hrun).
  destruct (H x y [] (root nested_colors) color_r [0; 0] (leaf "D" (Some 1%Q))
              cv' Hx Hy eq_refl eq_refl Hrun eq_refl (or_intror eq_refl))
    as (xq & yq & x0 & lw' & Hxq & Hyq & Hin).
  vm_compute in Hx. injection Hx as <-.
  vm_compute in Hy. injection Hy as <-.
  vm_compute in Hrun. injection Hrun as <-.
  vm_compute in Hxq. injection Hxq as <-.
  vm_compute in Hyq. injection Hyq as <-.
  unfold branch_segment in Hin. simpl in Hin.
  repeat (apply elem_of_cons in Hin as [Hin|Hin]; [discriminate Hin|]).
  by apply elem_of_nil in Hin.
Qed.

(** ** The files [drawTree] reads and writes *)

Lemma setup_no_file_io (e : event) : is_setup e -> ~ is_file_io e.
Proof. destruct e; simpl; tauto. Qed.

Lemma rect_draw_clade_no_file_io (E : env) (a : args) (x y : gmap path Q)
    (fl : Clade -> path -> option string) (c : Clade) p x_start color lw cv cv' :
  Trees.draw_clade E a x y fl c p x_start color lw cv = Ok cv' ->
  extends_with (fun e => ~ is_file_io e) (fun _ => True) cv cv'.
Proof.
  rewrite rect_draw_clade_generic. intros Hrun.
  refine (draw_generic_rel E _ _ x y _ (fun _ => True)
            (extends_with_refl _ _) (extends_with_trans _ _) _ _
            c p x_start color lw cv cv' I _ Hrun); [| |done].
  - intros. unfold rect_own.
    eapply extends_with_trans; [by apply rect_lines_extends|].
    eapply extends_with_trans.
    + apply draw_label_extends. intros label []. 
    + apply draw_conf_label_extends. intros ? ? ? [].
  - intros. by apply rect_lines_extends.
Qed.

Lemma polar_draw_clade_no_file_io (E : env) (x y : gmap path Q)
    (fl : Clade -> path -> option string) (c : Clade) p x_start color lw cv cv' :
  CircTrees.draw_clade E x y fl c p x_start color lw cv = Ok cv' ->
  extends_with (fun e => ~ is_file_io e) (fun _ => True) cv cv'.
Proof.
  rewrite polar_draw_clade_generic. intros Hrun.
  refine (draw_generic_rel E _ _ x y _ (fun _ => True)
            (extends_with_refl _ _) (extends_with_trans _ _) _ _
            c p x_start color lw cv cv' I _ Hrun); [| |done].
  - intros. unfold polar_own.
    eapply extends_with_trans.
    + apply polar_lines_extends. intros ? ? [].
    + apply draw_conf_label_extends. intros ? ? ? [].
  - intros. apply polar_lines_extends. intros ? ? [].
Qed.

Lemma dispatched_nil (E : env) (calls : list event) :
  dispatched E [] calls -> calls = [].
Proof. by inversion 1. Qed.

Lemma rect_drawMark_no_file_io (E : env) (a : args) (t : Tree)
    (evs : list event) :
  kwargs a = [] -> Trees.drawMark E a t = Ok evs ->
  Forall (fun e => ~ is_file_io e) evs.
Proof.
  intros Hkw Hrun.
  apply rect_drawMark_inv in Hrun
    as (fl & x & y & ax & cv & aes & calls & _ & _ & _ & _ & Hax & Hdraw
        & Haes & Hcalls & ->).
  rewrite Hkw in Hcalls. apply dispatched_nil in Hcalls as ->.
  destruct (rect_make_axes_valid a (make_axes_ok a ax (or_introl Hax)))
    as (ax' & Hax' & Hplain).
  rewrite Hax in Hax'. injection Hax' as <-.
  apply aesthetics_valid in Haes.
  apply rect_draw_clade_no_file_io in Hdraw
    as (es & hs & vs & He & _ & _ & Fe & _).
  simpl in He. rewrite He. repeat (apply Forall_app; split).
  - eapply Forall_impl; [exact Hplain|]. apply setup_no_file_io.
  - done.
  - apply Forall_fmap, Forall_true. by intros ? [].
  - apply Forall_fmap, Forall_true. by intros ? [].
  - eapply Forall_impl; [exact Haes|]. apply setup_no_file_io.
  - constructor.
  - destruct (do_show a); [apply Forall_singleton; by intros [] | constructor].
Qed.

Lemma polar_drawMark_no_file_io (E : env) (a : args) (t : Tree)
    (evs : list event) :
  kwargs a = [] -> CircTrees.drawMark E a t = Ok evs ->
  Forall (fun e => ~ is_file_io e) evs.
Proof.
  intros Hkw Hrun.
  apply polar_drawMark_inv in Hrun
    as (fl & x & td & y & ax & cv & calls & _ & _ & _ & _ & Hax & Hdraw
        & Hcalls & ->).
  rewrite Hkw in Hcalls. apply dispatched_nil in Hcalls as ->.
  destruct (polar_make_axes_valid a (make_axes_ok a ax (or_intror Hax)))
    as (ax' & Hax' & Hplain).
  rewrite Hax in Hax'. injection Hax' as <-.
  apply polar_draw_clade_no_file_io in Hdraw
    as (es & hs & vs & He & _ & _ & Fe & _).
  simpl in He. rewrite He. repeat (apply Forall_app; split).
  - eapply Forall_impl; [exact Hplain|]. apply setup_no_file_io.
  - done.
  - apply Forall_fmap, Forall_true. by intros ? [].
  - apply Forall_fmap, Forall_true. by intros ? [].
  - apply Forall_singleton. by intros [].
  - constructor.
  - destruct (do_show a); [apply Forall_singleton; by intros [] | constructor].
Qed.

Lemma drawTree_call_valid (E : env) (lineWidth : Q) (marks : list string) :
  pyplot_importable E = true \/ pylab_importable E = true ->
  valid_call (with_linewidth E lineWidth)
    (mkArgs name false true AxesNone BranchLabelsNone LabelColorsNone
       marks "r" "bold" []).
Proof.
  intros Himp. split; [done|]. split; [done|]. split; [by left|constructor].
Qed.

Lemma drawMark_ok_imports (E : env) (a : args) (t : Tree) :
  (exists evs, Trees.drawMark E a t = Ok evs) \/
  (exists evs, CircTrees.drawMark E a t = Ok evs) ->
  pyplot_importable E = true \/ pylab_importable E = true.
Proof.
  unfold Trees.drawMark, CircTrees.drawMark, Trees.import_plt,
    CircTrees.import_plt.
  destruct (pyplot_importable E); [by left|].
  destruct (pylab_importable E); [by right|].
  intros [[evs H] | [evs H]]; discriminate H.
Qed.

(** C8.  [drawTree] reads its tree from [treeName + '.nwk'] (as Newick)
    and draws that tree: a run of [drawTree] returns exactly when the file
    is read, [drawMark] returns on the tree read (ladderized when asked; in
    the polar script with the common ancestor of the two taxa of [toMark]
    coloured red and with no label highlighted) and [savefig] writes the
    figure.  Its calls are then the three [rc] settings, the read, the calls
    of that run of [drawMark], [axis('off')], and last the [savefig] that
    writes the figure to [treeName + '.' + outFormat] with [format=outFormat]
    and [dpi=outDPI]; the calls of [drawMark] touch no file.  When the file
    cannot be read, [drawTree] raises what the read raised. *)
Theorem drawTree_files (E : env) (W : Trees.world) (treeName : string)
    (outX outY : Q) (outFormat : string) (outDPI : Q) (ladderize : bool)
    (fontSize lineWidth : Q) (marks : list string) :
  let rc := [rc_font fontSize; rc_lines lineWidth "k"; rc_figure outX 10] in
  let read := phylo_read (treeName +:+ ".nwk") "newick" in
  let call_of := mkArgs name false true AxesNone BranchLabelsNone
                   LabelColorsNone in
  let rect_out := savefig (treeName +:+ "." +:+ outFormat) outFormat
                    (Some "tight") (Some 0%Q) outDPI in
  let polar_out := savefig (treeName +:+ "." +:+ outFormat) outFormat None
                     None outDPI in
  (forall evs,
     Trees.drawTree E W treeName outX outY outFormat outDPI ladderize fontSize
       lineWidth marks = Ok evs <->
     exists t0 mid,
       Trees.Phylo_read W (treeName +:+ ".nwk") "newick" = Ok t0 /\
       Trees.drawMark (with_linewidth E lineWidth)
         (call_of marks "r" "bold" [])
         (if ladderize then Trees.ladderize_tree W t0 else t0) = Ok mid /\
       Trees.savefig_error W (rc ++ [read] ++ mid ++ [axis "off"]) rect_out
         = None /\
       evs = rc ++ [read] ++ mid ++ [axis "off"; rect_out]) /\
  (forall evs,
     CircTrees.drawTree E W treeName outX outY outFormat outDPI ladderize
       fontSize lineWidth marks = Ok evs <->
     exists t0 p7 mid,
       Trees.Phylo_read W (treeName +:+ ".nwk") "newick" = Ok t0 /\
       common_ancestor (if ladderize then Trees.ladderize_tree W t0 else t0)
         "XP_021076601.1_H(+)/Cl(-)_exchange_transporter_7_isoform_X3_Mus_pahari"
         "XP_012063553.1_PREDICTED:_H(+)/Cl(-)_exchange_transporter_7_Atta_cephalotes"
         = Ok p7 /\
       CircTrees.drawMark (with_linewidth E lineWidth)
         (call_of [] "r" "bold" [])
         (mkTree
            (update_at (set_color (Some color_r))
               (root (if ladderize then Trees.ladderize_tree W t0 else t0)) p7)
            (tree_name (if ladderize then Trees.ladderize_tree W t0 else t0)))
         = Ok mid /\
       Trees.savefig_error W (rc ++ [read] ++ mid ++ [axis "off"]) polar_out
         = None /\
       evs = rc ++ [read] ++ mid ++ [axis "off"; polar_out]) /\
  (forall a t mid,
     kwargs a = [] ->
     Trees.drawMark (with_linewidth E lineWidth) a t = Ok mid \/
     CircTrees.drawMark (with_linewidth E lineWidth) a t = Ok mid ->
     Forall (fun e => ~ is_file_io e) mid) /\
  (forall e,
     Trees.Phylo_read W (treeName +:+ ".nwk") "newick" = Raise e ->
     Trees.drawTree E W treeName outX outY outFormat outDPI ladderize fontSize
       lineWidth marks = Raise e /\
     CircTrees.drawTree E W treeName outX outY outFormat outDPI ladderize
       fontSize lineWidth marks = Raise e).
Proof.
  cbn zeta. split_and!.
  - intros evs. unfold Trees.drawTree. split.
    + destruct (Trees.Phylo_read W _ _) as [t0|]; [|done].
      cbn [mbind result_bind Py.bind].
      destruct (Trees.drawMark _ _ _) as [mid|] eqn:HM; [|done].
      cbn [mbind result_bind Py.bind].
      destruct (Trees.savefig_error W _ _) eqn:Hout; [done|]. intros [= <-].
      by exists t0, mid.
    + intros (t0 & mid & -> & HM & Hout & ->).
      cbn [mbind result_bind Py.bind]. rewrite HM.
      cbn [mbind result_bind Py.bind]. by rewrite Hout.
  - intros evs. unfold CircTrees.drawTree.
    change (default "" (CircTrees.toMark !! 0)) with
      "XP_021076601.1_H(+)/Cl(-)_exchange_transporter_7_isoform_X3_Mus_pahari".
    change (default "" (CircTrees.toMark !! 1)) with
      "XP_012063553.1_PREDICTED:_H(+)/Cl(-)_exchange_transporter_7_Atta_cephalotes".
    split.
    + destruct (Trees.Phylo_read W _ _) as [t0|]; [|done].
      cbn [mbind result_bind Py.bind].
      destruct (common_ancestor _ _ _) as [p7|] eqn:Hca; [|done].
      cbn [mbind result_bind Py.bind].
      destruct (CircTrees.drawMark _ _ _) as [mid|] eqn:HM; [|done].
      cbn [mbind result_bind Py.bind].
      destruct (Trees.savefig_error W _ _) eqn:Hout; [done|]. intros [= <-].
      by exists t0, p7, mid.
    + intros (t0 & p7 & mid & -> & Hca & HM & Hout & ->).
      cbn [mbind result_bind Py.bind]. rewrite Hca.
      cbn [mbind result_bind Py.bind]. rewrite HM.
      cbn [mbind result_bind Py.bind]. by rewrite Hout.
  - intros a t mid Hkw [HM | HM].
    + by eapply rect_drawMark_no_file_io.
    + by eapply polar_drawMark_no_file_io.
  - intros e Hread. unfold Trees.drawTree, CircTrees.drawTree.
    by rewrite Hread.
Qed.

Lemma drawTree_files_witness :
  exists mid,
    Trees.drawMark (with_linewidth sample_env 0.75)
      (mkArgs name false true AxesNone BranchLabelsNone LabelColorsNone
         Trees.toMark "r" "bold" []) sample_tree = Ok mid /\
    Trees.drawTree sample_env sample_world "orthologs" 12 10 "svg" 100 false 12
      0.75 Trees.toMark
    = Ok ([rc_font 12; rc_lines 0.75 "k"; rc_figure 12 10]
          ++ [phylo_read "orthologs.nwk" "newick"] ++ mid
          ++ [axis "off";
              savefig "orthologs.svg" "svg" (Some "tight") (Some 0%Q) 100]) /\
    Forall (fun e => ~ is_file_io e) mid /\
    Trees.drawTree sample_env sample_world "missing" 12 10 "svg" 100 false 12
      0.75 Trees.toMark = Raise (Py.FileNotFoundError "missing.nwk").
Proof.
  destruct (Trees.drawMark (with_linewidth sample_env 0.75)
              (mkArgs name false true AxesNone BranchLabelsNone LabelColorsNone
                 Trees.toMark "r" "bold" []) sample_tree)
    as [mid|] eqn:HM; [|vm_compute in HM; discriminate HM].
  exists mid. split; [reflexivity|].
  destruct (drawTree_files sample_env sample_world "orthologs" 12 10 "svg" 100
              false 12 0.75 Trees.toMark) as (Hrect & _ & Hio & _).
  destruct (drawTree_files sample_env sample_world "missing" 12 10 "svg" 100
              false 12 0.75 Trees.toMark) as (_ & _ & _ & Hfail).
  split_and!.
  - apply Hrect. exists sample_tree, mid. split_and!; [reflexivity|exact HM|reflexivity|reflexivity].
  - apply (Hio (mkArgs name false true AxesNone BranchLabelsNone
                  LabelColorsNone Trees.toMark "r" "bold" [])
             sample_tree mid eq_refl (or_introl HM)).
  - apply (Hfail (Py.FileNotFoundError "missing.nwk") eq_refl).
Defined.

(** * Further properties of the two scripts *)

(** ** The range of the vertical positions *)





(** ** The argument checks of [drawMark] *)

(** X2.  When a plotting library can be imported, a [branch_labels] that
    is neither falsy, a dict nor a callable makes both [drawMark] functions
    raise [TypeError], whatever the tree and the other arguments are (an
    invalid [axes] and malformed extra keyword arguments included). *)
Theorem drawMark_branch_labels_type_error (E : env) (a : args) (t : Tree) :
  pyplot_importable E = true \/ pylab_importable E = true ->
  branch_labels a = BranchLabelsOther ->
  Trees.drawMark E a t =
    Raise (Py.TypeError
             "branch_labels must be either a dict or a callable (function)") /\
  CircTrees.drawMark E a t =
    Raise (Py.TypeError
             "branch_labels must be either a dict or a callable (function)").
Proof.
  intros Himp Hbl.
  assert (Trees.import_plt E = Ok ()) as Hr.
  { unfold Trees.import_plt. destruct Himp as [-> | ->]; [done|].
    by destruct (pyplot_importable E). }
  assert (CircTrees.import_plt E = Ok ()) as Hp.
  { unfold CircTrees.import_plt. destruct Himp as [-> | ->]; [done|].
    by destruct (pyplot_importable E). }
  unfold Trees.drawMark, CircTrees.drawMark, CircTrees.format_branch_label,
    Trees.format_branch_label.
  by rewrite Hr, Hp, Hbl.
Qed.

Lemma drawMark_branch_labels_type_error_witness :
  Trees.drawMark sample_env
    (mkArgs name true true (AxesInvalid "3") BranchLabelsOther LabelColorsNone
       [] "r" "bold" [("xlim", Py.VInt 3)]) sample_tree =
    Raise (Py.TypeError
             "branch_labels must be either a dict or a callable (function)").
Proof.
  refine (proj1 (drawMark_branch_labels_type_error sample_env _ sample_tree
                   _ _)).
  - left. reflexivity.
  - reflexivity.
Defined.




(** ** The calls of one run of [drawMark], in order *)

Lemma process_kwargs_calls (E : env) (kws : list (string * Py.value)) :
  Forall (fun kv => exists e, Trees.process_kwarg E kv.1 kv.2 = Ok e) kws ->
  forall i evs,
    exists calls,
      Py.for_enumerate
        (fun _ kv evs => e ← Trees.process_kwarg E kv.1 kv.2; Ok (evs ++ [e]))
        kws i evs = Ok (evs ++ calls) /\
      Forall2 (fun kv e => Trees.process_kwarg E kv.1 kv.2 = Ok e) kws calls.
Proof.
  induction 1 as [|kv kws [e He] _ IH]; intros i evs.
  - exists []. split; [by rewrite app_nil_r | constructor].
  - destruct (IH (S i) (evs ++ [e])) as (calls & Hrun & Hall).
    exists (e :: calls). split; [|by constructor].
    cbn [Py.for_enumerate]. rewrite He. cbn [mbind result_bind Py.bind].
    rewrite Hrun. by rewrite <- app_assoc.
Qed.

Lemma rect_drawMark_trace (E : env) (a : args) (t : Tree) :
  valid_call E a ->
  finite_limits t ->
  exists fl x y ax cv aes calls,
    Trees.format_branch_label E a = Ok fl /\
    Trees.get_x_positions t = Ok x /\
    Trees.get_y_positions t = Ok y /\
    Trees.make_axes a = Ok ax /\
    Trees.draw_clade E a x y fl (root t) [] 0 "k" (rc_linewidth E)
      (mkCanvas ax [] []) = Ok cv /\
    Trees.aesthetics t x y = Ok aes /\
    Forall2 (fun kv e => Trees.process_kwarg E kv.1 kv.2 = Ok e) (kwargs a) calls /\
    Trees.drawMark E a t =
      Ok ((events cv
           ++ (add_collection <$> horizontal_linecollections cv)
           ++ (add_collection <$> vertical_linecollections cv)
           ++ aes) ++ calls ++ (if do_show a then [show] else [])).
Proof.
  intros Hvalid (x' & y' & aes & Hx' & Hy' & Haes).
  destruct (valid_call_format E a Hvalid) as [fl Hfl].
  pose proof (valid_call_import_rect E a Hvalid) as Himport.
  destruct Hvalid as (Himp & Hbl & Hax & Hkw).
  destruct (rect_make_axes_valid a Hax) as (ax & Hmk & _).
  destruct (rect_layout_and_draw E a fl t 0 "k" (rc_linewidth E)
              (mkCanvas ax [] [])) as (x & y & cv & Hx & Hy & Hdom & Hrun).
  rewrite Hx in Hx'. injection Hx' as <-.
  rewrite Hy in Hy'. injection Hy' as <-.
  destruct (process_kwargs_calls E (kwargs a) Hkw 0
              ((events cv
                ++ (add_collection <$> horizontal_linecollections cv)
                ++ (add_collection <$> vertical_linecollections cv)) ++ aes))
    as (calls & Hevs & Hcalls).
  exists fl, x, y, ax, cv, aes, calls. split_and!; try done.
  unfold Trees.drawMark, Trees.process_kwargs. rewrite Himport.
  cbn [mbind result_bind Py.bind]. rewrite Hfl, Hx, Hy, Hmk.
  cbn [mbind result_bind Py.bind]. rewrite Hrun.
  cbn [mbind result_bind Py.bind]. rewrite Haes.
  cbn [mbind result_bind Py.bind]. rewrite Hevs.
  cbn [mbind result_bind Py.bind].
  destruct (do_show a); rewrite <- ?app_assoc; by rewrite ?app_nil_r.
Qed.

Lemma polar_drawMark_trace (E : env) (a : args) (t : Tree) :
  valid_call E a ->
  exists fl x y ax cv calls,
    Trees.format_branch_label E a = Ok fl /\
    CircTrees.get_x_positions t true =
      Ok (x, max_list (length <$> get_terminals t)) /\
    CircTrees.get_y_positions t = Ok y /\
    CircTrees.make_axes a = Ok ax /\
    CircTrees.draw_clade E x y fl (root t) [] 0 "k" (rc_linewidth E)
      (mkCanvas ax [] []) = Ok cv /\
    Forall2 (fun kv e => Trees.process_kwarg E kv.1 kv.2 = Ok e) (kwargs a) calls /\
    CircTrees.drawMark E a t =
      Ok ((events cv
           ++ (add_collection <$> horizontal_linecollections cv)
           ++ (add_collection <$> vertical_linecollections cv)
           ++ [set_rmax (inject_Z (Z.of_nat (max_list (length <$> get_terminals t))
                                   + 1))])
          ++ calls ++ (if do_show a then [show] else [])).
Proof.
  intros Hvalid.
  destruct (valid_call_format E a Hvalid) as [fl Hfl].
  pose proof (valid_call_import_rect E a Hvalid) as Himport.
  destruct Hvalid as (Himp & Hbl & Hax & Hkw).
  destruct (polar_make_axes_valid a Hax) as (ax & Hmk & _).
  destruct (polar_layout_and_draw E fl t 0 "k" (rc_linewidth E)
              (mkCanvas ax [] [])) as (x & y & cv & Hx & Hy & Hdom & Hrun).
  destruct (process_kwargs_calls E (kwargs a) Hkw 0
              (events cv
               ++ (add_collection <$> horizontal_linecollections cv)
               ++ (add_collection <$> vertical_linecollections cv)
               ++ [set_rmax (inject_Z
                     (Z.of_nat (max_list (length <$> get_terminals t)) + 1))]))
    as (calls & Hevs & Hcalls).
  exists fl, x, y, ax, cv, calls. split_and!; try done.
  unfold CircTrees.drawMark, CircTrees.import_plt, CircTrees.format_branch_label,
    Trees.process_kwargs.
  unfold Trees.import_plt in Himport. unfold CircTrees.module_globals.
  unfold Trees.module_globals in Himport.
  destruct (pyplot_importable E), (pylab_importable E);
    try (by destruct Himp);
    cbn [mbind result_bind Py.bind]; rewrite Hfl, Hx;
    cbn [mbind result_bind Py.bind]; rewrite Hy, Hmk;
    cbn [mbind result_bind Py.bind]; rewrite Hrun;
    cbn [mbind result_bind Py.bind]; rewrite Hevs;
    cbn [mbind result_bind Py.bind];
    destruct (do_show a); rewrite <- ?app_assoc; by rewrite ?app_nil_r.
Qed.

Lemma make_axes_figure_calls (a : args) (ax : list event) :
  Trees.make_axes a = Ok ax \/ CircTrees.make_axes a = Ok ax ->
  Forall is_figure_call ax.
Proof.
  unfold Trees.make_axes, CircTrees.make_axes, Trees.invalid_axes.
  intros [H | H]; destruct (axes a) as [| |shown|[|item [|item' items]]];
    simplify_eq; by repeat constructor.
Qed.

Lemma aesthetics_figure_calls (t : Tree) (x y : gmap path Q) (aes : list event) :
  Trees.aesthetics t x y = Ok aes -> Forall is_figure_call aes.
Proof.
  intros (xmax & ymax & _ & _ & _ & _ & _ & ->)%aesthetics_ok.
  apply Forall_app. split.
  - destruct (tree_name t) as [n|]; [case_bool_decide|];
      by repeat constructor.
  - by repeat constructor.
Qed.

Lemma rect_draw_clade_figure_calls (E : env) (a : args) (x y : gmap path Q)
    (fl : Clade -> path -> option string) (c : Clade) p x_start color lw cv cv' :
  Trees.draw_clade E a x y fl c p x_start color lw cv = Ok cv' ->
  extends_with (fun e => is_text e = true) (fun _ => True) cv cv'.
Proof.
  rewrite rect_draw_clade_generic. intros Hrun.
  refine (draw_generic_rel E _ _ x y _ (fun _ => True)
            (extends_with_refl _ _) (extends_with_trans _ _) _ _
            c p x_start color lw cv cv' I _ Hrun); [| |done].
  - intros. unfold rect_own.
    eapply extends_with_trans; [by apply rect_lines_extends|].
    eapply extends_with_trans.
    + by apply draw_label_extends.
    + by apply draw_conf_label_extends.
  - intros. by apply rect_lines_extends.
Qed.

Lemma polar_draw_clade_figure_calls (E : env) (x y : gmap path Q)
    (fl : Clade -> path -> option string) (c : Clade) p x_start color lw cv cv' :
  CircTrees.draw_clade E x y fl c p x_start color lw cv = Ok cv' ->
  extends_with (fun e => is_text e = true \/ is_plot e = true) (fun _ => True)
    cv cv'.
Proof.
  rewrite polar_draw_clade_generic. intros Hrun.
  refine (draw_generic_rel E _ _ x y _ (fun _ => True)
            (extends_with_refl _ _) (extends_with_trans _ _) _ _
            c p x_start color lw cv cv' I _ Hrun); [| |done].
  - intros. unfold polar_own.
    eapply extends_with_trans.
    + apply polar_lines_extends. by right.
    + apply draw_conf_label_extends. by left.
  - intros. apply polar_lines_extends. by right.
Qed.

Lemma rect_drawMark_dispatch (E : env) (a : args) (t : Tree) :
  valid_call E a ->
  finite_limits t ->
  exists pre calls,
    Trees.drawMark E a t =
      Ok (pre ++ calls ++ (if do_show a then [show] else [])) /\
    Forall is_figure_call pre /\
    Forall2 (fun kv e => Trees.process_kwarg E kv.1 kv.2 = Ok e /\
                         exists args kw, e = call kv.1 args kw)
      (kwargs a) calls.
Proof.
  intros Hvalid Hfin.
  destruct (rect_drawMark_trace E a t Hvalid Hfin)
    as (fl & x & y & ax & cv & aes & calls & _ & _ & _ & Hax & Hdraw & Haes
        & Hcalls & Hrun).
  eexists _, calls. split; [exact Hrun|]. split.
  - apply rect_draw_clade_figure_calls in Hdraw
      as (es & hs & vs & He & _ & _ & Fe & _).
    simpl in He. rewrite He. repeat (apply Forall_app; split).
    + eapply make_axes_figure_calls. by left.
    + eapply Forall_impl; [exact Fe|]. by intros [].
    + by apply Forall_fmap, Forall_true.
    + by apply Forall_fmap, Forall_true.
    + by eapply aesthetics_figure_calls.
  - eapply Forall2_impl; [exact Hcalls|]. intros kv e He.
    split; [done|]. exact (process_kwarg_call _ _ _ _ He).
Qed.

Lemma polar_drawMark_dispatch (E : env) (a : args) (t : Tree) :
  valid_call E a ->
  exists pre calls,
    CircTrees.drawMark E a t =
      Ok (pre ++ calls ++ (if do_show a then [show] else [])) /\
    Forall is_figure_call pre /\
    Forall2 (fun kv e => Trees.process_kwarg E kv.1 kv.2 = Ok e /\
                         exists args kw, e = call kv.1 args kw)
      (kwargs a) calls.
Proof.
  intros Hvalid.
  destruct (polar_drawMark_trace E a t Hvalid)
    as (fl & x & y & ax & cv & calls & _ & _ & _ & Hax & Hdraw
        & Hcalls & Hrun).
  eexists _, calls. split; [exact Hrun|]. split.
  - apply polar_draw_clade_figure_calls in Hdraw
      as (es & hs & vs & He & _ & _ & Fe & _).
    simpl in He. rewrite He. repeat (apply Forall_app; split).
    + eapply make_axes_figure_calls. by right.
    + eapply Forall_impl; [exact Fe|]. by intros [] [|].
    + by apply Forall_fmap, Forall_true.
    + by apply Forall_fmap, Forall_true.
    + by repeat constructor.
  - eapply Forall2_impl; [exact Hcalls|]. intros kv e He.
    split; [done|]. exact (process_kwarg_call _ _ _ _ He).
Qed.



(** ** Extra keyword arguments that cannot be dispatched *)



(** ** [drawTree] *)

Lemma dispatch_no_show (E : env) (kws : list (string * Py.value))
    (calls : list event) :
  Forall2 (fun kv e => Trees.process_kwarg E kv.1 kv.2 = Ok e /\
                       exists args kw, e = call kv.1 args kw) kws calls ->
  show ∉ calls.
Proof.
  induction 1 as [|kv e kws calls [_ (args & kw & ->)] _ IH].
  - apply not_elem_of_nil.
  - apply not_elem_of_cons. by split.
Qed.

Lemma figure_calls_no_show (pre : list event) :
  Forall is_figure_call pre -> show ∉ pre.
Proof.
  intros Hpre Hin. rewrite Forall_forall in Hpre. by apply (Hpre show).
Qed.

(** X6.  [drawTree] never opens a window: whatever the tree and the
    arguments, no run of either [drawTree] calls [plt.show()]. *)
Theorem drawTree_never_shows (E : env) (W : Trees.world) (treeName : string)
    (outX outY : Q) (outFormat : string) (outDPI : Q) (ladderize : bool)
    (fontSize lineWidth : Q) (marks : list string) (evs : list event) :
  Trees.drawTree E W treeName outX outY outFormat outDPI ladderize fontSize
    lineWidth marks = Ok evs \/
  CircTrees.drawTree E W treeName outX outY outFormat outDPI ladderize fontSize
    lineWidth marks = Ok evs ->
  show ∉ evs.
Proof.
  intros [Hrun | Hrun].
  - unfold Trees.drawTree in Hrun.
    destruct (Trees.Phylo_read W _ _) as [t0|]; [|done].
    cbn [mbind result_bind Py.bind] in Hrun.
    destruct (Trees.drawMark _ _ _) as [mid|] eqn:HM; [|done].
    cbn [mbind result_bind Py.bind] in Hrun.
    destruct (Trees.savefig_error W _ _); [done|]. injection Hrun as <-.
    pose proof (drawMark_ok_imports _ _ _ (or_introl (ex_intro _ _ HM)))
      as Himp.
    destruct (rect_drawMark_dispatch _ _
                (if ladderize then Trees.ladderize_tree W t0 else t0)
                (drawTree_call_valid E lineWidth marks Himp)
                (drawMark_ok_finite_limits _ _ _ _ HM))
      as (pre & calls & Hmid & Hpre & Hcalls).
    rewrite HM in Hmid. injection Hmid as ->.
    apply dispatch_no_show in Hcalls. apply figure_calls_no_show in Hpre.
    intros Hin.
    repeat (apply elem_of_cons in Hin as [Hin|Hin]; [discriminate|]).
    apply elem_of_app in Hin as [Hin|Hin].
    + apply elem_of_app in Hin as [Hin|Hin]; [done|].
      apply elem_of_app in Hin as [Hin|Hin]; [done|].
      by apply elem_of_nil in Hin.
    + repeat (apply elem_of_cons in Hin as [Hin|Hin]; [discriminate|]).
      by apply elem_of_nil in Hin.
  - unfold CircTrees.drawTree in Hrun.
    destruct (Trees.Phylo_read W _ _) as [t0|]; [|done].
    cbn [mbind result_bind Py.bind] in Hrun.
    destruct (common_ancestor _ _ _) as [p7|]; [|done].
    cbn [mbind result_bind Py.bind] in Hrun.
    destruct (CircTrees.drawMark _ _ _) as [mid|] eqn:HM; [|done].
    cbn [mbind result_bind Py.bind] in Hrun.
    destruct (Trees.savefig_error W _ _); [done|]. injection Hrun as <-.
    pose proof (drawMark_ok_imports _ _ _ (or_intror (ex_intro _ _ HM)))
      as Himp.
    destruct (polar_drawMark_dispatch _ _
                (mkTree
                   (update_at (set_color (Some color_r))
                      (root (if ladderize then Trees.ladderize_tree W t0 else t0))
                      p7)
                   (tree_name (if ladderize then Trees.ladderize_tree W t0
                               else t0)))
                (drawTree_call_valid E lineWidth [] Himp))
      as (pre & calls & Hmid & Hpre & Hcalls).
    rewrite HM in Hmid. injection Hmid as ->.
    apply dispatch_no_show in Hcalls. apply figure_calls_no_show in Hpre.
    intros Hin.
    repeat (apply elem_of_cons in Hin as [Hin|Hin]; [discriminate|]).
    apply elem_of_app in Hin as [Hin|Hin].
    + apply elem_of_app in Hin as [Hin|Hin]; [done|].
      apply elem_of_app in Hin as [Hin|Hin]; [done|].
      by apply elem_of_nil in Hin.
    + repeat (apply elem_of_cons in Hin as [Hin|Hin]; [discriminate|]).
      by apply elem_of_nil in Hin.
Qed.

Lemma drawTree_never_shows_witness :
  exists evs,
    Trees.drawTree sample_env sample_world "orthologs" 12 10 "svg" 100 false 12
      0.75 Trees.toMark = Ok evs /\ show ∉ evs.
Proof.
  eexists. split; [vm_compute; reflexivity|].
  apply (drawTree_never_shows sample_env sample_world "orthologs" 12 10 "svg"
           100 false 12 0.75 Trees.toMark).
  left. vm_compute. reflexivity.
Defined.

(** ** Highlighting *)

Lemma unmarked_unfold (label_of : Clade -> option string) (marks : list string)
    (c : Clade) :
  unmarked label_of marks c =
  match label_of c with
  | Some label => negb (bool_decide (label ∈ marks))
  | None => true
  end && forallb (unmarked label_of marks) (clades c).
Proof. by destruct c. Qed.

Lemma draw_label_unmarked (a : args) (c : Clade) (x_here y_here : Q)
    (cv : canvas) :
  match label_func a c with
  | Some label => negb (bool_decide (label ∈ mark a))
  | None => true
  end = true ->
  Trees.draw_label a c x_here y_here cv =
  Trees.draw_label (with_mark a []) c x_here y_here cv.
Proof.
  unfold Trees.draw_label, with_mark. cbn [label_func mark].
  destruct (label_func a c) as [label|]; [|done]. intros Hl.
  apply negb_true_iff in Hl. rewrite Hl.
  rewrite (bool_decide_eq_false_2 (label ∈ [])); [done|].
  apply not_elem_of_nil.
Qed.

Lemma rect_draw_clade_unmarked (E : env) (a : args) (x y : gmap path Q)
    (fl : Clade -> path -> option string) (c : Clade) :
  unmarked (label_func a) (mark a) c = true ->
  forall p x_start color lw cv,
    Trees.draw_clade E a x y fl c p x_start color lw cv =
    Trees.draw_clade E (with_mark a []) x y fl c p x_start color lw cv.
Proof.
  induction c as [c IH] using clade_ind_children.
  rewrite unmarked_unfold. intros [Hown Hsub]%andb_true_iff.
  intros p x_start color lw cv.
  rewrite !rect_draw_clade_generic, !draw_generic_unfold.
  assert (forall xs xh yh col w cv0,
            rect_own a fl c p xs xh yh col w cv0 =
            rect_own (with_mark a []) fl c p xs xh yh col w cv0) as Hsame.
  { intros. unfold rect_own. by rewrite draw_label_unmarked. }
  destruct (Py.getitem x p) as [x_here|]; [|done].
  destruct (Py.getitem y p) as [y_here|]; [|done].
  cbn [mbind result_bind Py.bind]. rewrite Hsame.
  destruct (is_terminal c); [done|].
  destruct (Py.getitem y (p ++ [0])) as [y_top|]; [|done].
  destruct (Py.getitem y (p ++ [length (clades c) - 1])) as [y_bot|]; [|done].
  cbn [mbind result_bind Py.bind].
  apply for_enumerate_ext. rewrite Forall_forall. intros s Hs i cv0.
  rewrite <- !rect_draw_clade_generic.
  rewrite Forall_forall in IH. apply IH; [done|].
  rewrite forallb_forall in Hsub. apply Hsub. by apply list_elem_of_In.
Qed.

(** X7.  Highlighting only touches the labels it names: when no clade of
    the tree has a label in [mark], the rectangular [drawMark] makes exactly
    the calls it makes with an empty [mark] (or raises the same exception).
    The polar [drawMark] ignores [mark] altogether. *)
Theorem drawMark_unmatched_marks (E : env) (a : args) (t : Tree) :
  unmarked (label_func a) (mark a) (root t) = true ->
  Trees.drawMark E a t = Trees.drawMark E (with_mark a []) t /\
  (forall marks,
     CircTrees.drawMark E (with_mark a marks) t = CircTrees.drawMark E a t).
Proof.
  intros Hun. split; [|done].
  unfold Trees.drawMark.
  change (Trees.format_branch_label E (with_mark a []))
    with (Trees.format_branch_label E a).
  change (Trees.make_axes (with_mark a [])) with (Trees.make_axes a).
  change (kwargs (with_mark a [])) with (kwargs a).
  change (do_show (with_mark a [])) with (do_show a).
  destruct (Trees.import_plt E); [|done].
  destruct (Trees.format_branch_label E a) as [fl|]; [|done].
  destruct (Trees.get_x_positions t) as [x|]; [|done].
  destruct (Trees.get_y_positions t) as [y|]; [|done].
  destruct (Trees.make_axes a) as [ax|]; [|done].
  cbn [mbind result_bind Py.bind].
  by rewrite (rect_draw_clade_unmarked E a x y fl (root t) Hun).
Qed.

Lemma drawMark_unmatched_marks_witness :
  Trees.drawMark sample_env (with_mark mark_A ["Z"]) sample_tree =
  Trees.drawMark sample_env (with_mark (with_mark mark_A ["Z"]) []) sample_tree.
Proof.
  refine (proj1 (drawMark_unmatched_marks sample_env (with_mark mark_A ["Z"])
                   sample_tree _)).
  vm_compute. reflexivity.
Defined.

(** ** The hard-coded taxa of the polar [drawTree] *)

Lemma check_children_none (m : path -> Clade -> bool) (here : path)
    (rest : list Clade) :
  Forall (fun s => forall h, check_in_path m s h = None) rest ->
  forall i,
    Py.fold_enumerate
      (fun i child found =>
         match found with
         | Some q => Some q
         | None => cons i <$> check_in_path m child (here ++ [i])
         end) rest i None = None.
Proof.
  induction 1 as [|s rest Hs _ IH]; intros i; [done|].
  cbn [Py.fold_enumerate]. rewrite Hs. apply IH.
Qed.

Lemma nowhere_named_unfold (s : string) (c : Clade) :
  nowhere_named s c =
  negb (bool_decide (name c = Some s)) && forallb (nowhere_named s) (clades c).
Proof. by destruct c. Qed.

Lemma get_path_nowhere_named (s : string) (c : Clade) :
  nowhere_named s c = true ->
  forall here, check_in_path (string_matcher s) c here = None.
Proof.
  induction c as [c IH] using clade_ind_children.
  rewrite nowhere_named_unfold. intros [Hown Hsub]%andb_true_iff here.
  rewrite check_in_path_unfold. unfold string_matcher at 1.
  apply negb_true_iff in Hown. rewrite Hown.
  apply check_children_none. rewrite Forall_forall in IH.
  rewrite Forall_forall. intros d Hd. apply IH; [done|].
  rewrite forallb_forall in Hsub. apply Hsub. by apply list_elem_of_In.
Qed.

(** X8.  The polar [drawTree] looks up the two taxa of its module-level
    [toMark] in every tree it is given, whatever its [mark] argument is:
    when the tree file is read and one of the two names is the name of no
    clade of the tree, the run ends with the [ValueError] of
    [common_ancestor] and no figure is written. *)
Theorem polar_drawTree_missing_taxon (E : env) (W : Trees.world)
    (treeName : string) (outX outY : Q) (outFormat : string) (outDPI : Q)
    (ladderize : bool) (fontSize lineWidth : Q) (marks : list string)
    (t0 : Tree) (taxon : string) :
  Trees.Phylo_read W (treeName +:+ ".nwk") "newick" = Ok t0 ->
  taxon ∈ CircTrees.toMark ->
  nowhere_named taxon
    (root (if ladderize then Trees.ladderize_tree W t0 else t0)) = true ->
  CircTrees.drawTree E W treeName outX outY outFormat outDPI ladderize fontSize
    lineWidth marks = Raise (Py.ValueError "target is not in this tree").
Proof.
  intros Hread Hin Hno. unfold CircTrees.drawTree. rewrite Hread.
  cbn [mbind result_bind Py.bind].
  change (default "" (CircTrees.toMark !! 0)) with
    "XP_021076601.1_H(+)/Cl(-)_exchange_transporter_7_isoform_X3_Mus_pahari".
  change (default "" (CircTrees.toMark !! 1)) with
    "XP_012063553.1_PREDICTED:_H(+)/Cl(-)_exchange_transporter_7_Atta_cephalotes".
  unfold common_ancestor, get_path.
  pose proof (get_path_nowhere_named taxon _ Hno []) as Hnone.
  unfold CircTrees.toMark in Hin.
  apply elem_of_cons in Hin as [-> | Hin].
  - by rewrite Hnone.
  - apply list_elem_of_singleton in Hin as ->.
    set (found := check_in_path
                    (string_matcher
                       "XP_021076601.1_H(+)/Cl(-)_exchange_transporter_7_isoform_X3_Mus_pahari")
                    _ _).
    rewrite Hnone. by destruct found.
Qed.

Lemma polar_drawTree_missing_taxon_witness :
  CircTrees.drawTree sample_env sample_world "orthologs" 12 10 "svg" 100 false
    12 0.75 ["A"] = Raise (Py.ValueError "target is not in this tree").
Proof.
  refine (polar_drawTree_missing_taxon sample_env sample_world "orthologs" 12
            10 "svg" 100 false 12 0.75 ["A"] sample_tree
            "XP_021076601.1_H(+)/Cl(-)_exchange_transporter_7_isoform_X3_Mus_pahari"
            _ _ _).
  - reflexivity.
  - apply elem_of_cons. by left.
  - vm_compute. reflexivity.
Defined.

(** ** Where the branch of a clade starts *)

Section branch_start.
Context (E : env)
        (own : Clade -> path -> Q -> Q -> Q -> string -> Q -> canvas -> canvas)
        (joint : Q -> Q -> Q -> string -> Q -> canvas -> canvas)
        (x y : gmap path Q)
        (R : canvas -> canvas -> Prop)
        (Hrefl : Reflexive R) (Htrans : Transitive R)
        (Hown : forall d k xs xh yh col lw cv,
                  R cv (own d k xs xh yh col lw cv))
        (Hjoint : forall xh yb yt col lw cv,
                    R cv (joint xh yb yt col lw cv)).

End branch_start.



(** ** How many lines are drawn *)








Section measure.
Context (E : env)
        (own : Clade -> path -> Q -> Q -> Q -> string -> Q -> canvas -> canvas)
        (joint : Q -> Q -> Q -> string -> Q -> canvas -> canvas)
        (x y : gmap path Q)
        (m : canvas -> nat) (a b : nat)
        (Hown : forall d k xs xh yh col lw cv,
                  m (own d k xs xh yh col lw cv) = m cv + a)
        (Hjoint : forall xh yb yt col lw cv,
                    m (joint xh yb yt col lw cv) = m cv + b).


End measure.








(** ** The limits of the rectangular axes *)





(** ** The polar layout and its radial limit *)

Lemma terminal_below (c : Clade) :
  exists r d, clade_at c r = Some d /\ is_terminal d = true /\
              (is_terminal c = false -> r <> []).
Proof.
  induction c as [c IH] using clade_ind_children.
  destruct (clades c) as [|s rest] eqn:Hc.
  - exists [], c. split; [done|]. unfold is_terminal. rewrite Hc.
    split; [done|]. by intros.
  - apply Forall_cons in IH as [(r & d & Hr & Hd & _) _].
    exists (0 :: r), d. split; [simpl; by rewrite Hc|]. split; [done|].
    by intros.
Qed.

Lemma internal_above_treeDepth (t : Tree) (q : path) (d : Clade) :
  clade_at (root t) q = Some d -> is_terminal d = false ->
  length q < max_list (length <$> get_terminals t).
Proof.
  intros Hq Hd. destruct (terminal_below d) as (r & leaf & Hr & Hleaf & Hne).
  assert (q ++ r ∈ get_terminals t) as Hin.
  { apply get_terminals_spec. exists leaf. split; [|done].
    rewrite clade_at_app, Hq. exact Hr. }
  assert (length (q ++ r) ≤ max_list (length <$> get_terminals t)) as Hle.
  { apply max_list_elem_of_le, list_elem_of_fmap. by exists (q ++ r). }
  rewrite length_app in Hle. specialize (Hne Hd).
  destruct r; [done|]. simpl in Hle. lia.
Qed.

(** X12.  In the polar script, for a tree whose root has no branch length,
    a call that passes the argument checks places every terminal on the
    circle of radius [treeDepth], every clade with children strictly inside
    it, at its number of edges from the root, and sets the radial limit to
    [treeDepth + 1], outside all of them. *)
Theorem polar_layout_inside_rmax (E : env) (a : args) (t : Tree) :
  valid_call E a ->
  (branch_length_or_0 (root t) == 0)%Q ->
  exists evs x treeDepth,
    CircTrees.drawMark E a t = Ok evs /\
    CircTrees.get_x_positions t true = Ok (x, treeDepth) /\
    set_rmax (inject_Z (Z.of_nat treeDepth + 1)) ∈ evs /\
    forall q d, clade_at (root t) q = Some d ->
      exists r, x !! q = Some r /\
        (r < inject_Z (Z.of_nat treeDepth + 1))%Q /\
        if is_terminal d then (r == inject_Z (Z.of_nat treeDepth))%Q
        else (r == inject_Z (Z.of_nat (length q)))%Q /\
             (r < inject_Z (Z.of_nat treeDepth))%Q.
Proof.
  intros Hvalid Hroot.
  destruct (polar_drawMark_trace E a t Hvalid)
    as (fl & x & y & ax & cv & calls & _ & Hx & _ & _ & _ & _ & Hrun).
  destruct (polar_get_x_positions_lookup t) as (x' & Hx' & Hlook).
  rewrite Hx in Hx'. injection Hx' as <-.
  eexists _, x, _. split; [exact Hrun|]. split; [exact Hx|]. split.
  - apply elem_of_app. left. do 3 (apply elem_of_app; right).
    apply elem_of_cons. by left.
  - intros q d Hq. destruct (Hlook q d Hq) as (v & Hv & Hxq).
    eexists. split; [exact Hxq|].
    rewrite depths_lookup in Hv. apply depth_along_unit in Hv.
    destruct (is_terminal d) eqn:Hd.
    + split; [|done]. rewrite <- Zlt_Qlt. lia.
    + pose proof (internal_above_treeDepth t q d Hq Hd) as Hlt.
      assert (v == inject_Z (Z.of_nat (length q)))%Q as Hveq.
      { rewrite Hv, Hroot. apply Qplus_0_l. }
      rewrite Hveq. split; [|split; [done|]]; rewrite <- Zlt_Qlt; lia.
Qed.

Lemma polar_layout_inside_rmax_witness :
  exists evs x treeDepth,
    CircTrees.drawMark sample_env mark_A sample_tree = Ok evs /\
    CircTrees.get_x_positions sample_tree true = Ok (x, treeDepth) /\
    set_rmax (inject_Z (Z.of_nat treeDepth + 1)) ∈ evs /\
    forall q d, clade_at (root sample_tree) q = Some d ->
      exists r, x !! q = Some r /\
        (r < inject_Z (Z.of_nat treeDepth + 1))%Q /\
        if is_terminal d then (r == inject_Z (Z.of_nat treeDepth))%Q
        else (r == inject_Z (Z.of_nat (length q)))%Q /\
             (r < inject_Z (Z.of_nat treeDepth))%Q.
Proof.
  refine (polar_layout_inside_rmax sample_env mark_A sample_tree _ _).
  - split; [left; reflexivity|]. split; [discriminate|].
    split; [left; reflexivity|]. constructor.
  - reflexivity.
Defined.

(** ** Branch labels switched off *)






(** ** Where a branch label is written *)




(** ** The default branch labels *)

Lemma py_int_whole (c : Q) (n : Z) : (c == inject_Z n)%Q -> Py.int c = n.
Proof.
  unfold Qeq, inject_Z, Py.int. cbn [Qnum Qden]. intros Heq.
  rewrite Z.mul_1_r in Heq. rewrite Heq. apply Z.quot_mul. done.
Qed.

(** X15.  By default ([show_confidence] set, no [branch_labels]) the label
    of a branch is the confidence of its clade: a clade without the
    [confidences] attribute and without a confidence has no label, and a
    confidence that is a whole number is written as that integer, without
    a decimal point, in both scripts. *)
Theorem default_branch_label_whole (E : env) (a : args) :
  branch_labels a = BranchLabelsNone ->
  show_confidence a = true ->
  exists fl,
    Trees.format_branch_label E a = Ok fl /\
    CircTrees.format_branch_label E a = Ok fl /\
    forall (d : Clade) (p : path),
      confidences d = None ->
      (confidence d = None -> fl d p = None) /\
      (forall c n, confidence d = Some c -> (c == inject_Z n)%Q ->
         fl d p = Some (pretty n)).
Proof.
  intros Hbl Hconf. unfold CircTrees.format_branch_label,
    Trees.format_branch_label. rewrite Hbl, Hconf.
  eexists. split; [done|]. split; [done|]. intros d p ->. split.
  - by intros ->.
  - intros c n -> Heq. cbn [fmap option_fmap option_map].
    unfold Trees.conf2str. rewrite (py_int_whole c n Heq).
    rewrite (proj2 (Qeq_bool_iff _ _)); [done|]. by symmetry.
Qed.

Lemma default_branch_label_whole_witness :
  exists fl,
    Trees.format_branch_label sample_env mark_A = Ok fl /\
    fl (mkClade None None (Some (190 # 2)) None None None []) [] = Some "95".
Proof.
  destruct (default_branch_label_whole sample_env mark_A eq_refl eq_refl)
    as (fl & Hfl & _ & Hlab).
  exists fl. split; [exact Hfl|].
  exact (proj2 (Hlab (mkClade None None (Some (190 # 2)) None None None []) []
                  eq_refl) (190 # 2) 95%Z eq_refl eq_refl).
Defined.

(** ** The width of the lines *)

Lemma widthless_unfold (c : Clade) :
  widthless c =
  match width c with
  | None => true
  | Some _ => false
  end && forallb widthless (clades c).
Proof. by destruct c. Qed.

Lemma forallb_insert_same {A} (f : A -> bool) (l : list A) :
  forall i a b,
    l !! i = Some a -> f b = f a -> forallb f (<[i := b]> l) = forallb f l.
Proof.
  induction l as [|h l IH]; intros [|i] a b Hi Hf; simpl in *; try done.
  - simplify_eq. by rewrite Hf.
  - by rewrite (IH i a b).
Qed.

Lemma widthless_update_color (col : option BranchColor) (p : path) :
  forall c, widthless (update_at (set_color col) c p) = widthless c.
Proof.
  induction p as [|i p IH]; intros c; simpl.
  - by rewrite !widthless_unfold.
  - destruct (clades c !! i) as [s|] eqn:Hi; [|done].
    rewrite !(widthless_unfold c), widthless_unfold. cbn [width clades].
    by rewrite (forallb_insert_same widthless (clades c) i s _ Hi (IH s)).
Qed.

Lemma draw_generic_widthless (E : env)
    (own : Clade -> path -> Q -> Q -> Q -> string -> Q -> canvas -> canvas)
    (joint : Q -> Q -> Q -> string -> Q -> canvas -> canvas)
    (x y : gmap path Q) (lw : Q) (c : Clade) :
  widthless c = true ->
  forall p x_start color cv,
    draw_generic E own joint x y c p x_start color lw cv =
    draw_generic E (fun d k xs xh yh col _ cv => own d k xs xh yh col lw cv)
      (fun xh yb yt col _ cv => joint xh yb yt col lw cv)
      x y c p x_start color lw cv.
Proof.
  induction c as [c IH] using clade_ind_children.
  rewrite widthless_unfold. intros [Hown Hsub]%andb_true_iff.
  intros p x_start color cv. rewrite !draw_generic_unfold.
  assert (own_lw E c lw = lw) as ->.
  { unfold own_lw. by destruct (width c). }
  destruct (Py.getitem x p) as [x_here|]; [|done].
  destruct (Py.getitem y p) as [y_here|]; [|done].
  cbn [mbind result_bind Py.bind].
  destruct (is_terminal c); [done|].
  destruct (Py.getitem y (p ++ [0])) as [y_top|]; [|done].
  destruct (Py.getitem y (p ++ [length (clades c) - 1])) as [y_bot|]; [|done].
  cbn [mbind result_bind Py.bind].
  apply for_enumerate_ext. rewrite Forall_forall. intros s Hs i cv0.
  rewrite Forall_forall in IH. apply IH; [done|].
  rewrite forallb_forall in Hsub. apply Hsub. by apply list_elem_of_In.
Qed.

Lemma rect_draw_clade_widthless (E : env) (a : args) (x y : gmap path Q)
    (fl : Clade -> path -> option string) (c : Clade) p x_start color lw cv cv' :
  widthless c = true ->
  Trees.draw_clade E a x y fl c p x_start color lw cv = Ok cv' ->
  extends_with (fun e => is_text e = true) (fun s => seg_lw s = lw) cv cv'.
Proof.
  intros Hc. rewrite rect_draw_clade_generic, draw_generic_widthless by done.
  intros Hrun.
  refine (draw_generic_rel E _ _ x y _ (fun _ => True)
            (extends_with_refl _ _) (extends_with_trans _ _) _ _
            c p x_start color lw cv cv' I _ Hrun); [| |done].
  - intros. unfold rect_own.
    eapply extends_with_trans; [by apply rect_lines_extends|].
    eapply extends_with_trans.
    + by apply draw_label_extends.
    + by apply draw_conf_label_extends.
  - intros. by apply rect_lines_extends.
Qed.

Lemma polar_draw_clade_widthless (E : env) (x y : gmap path Q)
    (fl : Clade -> path -> option string) (c : Clade) p x_start color lw cv cv' :
  widthless c = true ->
  CircTrees.draw_clade E x y fl c p x_start color lw cv = Ok cv' ->
  extends_with (plot_lw lw) (fun _ => True) cv cv'.
Proof.
  intros Hc. rewrite polar_draw_clade_generic, draw_generic_widthless by done.
  intros Hrun.
  refine (draw_generic_rel E _ _ x y _ (fun _ => True)
            (extends_with_refl _ _) (extends_with_trans _ _) _ _
            c p x_start color lw cv cv' I _ Hrun); [| |done].
  - intros. unfold polar_own.
    eapply extends_with_trans.
    + by apply polar_lines_extends.
    + by apply draw_conf_label_extends.
  - intros. by apply polar_lines_extends.
Qed.

Lemma rect_drawMark_widthless (E : env) (a : args) (t : Tree)
    (evs : list event) (s : segment) :
  valid_call E a -> widthless (root t) = true ->
  Trees.drawMark E a t = Ok evs ->
  add_collection s ∈ evs -> seg_lw s = rc_linewidth E.
Proof.
  intros Hvalid Hw Hrun Hin.
  destruct (rect_drawMark_runs E a t Hvalid
              (drawMark_ok_finite_limits E a t evs Hrun))
    as (fl & x & y & ax & cv & aes & calls & _ & _ & _ & Hdraw & Hax & Haes
        & Hcalls & Hmark).
  rewrite Hrun in Hmark. injection Hmark as ->.
  apply (rect_draw_clade_widthless _ _ _ _ _ _ _ _ _ _ _ _ Hw) in Hdraw
    as (es & hs & vs & He & Hh & Hv & Fe & Fh & Fv).
  cbn [events horizontal_linecollections vertical_linecollections app]
    in He, Hh, Hv.
  assert (forall l, Forall is_setup l -> add_collection s ∉ l) as Hsetup.
  { intros l Hl Hel. rewrite Forall_forall in Hl. by apply (Hl _ Hel). }
  rewrite He, Hh, Hv, !elem_of_app in Hin.
  destruct Hin as [[Hin|Hin]|[Hin|[Hin|[Hin|[Hin|Hin]]]]].
  - by destruct (Hsetup ax Hax).
  - rewrite Forall_forall in Fe. by apply Fe in Hin.
  - apply list_elem_of_fmap in Hin as (s' & [= <-] & Hs).
    rewrite Forall_forall in Fh. by apply Fh.
  - apply list_elem_of_fmap in Hin as (s' & [= <-] & Hs).
    rewrite Forall_forall in Fv. by apply Fv.
  - by destruct (Hsetup aes Haes).
  - by destruct (Hsetup calls Hcalls).
  - destruct (do_show a).
    + by apply list_elem_of_singleton in Hin.
    + by apply elem_of_nil in Hin.
Qed.

Lemma polar_drawMark_widthless (E : env) (a : args) (t : Tree)
    (evs : list event) (xs ys : list Q) (col : string) (lw : Q) :
  valid_call E a -> widthless (root t) = true ->
  CircTrees.drawMark E a t = Ok evs ->
  plot xs ys col lw ∈ evs -> lw = rc_linewidth E.
Proof.
  intros Hvalid Hw Hrun Hin.
  destruct (polar_drawMark_runs E a t Hvalid)
    as (fl & x & y & ax & cv & calls & _ & _ & _ & Hdraw & Hax & Hcalls
        & Hmark).
  rewrite Hrun in Hmark. injection Hmark as ->.
  apply (polar_draw_clade_widthless _ _ _ _ _ _ _ _ _ _ _ Hw) in Hdraw
    as (es & hs & vs & He & _ & _ & Fe & _).
  cbn [events] in He.
  assert (forall l, Forall is_setup l -> plot xs ys col lw ∉ l) as Hsetup.
  { intros l Hl Hel. rewrite Forall_forall in Hl. by apply (Hl _ Hel). }
  rewrite He, !elem_of_app in Hin.
  destruct Hin as [[Hin|Hin]|[Hin|[Hin|Hin]]].
  - by destruct (Hsetup ax Hax).
  - rewrite Forall_forall in Fe. by apply Fe in Hin.
  - by apply list_elem_of_fmap in Hin as (s' & [=] & _).
  - by apply list_elem_of_fmap in Hin as (s' & [=] & _).
  - apply elem_of_cons in Hin as [[=]|Hin].
    apply elem_of_app in Hin as [Hin|Hin].
    + by destruct (Hsetup calls Hcalls).
    + destruct (do_show a).
      * by apply list_elem_of_singleton in Hin.
      * by apply elem_of_nil in Hin.
Qed.

(** X16.  [drawTree] draws a tree whose clades have no [width] with
    lines of one width, its [lineWidth] argument: every line collection the
    rectangular [drawTree] adds and every [axes.plot] call of the polar one
    has that line width. *)
Theorem drawTree_line_width (E : env) (W : Trees.world) (treeName : string)
    (outX outY : Q) (outFormat : string) (outDPI : Q) (ladderize : bool)
    (fontSize lineWidth : Q) (marks : list string) (t0 : Tree)
    (evs : list event) :
  Trees.Phylo_read W (treeName +:+ ".nwk") "newick" = Ok t0 ->
  widthless (root (if ladderize then Trees.ladderize_tree W t0 else t0))
    = true ->
  (Trees.drawTree E W treeName outX outY outFormat outDPI ladderize fontSize
     lineWidth marks = Ok evs ->
   forall s, add_collection s ∈ evs -> seg_lw s = lineWidth) /\
  (CircTrees.drawTree E W treeName outX outY outFormat outDPI ladderize
     fontSize lineWidth marks = Ok evs ->
   forall xs ys col lw, plot xs ys col lw ∈ evs -> lw = lineWidth).
Proof.
  intros Hread Hw. split.
  - unfold Trees.drawTree. rewrite Hread. cbn [mbind result_bind Py.bind].
    destruct (Trees.drawMark _ _ _) as [mid|] eqn:HM; [|done].
    cbn [mbind result_bind Py.bind].
    destruct (Trees.savefig_error W _ _); [done|]. intros [= <-] s Hin.
    pose proof (drawMark_ok_imports _ _ _ (or_introl (ex_intro _ _ HM)))
      as Himp.
    apply (rect_drawMark_widthless _ _ _ _ s
             (drawTree_call_valid E lineWidth marks Himp) Hw HM).
    repeat (apply elem_of_cons in Hin as [Hin|Hin]; [discriminate|]).
    apply elem_of_app in Hin as [Hin|Hin]; [done|].
    repeat (apply elem_of_cons in Hin as [Hin|Hin]; [discriminate|]).
    by apply elem_of_nil in Hin.
  - unfold CircTrees.drawTree. rewrite Hread. cbn [mbind result_bind Py.bind].
    destruct (common_ancestor _ _ _) as [p7|]; [|done].
    cbn [mbind result_bind Py.bind].
    destruct (CircTrees.drawMark _ _ _) as [mid|] eqn:HM; [|done].
    cbn [mbind result_bind Py.bind].
    destruct (Trees.savefig_error W _ _); [done|].
    intros [= <-] xs ys col lw Hin.
    pose proof (drawMark_ok_imports _ _ _ (or_intror (ex_intro _ _ HM)))
      as Himp.
    rewrite <- (widthless_update_color (Some color_r) p7) in Hw.
    apply (polar_drawMark_widthless _ _ (mkTree _ _) _ xs ys col lw
             (drawTree_call_valid E lineWidth [] Himp) Hw HM).
    repeat (apply elem_of_cons in Hin as [Hin|Hin]; [discriminate|]).
    apply elem_of_app in Hin as [Hin|Hin]; [done|].
    repeat (apply elem_of_cons in Hin as [Hin|Hin]; [discriminate|]).
    by apply elem_of_nil in Hin.
Qed.

Lemma drawTree_line_width_witness :
  exists evs,
    Trees.drawTree sample_env sample_world "orthologs" 12 10 "svg" 100 false 12
      0.75 Trees.toMark = Ok evs /\
    forall s, add_collection s ∈ evs -> seg_lw s = 0.75%Q.
Proof.
  eexists. split; [vm_compute; reflexivity|].
  apply (proj1 (drawTree_line_width sample_env sample_world "orthologs" 12 10
                  "svg" 100 false 12 0.75 Trees.toMark sample_tree _
                  eq_refl eq_refl)).
  vm_compute. reflexivity.
Defined.

(** ** The shape of the polar lines and the title *)











(** ** The line joining the children of a clade *)

(** X19.  Every clade with children below the one [draw_clade] is called
    on gets one line joining its children, at its own horizontal position
    and spanning the vertical positions of its first and last child: a
    vertical line collection in the rectangular script, an arc plotted at
    constant radius in the polar script. *)
Theorem draw_clade_joins_children (E : env) (a : args) (x y : gmap path Q)
    (fl : Clade -> path -> option string) (c d : Clade) (p q : path)
    (x_start : Q) (color : string) (lw : Q) (cv : canvas) :
  clade_at c q = Some d ->
  is_terminal d = false ->
  (forall cv',
     Trees.draw_clade E a x y fl c p x_start color lw cv = Ok cv' ->
     exists xq y_top y_bot col lw',
       x !! (p ++ q) = Some xq /\
       y !! ((p ++ q) ++ [0]) = Some y_top /\
       y !! ((p ++ q) ++ [length (clades d) - 1]) = Some y_bot /\
       added (vertical_linecollections cv) (vertical_linecollections cv')
         (joint_segment xq y_bot y_top col lw')) /\
  (forall cv',
     CircTrees.draw_clade E x y fl c p x_start color lw cv = Ok cv' ->
     exists xq y_top y_bot col lw',
       x !! (p ++ q) = Some xq /\
       y !! ((p ++ q) ++ [0]) = Some y_top /\
       y !! ((p ++ q) ++ [length (clades d) - 1]) = Some y_bot /\
       added (events cv) (events cv') (arc_line xq y_bot y_top col lw')).
Proof.
  intros Hq Hd. split; intros cv' Hrun.
  - rewrite rect_draw_clade_generic in Hrun.
    destruct (draw_generic_subcall E (rect_own a fl) rect_joint x y extends
                (extends_with_refl _ _) (extends_with_trans _ _)
                (rect_own_extends a fl) rect_joint_extends
                q c p x_start color lw cv cv' d Hrun Hq)
      as (x0 & lw' & cv1 & cv2 & Hcall & H1 & H2).
    destruct (draw_generic_own E (rect_own a fl) rect_joint x y extends
                (extends_with_refl _ _) (extends_with_trans _ _)
                (rect_own_extends a fl) rect_joint_extends
                d (p ++ q) x0 _ lw' cv1 cv2 Hcall)
      as (xq & yq & Hx & Hy & Hown & Hjoint).
    destruct (Hjoint Hd) as (yt & yb & Hyt & Hyb & Hj).
    exists xq, yt, yb, (own_color d (incoming_color c q color)),
      (own_lw E d lw').
    split; [done|]. split; [done|]. split; [done|].
    apply extends_prefix in H1 as (_ & _ & H1v).
    apply extends_prefix in H2 as (_ & _ & H2v).
    apply extends_prefix in Hj as (_ & _ & Hjv).
    eapply added_between; [|exists []; apply rect_joint_adds|by etrans].
    by rewrite rect_own_keeps_vertical.
  - rewrite polar_draw_clade_generic in Hrun.
    destruct (draw_generic_subcall E (polar_own fl) polar_joint x y extends
                (extends_with_refl _ _) (extends_with_trans _ _)
                (polar_own_extends fl) polar_joint_extends
                q c p x_start color lw cv cv' d Hrun Hq)
      as (x0 & lw' & cv1 & cv2 & Hcall & H1 & H2).
    destruct (draw_generic_own E (polar_own fl) polar_joint x y extends
                (extends_with_refl _ _) (extends_with_trans _ _)
                (polar_own_extends fl) polar_joint_extends
                d (p ++ q) x0 _ lw' cv1 cv2 Hcall)
      as (xq & yq & Hx & Hy & Hown & Hjoint).
    destruct (Hjoint Hd) as (yt & yb & Hyt & Hyb & Hj).
    exists xq, yt, yb, (own_color d (incoming_color c q color)),
      (own_lw E d lw').
    split; [done|]. split; [done|]. split; [done|].
    apply extends_prefix in H1 as (H1e & _).
    apply extends_prefix in H2 as (H2e & _).
    apply extends_prefix in Hj as (Hje & _).
    eapply added_between; [|exists []; apply polar_joint_adds|by etrans].
    etrans; [exact H1e|].
    by apply (extends_prefix _ _ _ _ (polar_own_extends fl d (p ++ q) x0 xq yq
                                        _ _ cv1)).
Qed.

Lemma draw_clade_joins_children_witness :
  exists cv' xq y_top y_bot col lw',
    Trees.draw_clade sample_env mark_A
      (positions_of (Trees.get_x_positions sample_tree))
      (positions_of (Trees.get_y_positions sample_tree))
      (fun _ _ => None) (root sample_tree) [] 0 "k" 1 (mkCanvas [] [] [])
      = Ok cv' /\
    positions_of (Trees.get_x_positions sample_tree) !! [0] = Some xq /\
    positions_of (Trees.get_y_positions sample_tree) !! [0; 0] = Some y_top /\
    positions_of (Trees.get_y_positions sample_tree) !! [0; 1] = Some y_bot /\
    added (vertical_linecollections (mkCanvas [] [] []))
      (vertical_linecollections cv') (joint_segment xq y_bot y_top col lw').
Proof.
  assert (exists cv',
            Trees.draw_clade sample_env mark_A
              (positions_of (Trees.get_x_positions sample_tree))
              (positions_of (Trees.get_y_positions sample_tree))
              (fun _ _ => None) (root sample_tree) [] 0 "k" 1
              (mkCanvas [] [] []) = Ok cv') as [cv' Hrun].
  { eexists. vm_compute. reflexivity. }
  destruct (proj1 (draw_clade_joins_children sample_env mark_A _ _ _
                     (root sample_tree)
                     (inner (Some 1%Q) [leaf "A" (Some 2%Q); leaf "B" (Some 1%Q)])
                     [] [0] 0 "k" 1 (mkCanvas [] [] []) eq_refl eq_refl)
              cv' Hrun)
    as (xq & yt & yb & col & lw' & Hxq & Hyt & Hyb & Hadd).
  exists cv', xq, yt, yb, col, lw'. repeat split; assumption.
Defined.
